(** * Market order execution engine: the order lifecycle core

    A shallow embedding of the TypeScript sources (types.ts,
    dex/mockDexRouter.ts, services/orderService.ts, queue/orderWorker.ts,
    api/orders.ts, ws/orderSocket.ts) and the properties of the lifecycle
    engine proved over it.

    Conventions of the embedding:
    - a JavaScript [number] that carries a price, an amount or a random
      draw is an IEEE 754 binary64 value, modelled by [spec_float] with
      precision 53 and maximal exponent 1024;
    - a [number] that is an integer counter or a reading of the clock
      (attempt numbers, [Date.now()]) is a [Z]; a duration in
      milliseconds is a binary64 value, since the back-off delays are
      computed in floating point;
    - token symbols are sequences of UTF-16 code units ([list N]), since
      the router reads [charCodeAt]; identifiers and messages, which the
      code only compares and concatenates, are [string];
    - a [Map<string, V>] is a [gmap string V]; a [Set] of handlers or of
      statuses is a duplicate-free list in insertion order, which is the
      iteration order of a JavaScript [Set];
    - an [async] function that can reject returns an [Outcome], and a
      query the database can refuse returns the table or the error;
      state is passed explicitly. *)

From Stdlib Require Import ZArith SpecFloat Ascii String.
From stdpp Require Import gmap strings list sorting.

(** ** JavaScript numbers *)

Module JsNumber.

Definition number : Type := spec_float.

Definition prec : Z := 53.
Definition emax : Z := 1024.

Definition add : number -> number -> number := SFadd prec emax.
Definition sub : number -> number -> number := SFsub prec emax.
Definition mul : number -> number -> number := SFmul prec emax.
Definition div : number -> number -> number := SFdiv prec emax.

(** [a < b], [a > b], [a >= b], [a <= b] and [a === b] on numbers; every
    comparison with NaN is false. *)
Definition ltb (a b : number) : bool :=
  match SFcompare a b with Some Lt => true | _ => false end.
Definition gtb (a b : number) : bool :=
  match SFcompare a b with Some Gt => true | _ => false end.
Definition geb (a b : number) : bool :=
  match SFcompare a b with Some Gt | Some Eq => true | _ => false end.
Definition leb (a b : number) : bool :=
  match SFcompare a b with Some Lt | Some Eq => true | _ => false end.
Definition eqb (a b : number) : bool :=
  match SFcompare a b with Some Eq => true | _ => false end.

Definition is_nan (a : number) : bool :=
  match a with S754_nan => true | _ => false end.

(** [Number.isFinite] *)
Definition isFinite (a : number) : bool :=
  match a with
  | S754_zero _ | S754_finite _ _ _ => true
  | S754_infinity _ | S754_nan => false
  end.

Definition is_neg_zero (a : number) : bool :=
  match a with S754_zero true => true | _ => false end.

(** The values of [spec_float] that are binary64 numbers: a finite one
    has its mantissa and exponent in the format's range. *)
Definition is_number (a : number) : bool := valid_binary prec emax a.

(** [Math.min] and [Math.max] of two arguments: NaN is contagious and
    [-0] is below [+0]. *)
Definition Math_min (a b : number) : number :=
  if is_nan a || is_nan b then S754_nan
  else if ltb a b then a
  else if ltb b a then b
  else if is_neg_zero a then a else b.

Definition Math_max (a b : number) : number :=
  if is_nan a || is_nan b then S754_nan
  else if ltb a b then b
  else if ltb b a then a
  else if is_neg_zero a then b else a.

(** The integer [z] as a number (rounded to nearest even beyond 2^53). *)
Definition of_Z (z : Z) : number := binary_normalize prec emax z 0 false.

(** [Math.floor] *)
Definition Math_floor (a : number) : number :=
  match a with
  | S754_finite s m e =>
      if (0 <=? e)%Z then a
      else
        let q := Z.shiftr (Z.pos m) (- e) in
        let exact := (Z.shiftl q (- e) =? Z.pos m)%Z in
        if s then (if exact then binary_normalize prec emax (- q) 0 true
                   else binary_normalize prec emax (- (q + 1)) 0 true)
        else binary_normalize prec emax q 0 false
  | _ => a
  end.

(** The decimal literals of the sources, each the binary64 value nearest
    to the literal. *)
Definition zero : number := S754_zero false.
Definition one : number := S754_finite false 4503599627370496 (-52).
Definition c150 : number := S754_finite false 5277655813324800 (-45).
Definition c0_75 : number := S754_finite false 6755399441055744 (-53).
Definition c0_5 : number := S754_finite false 4503599627370496 (-53).
Definition c10000 : number := S754_finite false 5497558138880000 (-39).
Definition c0_00001 : number := S754_finite false 5902958103587057 (-69).
Definition c0_9 : number := S754_finite false 8106479329266893 (-53).
Definition c0_98 : number := S754_finite false 8827055269646172 (-53).
Definition c0_04 : number := S754_finite false 5764607523034235 (-57).
Definition c0_003 : number := S754_finite false 6917529027641082 (-61).
Definition c0_97 : number := S754_finite false 8736983277098762 (-53).
Definition c0_05 : number := S754_finite false 7205759403792794 (-57).
Definition c0_002 : number := S754_finite false 4611686018427388 (-61).
Definition c200 : number := S754_finite false 7036874417766400 (-45).
Definition c2000 : number := S754_finite false 8796093022208000 (-42).
Definition c1000 : number := S754_finite false 8796093022208000 (-43).
Definition c0_995 : number := S754_finite false 8962163258467287 (-53).
Definition c0_01 : number := S754_finite false 5764607523034235 (-59).

(** [Math.pow(2, e)] for a whole number [e >= 0]: the power itself up to
    [2^1023], [Infinity] beyond. *)
Definition Math_pow2 (e : Z) : number :=
  if (e <=? 1023)%Z then S754_finite false 4503599627370496 (e - 52)
  else S754_infinity false.

(** The mantissa [m] with [k] zero bits appended. *)
Definition shl (k : nat) (m : positive) : positive := Nat.iter k xO m.

(** The product of a finite number and [2^j], [0 <= j]: the rounding
    drops [n] of the 52 zero bits the product of the mantissas ends in,
    and the result overflows when its exponent passes the format's. *)
Definition scaled (s : bool) (m : positive) (e j : Z) : number :=
  let n := Z.max (Z.pos (digits2_pos m) - 1) (-1022 - e - j) in
  if (e + j - 52 + n <=? 971)%Z
  then S754_finite s (shl (52 - Z.to_nat n) m) (e + j - 52 + n)
  else S754_infinity s.

(** The whole number a number is, for one that is whole. *)
Definition to_whole (a : number) : option Z :=
  match a with
  | S754_zero _ => Some 0%Z
  | S754_finite s m e =>
      let magnitude :=
        if (0 <=? e)%Z then Some (Z.pos m * 2 ^ e)%Z
        else if (Z.pos m mod 2 ^ (- e) =? 0)%Z then Some (Z.pos m / 2 ^ (- e))%Z
        else None in
      (λ z, if s then (- z)%Z else z) <$> magnitude
  | S754_infinity _ | S754_nan => None
  end.

End JsNumber.

Import JsNumber.

(** ** types.ts *)

Inductive DexName : Type := raydium | meteora.

Inductive OrderStatus : Type :=
  pending | routing | building | submitted | confirmed | failed.

#[global] Instance DexName_eq_dec : EqDecision DexName.
Proof. solve_decision. Defined.

#[global] Instance OrderStatus_eq_dec : EqDecision OrderStatus.
Proof. solve_decision. Defined.

(** A token symbol: the UTF-16 code units of the JavaScript string. *)
Definition symbol : Type := list N.

(** [type] is always ['market'] and is left out. *)
Record Order : Type := mkOrder {
  orderId : string;
  tokenIn : symbol;
  tokenOut : symbol;
  amount : number;
  slippageBps : number;
  createdAtMs : Z
}.

Record DexQuote : Type := mkDexQuote {
  dex : DexName;
  price : number;
  feeRate : number;
  effectivePrice : number
}.

Record RoutingDecision : Type := mkRoutingDecision {
  rd_raydium : DexQuote;
  rd_meteora : DexQuote;
  chosen : DexQuote
}.

Record SwapExecutionResult : Type := mkSwapExecutionResult {
  sw_dex : DexName;
  sw_executedPrice : number;
  sw_txHash : string
}.

(** The fields an event carries besides the base ones, by variant. *)
Inductive EventDetail : Type :=
  | NoDetail
  | ConfirmedDetail (txHash : string) (d : DexName) (executedPrice : number)
  | FailedDetail (error : string).

Record OrderEvent : Type := mkOrderEvent {
  ev_orderId : string;
  status : OrderStatus;
  tsMs : Z;
  detail : EventDetail
}.

Record OrderFinalRecord : Type := mkOrderFinalRecord {
  fr_orderId : string;
  fr_tokenIn : symbol;
  fr_tokenOut : symbol;
  fr_amount : number;
  fr_slippageBps : number;
  fr_status : OrderStatus;
  fr_dexChosen : option DexName;
  fr_executedPrice : option number;
  fr_txHash : option string;
  fr_failureReason : option string;
  fr_createdAtMs : Z;
  fr_updatedAtMs : Z
}.

(** A value thrown by a rejected promise: an [Error] with its message, or
    any other value with its [String(...)] rendering. *)
Inductive Thrown : Type :=
  | ErrorObj (message : string)
  | OtherValue (rendering : string).

(** [err instanceof Error ? err.message : String(err)] *)
Definition error_text (err : Thrown) : string :=
  match err with
  | ErrorObj message => message
  | OtherValue rendering => rendering
  end.

Inductive Outcome (A : Type) : Type :=
  | Resolved (a : A)
  | Rejected (err : Thrown).

Arguments Resolved {A} a.
Arguments Rejected {A} err.

(** ** dex/mockDexRouter.ts *)

Module MockDexRouter.

(** [clamp(n, min, max) = Math.max(min, Math.min(max, n))] *)
Definition clamp (n lo hi : number) : number := Math_max lo (Math_min hi n).

(** The loop of [stableBasePrice]: [i] is the index of the next code unit
    and [sum] the accumulator, kept below 10000. *)
Fixpoint seedSum (codes : list N) (i : N) (sum : N) : N :=
  match codes with
  | [] => sum
  | c :: rest => seedSum rest (i + 1) ((sum + c * (i + 1)) mod 10000)%N
  end.

(** The arrow of the seed template, U+2192. *)
Definition arrow : N := 8594.

Definition stableBasePrice (tIn tOut : symbol) : number :=
  let seed := tIn ++ arrow :: tOut in
  let sum := seedSum seed 0 0 in
  add c0_75 (mul (div (of_Z (Z.of_N sum)) c10000) c0_5).

(** [getQuote]; [u] is the value [this.rand()] returns. The first
    component lists the delays passed to [sleepFn]. *)
Definition getQuote (d : DexName) (tIn tOut : symbol) (amt : number)
    (u : number) : list number * DexQuote :=
  let base := stableBasePrice tIn tOut in
  let amountFactor := clamp (sub one (mul amt c0_00001)) c0_9 one in
  match d with
  | raydium =>
      let variance := add c0_98 (mul u c0_04) in
      let price := mul (mul base variance) amountFactor in
      let feeRate := c0_003 in
      ([c200], mkDexQuote d price feeRate (mul price (sub one feeRate)))
  | meteora =>
      let variance := add c0_97 (mul u c0_05) in
      let price := mul (mul base variance) amountFactor in
      let feeRate := c0_002 in
      ([c200], mkDexQuote d price feeRate (mul price (sub one feeRate)))
  end.

Definition getRaydiumQuote := getQuote raydium.
Definition getMeteoraQuote := getQuote meteora.

(** [route]; both quotes are started together, the raydium one draws the
    first random value [u1] and the meteora one the second, [u2]. *)
Definition route (order : Order) (u1 u2 : number)
    : list number * RoutingDecision :=
  let '(s1, r) := getRaydiumQuote (tokenIn order) (tokenOut order) (amount order) u1 in
  let '(s2, m) := getMeteoraQuote (tokenIn order) (tokenOut order) (amount order) u2 in
  let chosen := if geb (effectivePrice r) (effectivePrice m) then r else m in
  (s1 ++ s2, mkRoutingDecision r m chosen).

(** [s.replace(/-/g, '')] *)
Fixpoint strip_dashes (s : string) : string :=
  match s with
  | EmptyString => EmptyString
  | String c rest =>
      if Ascii.eqb c "-"%char then strip_dashes rest
      else String c (strip_dashes rest)
  end.

(** [executeSwap]; [u1] and [u2] are the two random draws and [uuid] the
    value of [uuidv4()]. *)
Definition executeSwap (d : DexName) (order : Order) (quotedPrice : number)
    (u1 u2 : number) (uuid : string) : list number * SwapExecutionResult :=
  let delay := add c2000 (Math_floor (mul u1 c1000)) in
  let drift := add c0_995 (mul u2 c0_01) in
  let executedPrice := mul quotedPrice drift in
  ([delay], mkSwapExecutionResult d executedPrice ("mocktx_" +:+ strip_dashes uuid)).

End MockDexRouter.

(** ** services/orderService.ts: the in-memory active-order store *)

Module InMemoryActiveOrderStore.

Record t : Type := mk {
  orders : gmap string Order;
  events : gmap string (list OrderEvent)
}.

Definition empty : t := mk ∅ ∅.

(** The time-to-live argument is ignored by this store. *)
Definition putActiveOrder (order : Order) (st : t) : t :=
  mk (<[orderId order := order]> (orders st))
     (match events st !! orderId order with
      | Some _ => events st
      | None => <[orderId order := []]> (events st)
      end).

Definition getActiveOrder (id : string) (st : t) : option Order :=
  orders st !! id.

Definition appendEvent (id : string) (event : OrderEvent) (st : t) : t :=
  let list := default [] (events st !! id) in
  mk (orders st) (<[id := list ++ [event]]> (events st)).

(** Returns a copy, so a caller that sorts the result leaves the log as
    it is. *)
Definition listEvents (id : string) (st : t) : list OrderEvent :=
  default [] (events st !! id).

Definition clear (id : string) (st : t) : t :=
  mk (delete id (orders st)) (delete id (events st)).

End InMemoryActiveOrderStore.

(** ** services/orderService.ts: the process-local event bus *)

(** A subscribed callback, by the identity of the function object. The
    callbacks considered here record what they receive and make no call to
    the bus while they run. *)
Definition Handler : Type := nat.

(** [Set.prototype.add] and [Set.prototype.delete] on a set kept in
    insertion order. *)
Definition set_add {A} `{EqDecision A} (x : A) (s : list A) : list A :=
  if decide (x ∈ s) then s else s ++ [x].

Definition set_delete {A} `{EqDecision A} (x : A) (s : list A) : list A :=
  filter (λ y, y ≠ x) s.

Module InMemoryEventBus.

Record t : Type := mk {
  handlers : gmap string (list Handler)
}.

Definition empty : t := mk ∅.

(** The calls [h(event)] made by [publish], in order. *)
Definition publish (id : string) (event : OrderEvent) (bus : t)
    : list (Handler * OrderEvent) :=
  match handlers bus !! id with
  | None => []
  | Some set => map (λ h, (h, event)) set
  end.

Definition subscribe (id : string) (onEvent : Handler) (bus : t) : t :=
  let set := default [] (handlers bus !! id) in
  mk (<[id := set_add onEvent set]> (handlers bus)).

(** The function returned by [subscribe id onEvent]. *)
Definition unsubscribe (id : string) (onEvent : Handler) (bus : t) : t :=
  match handlers bus !! id with
  | None => bus
  | Some cur => mk (<[id := set_delete onEvent cur]> (handlers bus))
  end.

Definition close (bus : t) : t := mk ∅.

End InMemoryEventBus.

(** ** db/index.ts: the order_history table *)

Module PgDb.

(** One row per [order_id]; the numeric columns of a row hold the
    numbers [Number(...)] makes of them when the row is read, and a TEXT
    column holds the text it is sent (the symbols, identifiers and
    messages considered are texts the server stores as they are). *)
Abbreviation t := (gmap string OrderFinalRecord).

(** The driver sends a number as the text [String(n)], in which [-0] is
    "0". A NUMERIC column ([amount], [executed_price]) holds the value of
    the text it is sent, NaN and the infinities included, as in
    PostgreSQL 14 and later. *)
Definition numericColumn (n : number) : number :=
  match n with
  | S754_zero _ => S754_zero false
  | _ => n
  end.

(** An INTEGER column ([slippage_bps]) takes the text of a whole number
    of 32 bits and refuses every other text: that of a fraction, of a
    number out of range, of NaN or of an infinity. *)
Definition integerColumn (n : number) : option Z :=
  match to_whole n with
  | Some z =>
      if (-2147483648 <=? z)%Z && (z <=? 2147483647)%Z then Some z else None
  | None => None
  end.

(** What a query is rejected with when the value sent for an INTEGER
    column is refused. *)
Inductive QueryError : Type :=
  | InvalidInteger (n : number).

(** INSERT ... ON CONFLICT (order_id) DO NOTHING. The values sent are
    converted to the types of their columns before the conflict is looked
    at, so a refused value rejects the query whether or not the row
    exists. [createdAtMs] is a reading of the clock, which BIGINT
    holds. *)
Definition insertOrder (order : Order) (db : t) : t + QueryError :=
  match integerColumn (slippageBps order) with
  | None => inr (InvalidInteger (slippageBps order))
  | Some bps =>
      inl match db !! orderId order with
          | Some _ => db
          | None =>
              <[orderId order :=
                  mkOrderFinalRecord (orderId order) (tokenIn order)
                    (tokenOut order) (numericColumn (amount order)) (of_Z bps)
                    pending None None None None
                    (createdAtMs order) (createdAtMs order)]> db
          end
  end.

(** UPDATE ... SET status = 'confirmed', ... WHERE order_id = $1 *)
Definition finalizeOrder (id : string) (d : DexName) (executedPrice : number)
    (txHash : string) (updatedAtMs : Z) (db : t) : t :=
  alter (λ r,
    mkOrderFinalRecord (fr_orderId r) (fr_tokenIn r) (fr_tokenOut r)
      (fr_amount r) (fr_slippageBps r) confirmed (Some d)
      (Some (numericColumn executedPrice)) (Some txHash) None
      (fr_createdAtMs r) updatedAtMs) id db.

(** UPDATE ... SET status = 'failed', failure_reason = $2,
    updated_at_ms = $3 WHERE order_id = $1 *)
Definition failOrder (id : string) (failureReason : string) (updatedAtMs : Z)
    (db : t) : t :=
  alter (λ r,
    mkOrderFinalRecord (fr_orderId r) (fr_tokenIn r) (fr_tokenOut r)
      (fr_amount r) (fr_slippageBps r) failed (fr_dexChosen r)
      (fr_executedPrice r) (fr_txHash r) (Some failureReason)
      (fr_createdAtMs r) updatedAtMs) id db.

(** [row.x ? String(row.x) : null]: an empty text reads back as null. *)
Definition truthy_text (x : option string) : option string :=
  match x with
  | Some s => if decide (s = "") then None else Some s
  | None => None
  end.

Definition mapRowToOrder (row : OrderFinalRecord) : OrderFinalRecord :=
  mkOrderFinalRecord (fr_orderId row) (fr_tokenIn row) (fr_tokenOut row)
    (fr_amount row) (fr_slippageBps row) (fr_status row) (fr_dexChosen row)
    (fr_executedPrice row) (truthy_text (fr_txHash row))
    (truthy_text (fr_failureReason row)) (fr_createdAtMs row)
    (fr_updatedAtMs row).

Definition getOrder (id : string) (db : t) : option OrderFinalRecord :=
  mapRowToOrder <$> db !! id.

End PgDb.

(** ** The world the worker and the submission path act on *)

(** The fields of the [retry.scheduled] warning. *)
Record RetryWarning : Type := mkRetryWarning {
  rw_attempt : Z;
  rw_nextAttempt : Z;
  rw_waitMs : number;
  rw_error : string
}.

(** The writes and calls to collaborators, in the order they are made. *)
Inductive Effect : Type :=
  | StorePut (order : Order)
  | StoreAppend (id : string) (event : OrderEvent)
  | BusPublish (id : string) (event : OrderEvent)
  | DbInsert (order : Order)
  | DbFinalize (id : string) (d : DexName) (executedPrice : number)
      (txHash : string) (updatedAtMs : Z)
  | DbFail (id : string) (failureReason : string) (updatedAtMs : Z)
  | QueueEnqueue (id : string)
  | Sleep (ms : number)
  | LogWarn (w : RetryWarning)
  | LogInfo (msg : string) (fields : list (string * string)).

(** [delivered] lists every call the bus made to a subscribed callback,
    [enqueued] the job identifiers handed to the queue client, [slept] the
    durations passed to the sleeper; [ticks] counts the calls of
    [nowMs()]. *)
Record World : Type := mkWorld {
  activeStore : InMemoryActiveOrderStore.t;
  eventBus : InMemoryEventBus.t;
  delivered : list (Handler * OrderEvent);
  db : PgDb.t;
  enqueued : list string;
  slept : list number;
  ticks : nat;
  trace : list Effect
}.

Definition emptyWorld : World :=
  mkWorld InMemoryActiveOrderStore.empty InMemoryEventBus.empty [] ∅ [] [] 0 [].

Module Op.

(** [nowMs()]: the clock gives the value of the n-th reading. *)
Definition nowMs (clock : nat -> Z) (w : World) : Z * World :=
  (clock (ticks w),
   mkWorld (activeStore w) (eventBus w) (delivered w) (db w) (enqueued w)
     (slept w) (S (ticks w)) (trace w)).

Definition putActiveOrder (order : Order) (w : World) : World :=
  mkWorld (InMemoryActiveOrderStore.putActiveOrder order (activeStore w))
    (eventBus w) (delivered w) (db w) (enqueued w) (slept w) (ticks w)
    (trace w ++ [StorePut order]).

Definition appendEvent (id : string) (event : OrderEvent) (w : World) : World :=
  mkWorld (InMemoryActiveOrderStore.appendEvent id event (activeStore w))
    (eventBus w) (delivered w) (db w) (enqueued w) (slept w) (ticks w)
    (trace w ++ [StoreAppend id event]).

Definition publish (id : string) (event : OrderEvent) (w : World) : World :=
  mkWorld (activeStore w) (eventBus w)
    (delivered w ++ InMemoryEventBus.publish id event (eventBus w))
    (db w) (enqueued w) (slept w) (ticks w)
    (trace w ++ [BusPublish id event]).

(** The call is made in either case; the first component is the error
    it is rejected with, if it is. *)
Definition insertOrder (order : Order) (w : World)
    : option PgDb.QueryError * World :=
  let called (db1 : PgDb.t) :=
    mkWorld (activeStore w) (eventBus w) (delivered w) db1 (enqueued w)
      (slept w) (ticks w) (trace w ++ [DbInsert order]) in
  match PgDb.insertOrder order (db w) with
  | inl db1 => (None, called db1)
  | inr err => (Some err, called (db w))
  end.

Definition finalizeOrder (id : string) (d : DexName) (executedPrice : number)
    (txHash : string) (updatedAtMs : Z) (w : World) : World :=
  mkWorld (activeStore w) (eventBus w) (delivered w)
    (PgDb.finalizeOrder id d executedPrice txHash updatedAtMs (db w))
    (enqueued w) (slept w) (ticks w)
    (trace w ++ [DbFinalize id d executedPrice txHash updatedAtMs]).

Definition failOrder (id : string) (failureReason : string) (updatedAtMs : Z)
    (w : World) : World :=
  mkWorld (activeStore w) (eventBus w) (delivered w)
    (PgDb.failOrder id failureReason updatedAtMs (db w))
    (enqueued w) (slept w) (ticks w)
    (trace w ++ [DbFail id failureReason updatedAtMs]).

Definition enqueue (id : string) (w : World) : World :=
  mkWorld (activeStore w) (eventBus w) (delivered w) (db w)
    (enqueued w ++ [id]) (slept w) (ticks w) (trace w ++ [QueueEnqueue id]).

Definition sleep (ms : number) (w : World) : World :=
  mkWorld (activeStore w) (eventBus w) (delivered w) (db w) (enqueued w)
    (slept w ++ [ms]) (ticks w) (trace w ++ [Sleep ms]).

Definition warn (entry : RetryWarning) (w : World) : World :=
  mkWorld (activeStore w) (eventBus w) (delivered w) (db w) (enqueued w)
    (slept w) (ticks w) (trace w ++ [LogWarn entry]).

Definition info (msg : string) (fields : list (string * string)) (w : World)
    : World :=
  mkWorld (activeStore w) (eventBus w) (delivered w) (db w) (enqueued w)
    (slept w) (ticks w) (trace w ++ [LogInfo msg fields]).

End Op.

(** ** queue/orderWorker.ts *)

(** What the injected router answers when it is called: the behaviour of
    [deps.router] during one attempt. A router that draws random numbers or
    fails now and then answers differently from attempt to attempt. *)
Record Router : Type := mkRouter {
  route : Order -> Outcome RoutingDecision;
  executeSwap : DexName -> Order -> number -> Outcome SwapExecutionResult
}.

Module OrderWorker.

Definition lastStatus (events : list OrderEvent) : option OrderStatus :=
  status <$> last events.

Definition hasStatus (events : list OrderEvent) (s : OrderStatus) : bool :=
  existsb (λ e, bool_decide (status e = s)) events.

Definition emitEvent (event : OrderEvent) (w : World) : World :=
  Op.publish (ev_orderId event) event (Op.appendEvent (ev_orderId event) event w).

Definition ORDER_WORKER_CONCURRENCY : Z := 10.
Definition ORDER_MAX_ATTEMPTS : Z := 3.
Definition ORDER_BACKOFF_BASE_MS : number := c1000.

(** [attempt] is 1-based and a whole number, as the loop counter of
    [runWithRetries] is; the first retry waits [baseMs]. The product is
    computed in binary64: the power is [Infinity] from [attempt = 1026]
    on. *)
Definition computeExponentialBackoffMs (attempt : Z) (baseMs : number)
    : number :=
  let exponent := Z.max 0 (attempt - 2) in
  mul baseMs (Math_pow2 exponent).

(** The block [if (!hasStatus(events, s)) await emitEvent(...)] that
    [processOrderOnce] repeats for routing, building and submitted; the
    timestamp is read only when the event is built. *)
Definition emitUnlessRecorded (clock : nat -> Z) (events : list OrderEvent)
    (id : string) (s : OrderStatus) (w : World) : World :=
  if hasStatus events s then w
  else
    let '(now, w1) := Op.nowMs clock w in
    emitEvent (mkOrderEvent id s now NoDetail) w1.

Definition processOrderOnce (clock : nat -> Z) (router : Router)
    (order : Order) (w : World) : Outcome unit * World :=
  let id := orderId order in
  let events := InMemoryActiveOrderStore.listEvents id (activeStore w) in
  let last := lastStatus events in
  if bool_decide (last = Some confirmed) || bool_decide (last = Some failed)
  then (Resolved tt, w)
  else
    let w1 := emitUnlessRecorded clock events id routing w in
    match route router order with
    | Rejected err => (Rejected err, w1)
    | Resolved decision =>
        let w2 := emitUnlessRecorded clock events id building w1 in
        let w3 := Op.sleep c150 w2 in
        let w4 := emitUnlessRecorded clock events id submitted w3 in
        match executeSwap router (dex (chosen decision)) order
                (price (chosen decision)) with
        | Rejected err => (Rejected err, w4)
        | Resolved exec =>
            let '(updatedAtMs, w5) := Op.nowMs clock w4 in
            let w6 := Op.finalizeOrder id (sw_dex exec) (sw_executedPrice exec)
                        (sw_txHash exec) updatedAtMs w5 in
            let afterEvents :=
              InMemoryActiveOrderStore.listEvents id (activeStore w6) in
            if hasStatus afterEvents confirmed then (Resolved tt, w6)
            else
              (Resolved tt,
               emitEvent
                 (mkOrderEvent id confirmed updatedAtMs
                    (ConfirmedDetail (sw_txHash exec) (sw_dex exec)
                       (sw_executedPrice exec))) w6)
        end
    end.

(** The [for] loop of [runWithRetries]; [fuel] bounds the iterations left
    and is never the reason the loop stops, see [runWithRetries]. *)
Fixpoint retryLoop (fuel : nat) (attempt maxAttempts : Z)
    (baseBackoffMs : number)
    (run : Z -> World -> Outcome unit * World) (w : World)
    : Outcome unit * World :=
  match fuel with
  | O => (Resolved tt, w)
  | S fuel' =>
      if (attempt <=? maxAttempts)%Z then
        match run attempt w with
        | (Resolved _, w1) => (Resolved tt, w1)
        | (Rejected err, w1) =>
            let msg := error_text err in
            let isFinal := (attempt >=? maxAttempts)%Z in
            if isFinal then (Rejected err, w1)
            else
              let waitMs := computeExponentialBackoffMs (attempt + 1) baseBackoffMs in
              let w2 := Op.warn (mkRetryWarning attempt (attempt + 1) waitMs msg) w1 in
              let w3 := Op.sleep waitMs w2 in
              retryLoop fuel' (attempt + 1) maxAttempts baseBackoffMs run w3
        end
      else (Resolved tt, w)
  end.

(** Attempts run from 1 to [maxAttempts], so [maxAttempts] iterations are
    all the loop can make. *)
Definition runWithRetries (maxAttempts : Z) (baseBackoffMs : number)
    (run : Z -> World -> Outcome unit * World) (w : World)
    : Outcome unit * World :=
  retryLoop (Z.to_nat maxAttempts) 1 maxAttempts baseBackoffMs run w.

(** [routerAt n] is the behaviour of the injected router during attempt
    [n]. *)
Definition executeOrderJob (clock : nat -> Z) (routerAt : Z -> Router)
    (id : string) (w : World) : Outcome unit * World :=
  match InMemoryActiveOrderStore.getActiveOrder id (activeStore w) with
  | None => (Rejected (ErrorObj ("Active order not found: " +:+ id)), w)
  | Some order =>
      match runWithRetries ORDER_MAX_ATTEMPTS ORDER_BACKOFF_BASE_MS
              (λ attempt, processOrderOnce clock (routerAt attempt) order) w with
      | (Resolved _, w1) => (Resolved tt, w1)
      | (Rejected err, w1) =>
          let failureReason := error_text err in
          let '(updatedAtMs, w2) := Op.nowMs clock w1 in
          let w3 := Op.failOrder id failureReason updatedAtMs w2 in
          let events := InMemoryActiveOrderStore.listEvents id (activeStore w3) in
          if hasStatus events failed then (Rejected err, w3)
          else
            (Rejected err,
             emitEvent (mkOrderEvent id failed updatedAtMs
                          (FailedDetail failureReason)) w3)
      end
  end.

End OrderWorker.

(** ** queue/orderWorker.ts, operation by operation

    The same functions written as the sequence of operations they await,
    so that the operations of a job can be interleaved with those of the
    submission path and of a connection. [exec] runs such a sequence
    without interruption; run that way it is the function of
    [OrderWorker] ([exec_executeOrderJob] below). *)

Module WorkerSteps.

(** What is left of an [async] function returning nothing: it has
    resolved, it has thrown, or it awaits a read of the store, the clock,
    or one of the writes and calls of [Effect] and then goes on. *)
Inductive Prog : Type :=
  | Done
  | Throw (err : Thrown)
  | ListEvents (id : string) (k : list OrderEvent -> Prog)
  | GetActiveOrder (id : string) (k : option Order -> Prog)
  | NowMs (k : Z -> Prog)
  | Do (e : Effect) (k : Prog).

(** [await p; q] *)
Fixpoint andThen (p q : Prog) : Prog :=
  match p with
  | Done => q
  | Throw err => Throw err
  | ListEvents id k => ListEvents id (λ events, andThen (k events) q)
  | GetActiveOrder id k => GetActiveOrder id (λ o, andThen (k o) q)
  | NowMs k => NowMs (λ now, andThen (k now) q)
  | Do e k => Do e (andThen k q)
  end.

(** [try { await p } catch (err) { handler }] *)
Fixpoint catch (p : Prog) (handler : Thrown -> Prog) : Prog :=
  match p with
  | Done => Done
  | Throw err => handler err
  | ListEvents id k => ListEvents id (λ events, catch (k events) handler)
  | GetActiveOrder id k => GetActiveOrder id (λ o, catch (k o) handler)
  | NowMs k => NowMs (λ now, catch (k now) handler)
  | Do e k => Do e (catch k handler)
  end.

Definition emitEvent (event : OrderEvent) : Prog :=
  Do (StoreAppend (ev_orderId event) event)
    (Do (BusPublish (ev_orderId event) event) Done).

Definition emitUnlessRecorded (events : list OrderEvent) (id : string)
    (s : OrderStatus) : Prog :=
  if OrderWorker.hasStatus events s then Done
  else NowMs (λ now, emitEvent (mkOrderEvent id s now NoDetail)).

Definition processOrderOnce (router : Router) (order : Order) : Prog :=
  let id := orderId order in
  ListEvents id (λ events,
    let last := OrderWorker.lastStatus events in
    if bool_decide (last = Some confirmed) || bool_decide (last = Some failed)
    then Done
    else
      andThen (emitUnlessRecorded events id routing)
        match route router order with
        | Rejected err => Throw err
        | Resolved decision =>
            andThen (emitUnlessRecorded events id building)
              (Do (Sleep c150)
                 (andThen (emitUnlessRecorded events id submitted)
                    match executeSwap router (dex (chosen decision)) order
                            (price (chosen decision)) with
                    | Rejected err => Throw err
                    | Resolved exec =>
                        NowMs (λ updatedAtMs,
                          Do (DbFinalize id (sw_dex exec) (sw_executedPrice exec)
                                (sw_txHash exec) updatedAtMs)
                            (ListEvents id (λ afterEvents,
                               if OrderWorker.hasStatus afterEvents confirmed then Done
                               else
                                 emitEvent
                                   (mkOrderEvent id confirmed updatedAtMs
                                      (ConfirmedDetail (sw_txHash exec) (sw_dex exec)
                                         (sw_executedPrice exec))))))
                    end))
        end).

Fixpoint retryLoop (fuel : nat) (attempt maxAttempts : Z)
    (baseBackoffMs : number) (run : Z -> Prog) : Prog :=
  match fuel with
  | O => Done
  | S fuel' =>
      if (attempt <=? maxAttempts)%Z then
        catch (run attempt) (λ err,
          let msg := error_text err in
          let isFinal := (attempt >=? maxAttempts)%Z in
          if isFinal then Throw err
          else
            let waitMs :=
              OrderWorker.computeExponentialBackoffMs (attempt + 1) baseBackoffMs in
            Do (LogWarn (mkRetryWarning attempt (attempt + 1) waitMs msg))
              (Do (Sleep waitMs)
                 (retryLoop fuel' (attempt + 1) maxAttempts baseBackoffMs run)))
      else Done
  end.

Definition runWithRetries (maxAttempts : Z) (baseBackoffMs : number)
    (run : Z -> Prog) : Prog :=
  retryLoop (Z.to_nat maxAttempts) 1 maxAttempts baseBackoffMs run.

Definition executeOrderJob (routerAt : Z -> Router) (id : string) : Prog :=
  GetActiveOrder id (λ o,
    match o with
    | None => Throw (ErrorObj ("Active order not found: " +:+ id))
    | Some order =>
        catch
          (runWithRetries OrderWorker.ORDER_MAX_ATTEMPTS
             OrderWorker.ORDER_BACKOFF_BASE_MS
             (λ attempt, processOrderOnce (routerAt attempt) order))
          (λ err,
             let failureReason := error_text err in
             NowMs (λ updatedAtMs,
               Do (DbFail id failureReason updatedAtMs)
                 (ListEvents id (λ events,
                    if OrderWorker.hasStatus events failed then Throw err
                    else
                      andThen
                        (emitEvent (mkOrderEvent id failed updatedAtMs
                                      (FailedDetail failureReason)))
                        (Throw err)))))
    end).

(** What an effect does to the world. ([DbInsert] is a call of the
    submission path; no program of the worker makes it.) *)
Definition applyEffect (e : Effect) (w : World) : World :=
  match e with
  | StorePut order => Op.putActiveOrder order w
  | StoreAppend id event => Op.appendEvent id event w
  | BusPublish id event => Op.publish id event w
  | DbInsert order => (Op.insertOrder order w).2
  | DbFinalize id d executedPrice txHash updatedAtMs =>
      Op.finalizeOrder id d executedPrice txHash updatedAtMs w
  | DbFail id failureReason updatedAtMs => Op.failOrder id failureReason updatedAtMs w
  | QueueEnqueue id => Op.enqueue id w
  | Sleep ms => Op.sleep ms w
  | LogWarn entry => Op.warn entry w
  | LogInfo msg fields => Op.info msg fields w
  end.

(** The operations of [p] run one after the other with nothing in
    between. *)
Fixpoint exec (clock : nat -> Z) (p : Prog) (w : World) : Outcome unit * World :=
  match p with
  | Done => (Resolved tt, w)
  | Throw err => (Rejected err, w)
  | ListEvents id k =>
      exec clock (k (InMemoryActiveOrderStore.listEvents id (activeStore w))) w
  | GetActiveOrder id k =>
      exec clock (k (InMemoryActiveOrderStore.getActiveOrder id (activeStore w))) w
  | NowMs k => let '(now, w1) := Op.nowMs clock w in exec clock (k now) w1
  | Do e k => exec clock k (applyEffect e w)
  end.

End WorkerSteps.

(** ** api/orders.ts: the submission path *)

Module OrdersApi.

(** A field of the request body as the validator looks at it. *)
Inductive JsValue : Type :=
  | JsUndefined
  | JsString (s : symbol)
  | JsNum (n : number)
  | JsOther.

Record RequestBody : Type := mkRequestBody {
  b_tokenIn : JsValue;
  b_tokenOut : JsValue;
  b_amount : JsValue;
  b_slippageBps : JsValue
}.

Record ExecuteOrderRequest : Type := mkExecuteOrderRequest {
  r_tokenIn : symbol;
  r_tokenOut : symbol;
  r_amount : number;
  r_slippageBps : number
}.

(** The code units [String.prototype.trim] removes. *)
Definition is_whitespace (c : N) : bool :=
  bool_decide (c ∈ [9; 10; 11; 12; 13; 32; 160; 5760; 8232; 8233; 8239;
                    8287; 12288; 65279]%N)
  || ((8192 <=? c)%N && (c <=? 8202)%N).

(** [typeof v === 'string' && v.trim().length > 0] *)
Definition isNonEmptyString (v : JsValue) : option symbol :=
  match v with
  | JsString s => if forallb is_whitespace s then None else Some s
  | _ => None
  end.

(** [typeof v === 'number' && Number.isFinite(v)] *)
Definition isFiniteNumber (v : JsValue) : option number :=
  match v with
  | JsNum n => if isFinite n then Some n else None
  | _ => None
  end.

(** [body] is [None] when the body is falsy or not an object. *)
Definition validateExecuteOrder (body : option RequestBody)
    : ExecuteOrderRequest + string :=
  match body with
  | None => inr "Body must be a JSON object"
  | Some b =>
      match isNonEmptyString (b_tokenIn b) with
      | None => inr "tokenIn is required"
      | Some tIn =>
      match isNonEmptyString (b_tokenOut b) with
      | None => inr "tokenOut is required"
      | Some tOut =>
      match isFiniteNumber (b_amount b) with
      | None => inr "amount must be a positive number"
      | Some amt =>
      if leb amt zero then inr "amount must be a positive number" else
      match isFiniteNumber (b_slippageBps b) with
      | None => inr "slippageBps must be between 0 and 10000"
      | Some bps =>
      if ltb bps zero || gtb bps c10000
      then inr "slippageBps must be between 0 and 10000"
      else inl (mkExecuteOrderRequest tIn tOut amt bps)
      end end end end
  end.

Definition emitPending (clock : nat -> Z) (id : string) (w : World) : World :=
  let '(now, w1) := Op.nowMs clock w in
  let event := mkOrderEvent id pending now NoDetail in
  Op.publish id event (Op.appendEvent id event w1).

Record Request : Type := mkRequest {
  body : option RequestBody;
  x_forwarded_host : option string;
  host : option string;
  x_forwarded_proto : option string
}.

(** [encodeURIComponent] is taken as given; it leaves the characters of
    a UUID as they are. *)
Definition computeWsUrl (encodeURIComponent : string -> string)
    (req : Request) (id : string) : string :=
  let h := default (default "localhost" (host req)) (x_forwarded_host req) in
  let proto := default "http" (x_forwarded_proto req) in
  let wsProto := if decide (proto = "https") then "wss" else "ws" in
  wsProto +:+ "://" +:+ h +:+ "/api/orders/execute?orderId="
    +:+ encodeURIComponent id.

(** How the handler ends: with one of its two replies, or by throwing
    what [insertOrder] was rejected with, which leaves the reply to the
    error handler of the framework. *)
Inductive Reply : Type :=
  | Reply200 (id : string) (wsUrl : string)
  | Reply400 (error : string)
  | HandlerThrows (err : PgDb.QueryError).

(** The POST handler; [uuid] is the value of [uuidv4()]. *)
Definition postExecute (clock : nat -> Z)
    (encodeURIComponent : string -> string) (uuid : string)
    (req : Request) (w : World) : Reply * World :=
  match validateExecuteOrder (body req) with
  | inr error => (Reply400 error, w)
  | inl value =>
      let id := uuid in
      let '(createdAtMs, w1) := Op.nowMs clock w in
      let order := mkOrder id (r_tokenIn value) (r_tokenOut value)
                     (r_amount value) (r_slippageBps value) createdAtMs in
      let w2 := Op.putActiveOrder order w1 in
      match Op.insertOrder order w2 with
      | (Some err, w3) => (HandlerThrows err, w3)
      | (None, w3) =>
          let w4 := Op.enqueue id w3 in
          let w5 := emitPending clock id w4 in
          let wsUrl := computeWsUrl encodeURIComponent req id in
          let w6 :=
            Op.info "order.submitted" [("orderId", id); ("wsUrl", wsUrl)] w5 in
          (Reply200 id wsUrl, w6)
      end
  end.

End OrdersApi.

(** ** ws/orderSocket.ts: the streaming gateway *)

Module OrderSocket.

Definition statusRank (s : OrderStatus) : Z :=
  match s with
  | pending => 1
  | routing => 2
  | building => 3
  | submitted => 4
  | confirmed => 5
  | failed => 6
  end.

(** [sortByLifecycle(a, b) <= 0] *)
Definition lifecycle_le (a b : OrderEvent) : bool :=
  (statusRank (status a) - statusRank (status b) <=? 0)%Z.

(** [Array.prototype.sort] with the comparator [sortByLifecycle]: a
    stable sort, written as an insertion sort. *)
Fixpoint insertByLifecycle (ev : OrderEvent) (l : list OrderEvent)
    : list OrderEvent :=
  match l with
  | [] => [ev]
  | x :: rest =>
      if lifecycle_le ev x then ev :: l else x :: insertByLifecycle ev rest
  end.

Fixpoint sortByLifecycle (l : list OrderEvent) : list OrderEvent :=
  match l with
  | [] => []
  | x :: rest => insertByLifecycle x (sortByLifecycle rest)
  end.

(** The state of one connection: the closure variables of the handler,
    the socket's ready state and the frames sent on it. *)
Record Conn : Type := mkConn {
  sent : list OrderStatus;
  backlogFlushed : bool;
  buffer : list OrderEvent;
  socketOpen : bool;
  frames : list OrderEvent
}.

Definition newConn : Conn := mkConn [] false [] true [].

(** [sent.add(ev.status); safeSend(socket, ev)] *)
Definition markAndSend (ev : OrderEvent) (c : Conn) : Conn :=
  mkConn (set_add (status ev) (sent c)) (backlogFlushed c) (buffer c)
    (socketOpen c)
    (if socketOpen c then frames c ++ [ev] else frames c).

(** The callback given to [eventBus.subscribe]. *)
Definition onEvent (ev : OrderEvent) (c : Conn) : Conn :=
  if bool_decide (status ev ∈ sent c) then c
  else if negb (backlogFlushed c) then
    mkConn (sent c) (backlogFlushed c) (buffer c ++ [ev]) (socketOpen c) (frames c)
  else markAndSend ev c.

(** [for (const ev of evs) { if (sent.has(ev.status)) continue; ... }] *)
Definition sendUnsent (evs : list OrderEvent) (c : Conn) : Conn :=
  foldl (λ c ev, if bool_decide (status ev ∈ sent c) then c else markAndSend ev c)
    c evs.

(** The handler from the moment the backlog read has returned: deliver
    the sorted backlog, mark it flushed, deliver the sorted buffer. *)
Definition deliverBacklog (backlog : list OrderEvent) (c : Conn) : Conn :=
  let c1 := sendUnsent (sortByLifecycle backlog) c in
  let c2 := mkConn (sent c1) true (sortByLifecycle (buffer c1)) (socketOpen c1)
              (frames c1) in
  sendUnsent (buffer c2) c2.

Definition closeSocket (c : Conn) : Conn :=
  mkConn (sent c) (backlogFlushed c) (buffer c) false (frames c).

End OrderSocket.

(** ** services/orderService.ts: the bus over Redis publish/subscribe *)

Module RedisPubSubEventBus.

(** The part of [RedisLike] the bus uses, for the publishing connection
    [pub] and its duplicate [sub]. The client library and the server are
    outside the repository; the channel is modelled as reliable and
    ordered, and as asynchronous as it is: when the server takes a
    publish on a channel the [sub] connection is subscribed to, the
    message is in flight to that connection ([inbox]), and it reaches
    the ['message'] listener at a later moment ([arrive]), the messages in
    the order of their publishes. [publish] resolves with the answer of
    the server on the [pub] connection, whether or not the message has
    arrived on [sub]. A connection that has been quit rejects every later
    command. *)
Record Redis (Message : Type) : Type := mkRedis {
  subscribed : list string;
  inbox : list (string * Message);
  subOpen : bool;
  pubOpen : bool
}.

Arguments mkRedis {Message} _ _ _ _.
Arguments subscribed {Message} _.
Arguments inbox {Message} _.
Arguments subOpen {Message} _.
Arguments pubOpen {Message} _.

Record t (Message : Type) : Type := mk {
  handlers : gmap string (list Handler);
  redis : Redis Message
}.

Arguments mk {Message} _ _.
Arguments handlers {Message} _.
Arguments redis {Message} _.

Definition empty {Message : Type} : t Message := mk ∅ (mkRedis [] [] true true).

Definition connectionClosed : Thrown := ErrorObj "Connection is closed.".

Definition channel (id : string) : string := "order-events:" +:+ id.



Section Wire.

(** The text on the wire and the two directions of its encoding,
    [JSON.stringify] and [JSON.parse]. *)
Context {Message : Type}.
Variable stringify : OrderEvent -> Message.
Variable parse : Message -> OrderEvent.


(** [await this.pub.publish(channel, JSON.stringify(event))]: the server
    takes the message and sends it on to the [sub] connection if that is
    subscribed to the channel. No callback has been called when the
    promise resolves. *)
Definition publish (id : string) (event : OrderEvent) (bus : t Message)
    : Outcome unit * t Message :=
  if pubOpen (redis bus) then
    (Resolved tt,
     if subOpen (redis bus)
        && bool_decide (channel id ∈ subscribed (redis bus))
     then
       mk (handlers bus)
         (mkRedis (subscribed (redis bus))
            (inbox (redis bus) ++ [(channel id, stringify event)])
            (subOpen (redis bus)) (pubOpen (redis bus)))
     else bus)
  else (Rejected connectionClosed, bus).


Definition subscribe (id : string) (onEvent : Handler) (bus : t Message)
    : Outcome unit * t Message :=
  let set := default [] (handlers bus !! id) in
  let wasEmpty := bool_decide (length set = 0) in
  let handlers1 := <[id := set_add onEvent set]> (handlers bus) in
  if wasEmpty then
    if subOpen (redis bus) then
      (Resolved tt,
       mk handlers1
         (mkRedis (set_add (channel id) (subscribed (redis bus)))
            (inbox (redis bus)) (subOpen (redis bus)) (pubOpen (redis bus))))
    else (Rejected connectionClosed, mk handlers1 (redis bus))
  else (Resolved tt, mk handlers1 (redis bus)).

(** The function returned by [subscribe id onEvent]. *)
Definition unsubscribe (id : string) (onEvent : Handler) (bus : t Message)
    : Outcome unit * t Message :=
  match handlers bus !! id with
  | None => (Resolved tt, bus)
  | Some cur =>
      let cur1 := set_delete onEvent cur in
      let handlers1 := <[id := cur1]> (handlers bus) in
      if bool_decide (length cur1 = 0) then
        if subOpen (redis bus) then
          (Resolved tt,
           mk handlers1
             (mkRedis (set_delete (channel id) (subscribed (redis bus)))
                (inbox (redis bus)) (subOpen (redis bus)) (pubOpen (redis bus))))
        else (Rejected connectionClosed, mk handlers1 (redis bus))
      else (Resolved tt, mk handlers1 (redis bus))
  end.

(** Both [quit] calls sit in a [try] that ignores what they throw. The
    callbacks are dropped first, so a message that arrives later calls
    none: what is in flight is left out. *)
Definition close (bus : t Message) : t Message :=
  mk ∅ (mkRedis [] [] false false).

End Wire.

End RedisPubSubEventBus.

(** ** Runs of bus operations, for comparing the two buses *)

Module BusRun.

Inductive BusOp : Type :=
  | OpSubscribe (id : string) (onEvent : Handler)
  | OpPublish (id : string) (event : OrderEvent)
  | OpUnsubscribe (id : string) (onEvent : Handler)
  | OpClose.

(** One operation on the process-local bus: the new bus and the calls
    made to callbacks. *)
Definition stepInMemory (op : BusOp) (bus : InMemoryEventBus.t)
    : InMemoryEventBus.t * list (Handler * OrderEvent) :=
  match op with
  | OpSubscribe id h => (InMemoryEventBus.subscribe id h bus, [])
  | OpPublish id ev => (bus, InMemoryEventBus.publish id ev bus)
  | OpUnsubscribe id h => (InMemoryEventBus.unsubscribe id h bus, [])
  | OpClose => (InMemoryEventBus.close bus, [])
  end.




Section Wire.

Context {Message : Type}.
Variable stringify : OrderEvent -> Message.
Variable parse : Message -> OrderEvent.






End Wire.




End BusRun.

(** ** One order, its worker and one streaming connection, run together *)

Module Lifecycle.

(** The steps that touch the store, the bus or the connection. *)
Inductive Action : Type :=
  | Append (id : string) (ev : OrderEvent)
  | Publish (id : string) (ev : OrderEvent)
  | Subscribe
  | ReadBacklog
  | DeliverBacklog.

(** The store and bus writes of an effect trace. *)
Definition actionsOf (tr : list Effect) : list Action :=
  omap (λ e, match e with
             | StoreAppend id ev => Some (Append id ev)
             | BusPublish id ev => Some (Publish id ev)
             | _ => None
             end) tr.

(** [appendEvent] then [publish], event after event. *)
Definition emitActions (id : string) (evs : list OrderEvent) : list Action :=
  flat_map (λ ev, [Append id ev; Publish id ev]) evs.

(** [backlog] is the result of [listEvents] once the read has returned;
    [closeListener] tells whether the ['close'] listener is registered. *)
Record Sys : Type := mkSys {
  store : InMemoryActiveOrderStore.t;
  bus : InMemoryEventBus.t;
  conn : OrderSocket.Conn;
  backlog : option (list OrderEvent);
  closeListener : bool
}.

Section Connection.

(** The order the connection asks for and the identity of its
    callback. *)
Variable id : string.
Variable h : Handler.

(** The calls of a publish that go to this connection's callback. *)
Definition dispatch (calls : list (Handler * OrderEvent))
    (c : OrderSocket.Conn) : OrderSocket.Conn :=
  foldl (λ c call, if decide (call.1 = h) then OrderSocket.onEvent call.2 c else c)
    c calls.

Definition perform (a : Action) (s : Sys) : Sys :=
  match a with
  | Append id' ev =>
      mkSys (InMemoryActiveOrderStore.appendEvent id' ev (store s)) (bus s)
        (conn s) (backlog s) (closeListener s)
  | Publish id' ev =>
      mkSys (store s) (bus s)
        (dispatch (InMemoryEventBus.publish id' ev (bus s)) (conn s))
        (backlog s) (closeListener s)
  | Subscribe =>
      mkSys (store s) (InMemoryEventBus.subscribe id h (bus s)) (conn s)
        (backlog s) (closeListener s)
  | ReadBacklog =>
      mkSys (store s) (bus s) (conn s)
        (Some (InMemoryActiveOrderStore.listEvents id (store s)))
        (closeListener s)
  | DeliverBacklog =>
      match backlog s with
      | Some b =>
          mkSys (store s) (bus s) (OrderSocket.deliverBacklog b (conn s))
            (backlog s) true
      | None => s
      end
  end.

(** The socket leaves the open state; the ['close'] listener, if it is
    registered by then, unsubscribes. *)
Definition socketCloses (s : Sys) : Sys :=
  mkSys (store s)
    (if closeListener s then InMemoryEventBus.unsubscribe id h (bus s) else bus s)
    (OrderSocket.closeSocket (conn s)) (backlog s) (closeListener s).

(** The number of steps the client has taken, the number of appends and
    publishes the job has made, and the state. *)
Record Config : Type := mkConfig {
  clientDone : nat;
  workerDone : nat;
  sys : Sys
}.

(** A run: how far the client has come, what is left of the job and how
    often it has read the clock, and the state. *)
Record State : Type := mkState {
  atClient : nat;
  job : WorkerSteps.Prog;
  readings : nat;
  shared : Sys
}.

(** The next operation of the job, when it is not finished: a read sees
    the store as it is at that moment, an append or a publish acts on the
    store or the bus, anything else leaves both alone. *)
Definition jobNext (clock : nat -> Z) (q : WorkerSteps.Prog) (t : nat) (s : Sys)
    : option (WorkerSteps.Prog * nat * Sys) :=
  match q with
  | WorkerSteps.Done | WorkerSteps.Throw _ => None
  | WorkerSteps.ListEvents id' k =>
      Some (k (InMemoryActiveOrderStore.listEvents id' (store s)), t, s)
  | WorkerSteps.GetActiveOrder id' k =>
      Some (k (InMemoryActiveOrderStore.getActiveOrder id' (store s)), t, s)
  | WorkerSteps.NowMs k => Some (k (clock t), S t, s)
  | WorkerSteps.Do e k =>
      Some (k, t,
            match e with
            | StoreAppend id' ev => perform (Append id' ev) s
            | BusPublish id' ev => perform (Publish id' ev) s
            | _ => s
            end)
  end.

Section Threads.

Variable clock : nat -> Z.
Variable client : list Action.

(** The client or the job takes its next step, or the socket closes. *)
Inductive step : State -> State -> Prop :=
  | step_client st a :
      client !! atClient st = Some a ->
      step st (mkState (S (atClient st)) (job st) (readings st)
                 (perform a (shared st)))
  | step_job st q t s :
      jobNext clock (job st) (readings st) (shared st) = Some (q, t, s) ->
      step st (mkState (atClient st) q t s)
  | step_close st :
      step st (mkState (atClient st) (job st) (readings st)
                 (socketCloses (shared st))).

(** A schedule names, step after step, who moves; running it is one way
    to take steps. A thread that has finished stays where it is. *)
Inductive Move : Type := ClientMoves | JobMoves | SocketCloses.

Definition move (m : Move) (st : State) : State :=
  match m with
  | ClientMoves =>
      match client !! atClient st with
      | Some a =>
          mkState (S (atClient st)) (job st) (readings st) (perform a (shared st))
      | None => st
      end
  | JobMoves =>
      match jobNext clock (job st) (readings st) (shared st) with
      | Some (q, t, s) => mkState (atClient st) q t s
      | None => st
      end
  | SocketCloses =>
      mkState (atClient st) (job st) (readings st) (socketCloses (shared st))
  end.

Definition runSchedule (schedule : list Move) (st : State) : State :=
  foldl (λ st m, move m st) st schedule.

End Threads.

End Connection.

(** The state in which nothing has happened yet: the order is stored and
    its job handed over, as world [w] has it; the job is still to start. *)
Definition initial (routerAt : Z -> Router) (id : string) (w : World) : State :=
  mkState 0 (WorkerSteps.executeOrderJob routerAt id) (ticks w)
    (mkSys (activeStore w) (eventBus w) OrderSocket.newConn None false).

(** The steps of the submission path from the emission of the [pending]
    event [p] on, followed by those of a connection. *)
Definition submitAndConnect (id : string) (p : OrderEvent) : list Action :=
  [Append id p; Publish id p; Subscribe; ReadBacklog; DeliverBacklog].

(** The submission path emits [pending] and answers; the client then
    opens the connection with the identifier from the answer. *)
Definition clientThread (clock : nat -> Z) (id : string) (w : World)
    : list Action :=
  actionsOf (drop (length (trace w)) (trace (OrdersApi.emitPending clock id w)))
  ++ [Subscribe; ReadBacklog; DeliverBacklog].

(** The sequences of statuses a connection may have been sent in full. *)
Definition canonicalSequences : list (list OrderStatus) :=
  [ [pending; routing; building; submitted; confirmed];
    [pending; routing; failed];
    [pending; routing; building; submitted; failed] ].

Definition lifecyclePrefix (l : list OrderStatus) : Prop :=
  ∃ full, full ∈ canonicalSequences ∧ l `prefix_of` full.

End Lifecycle.

(** ** Orderings and relations stated by the properties *)

Module Stated.




(** Events in strictly increasing lifecycle rank, and the weak order the
    sort leaves them in. *)
Definition rankLt (x y : OrderEvent) : Prop :=
  (OrderSocket.statusRank (status x) < OrderSocket.statusRank (status y))%Z.

Definition rankLe (x y : OrderEvent) : Prop :=
  (OrderSocket.statusRank (status x) <= OrderSocket.statusRank (status y))%Z.

Definition ascending (evs : list OrderEvent) : Prop := StronglySorted rankLt evs.

Section Invariant.

(** The connection's order and callback, the [pending] event and the
    events [evs] the worker emits. *)
Variable id : string.
Variable h : Handler.
Variable p : OrderEvent.
Variable evs : list OrderEvent.

(** The occurrences of the connection's callback among the subscribers of
    the order. *)
Definition mine (b : InMemoryEventBus.t) : list Handler :=
  filter (λ x, x = h) (default [] (InMemoryEventBus.handlers b !! id)).

(** Of the worker's events, how many are appended and how many published
    after [n] of its steps. *)
Definition appended (n : nat) : nat := Nat.div2 (S n).
Definition published (n : nat) : nat := Nat.div2 n.

(** Nothing is sent and the backlog is not flushed yet. *)
Definition idle (cn : OrderSocket.Conn) (listener : bool) : Prop :=
  listener = false
  ∧ OrderSocket.sent cn = []
  ∧ OrderSocket.frames cn = []
  ∧ OrderSocket.backlogFlushed cn = false.

(** The buffer holds the worker's events published since the
    subscription, which was made when [i] of the [b] published by now
    were. *)
Definition buffering (i b : nat) (bs : InMemoryEventBus.t)
    (cn : OrderSocket.Conn) (listener : bool) : Prop :=
  mine bs = [h]
  ∧ idle cn listener
  ∧ i <= b
  ∧ OrderSocket.buffer cn = drop i (take b evs).

(** The connection has marked as sent [pending] and the first [m] events
    of the worker, and its frames are those events, or the ones sent
    before the socket closed. *)
Definition streaming (m b : nat) (bs : InMemoryEventBus.t)
    (cn : OrderSocket.Conn) : Prop :=
  OrderSocket.backlogFlushed cn = true
  ∧ OrderSocket.sent cn = map status (p :: take m evs)
  ∧ (mine bs = [h] -> b <= m)
  ∧ OrderSocket.frames cn `prefix_of` p :: take m evs
  ∧ (OrderSocket.socketOpen cn = true -> OrderSocket.frames cn = p :: take m evs)
  ∧ m <= length evs.

(** What holds of the connection after [n] steps of the client, when [b]
    events of the worker are published. *)
Definition phase (n b : nat) (bs : InMemoryEventBus.t) (cn : OrderSocket.Conn)
    (bl : option (list OrderEvent)) (listener : bool) : Prop :=
  match n with
  | 0 | 1 | 2 => mine bs = [] ∧ idle cn listener ∧ OrderSocket.buffer cn = []
  | 3 => ∃ i, buffering i b bs cn listener
  | 4 =>
      ∃ i k lg,
        buffering i b bs cn listener
        ∧ bl = Some lg
        ∧ lg ≡ₚ p :: take k evs
        ∧ i <= k
        ∧ k <= length evs
  | _ => ∃ m, streaming m b bs cn
  end.

Definition invariant (c : Lifecycle.Config) : Prop :=
  let s := Lifecycle.sys c in
  InMemoryActiveOrderStore.listEvents id (Lifecycle.store s)
    ≡ₚ (if decide (1 <= Lifecycle.clientDone c) then [p] else [])
       ++ take (appended (Lifecycle.workerDone c)) evs
  ∧ appended (Lifecycle.workerDone c) <= length evs
  ∧ (mine (Lifecycle.bus s) = [] ∨ mine (Lifecycle.bus s) = [h])
  ∧ phase (Lifecycle.clientDone c) (published (Lifecycle.workerDone c))
      (Lifecycle.bus s) (Lifecycle.conn s) (Lifecycle.backlog s)
      (Lifecycle.closeListener s).

End Invariant.

Section Job.

(** The order of the job and of the connection, the connection's
    callback and the [pending] event of the submission path. *)
Variable order : Order.
Variable h : Handler.
Variable p : OrderEvent.

(** A read of the log that returned [events] has seen, [pending] apart,
    exactly the statuses [emitted] by the job so far. *)
Definition records (events : list OrderEvent) (emitted : list OrderStatus)
    : Prop :=
  ∀ s, s ≠ pending -> s ∈ map status events ↔ s ∈ emitted.

(** After [pending] and the statuses [emitted], status [s] continues a
    lifecycle. *)
Definition mayFollow (emitted : list OrderStatus) (s : OrderStatus) : Prop :=
  Lifecycle.lifecyclePrefix (pending :: emitted ++ [s]).

(** When the job has emitted [emitted] and [q] is what is left of it, then
    whatever its reads of the log return among the logs that record
    [emitted], and whatever the clock says: it reads and writes for its
    own order only, finds the order stored, appends only events that
    continue the lifecycle, publishes every event right after appending
    it ([awaited] is the event appended and not yet published), puts no
    order into the store, and ends in [post]. *)
Fixpoint safe (awaited : option OrderEvent) (q : WorkerSteps.Prog)
    (emitted : list OrderStatus)
    (post : Outcome unit -> list OrderStatus -> Prop) : Prop :=
  match q with
  | WorkerSteps.Done => awaited = None ∧ post (Resolved tt) emitted
  | WorkerSteps.Throw err => awaited = None ∧ post (Rejected err) emitted
  | WorkerSteps.ListEvents id' k =>
      awaited = None ∧ id' = orderId order
      ∧ ∀ events, records events emitted -> safe None (k events) emitted post
  | WorkerSteps.GetActiveOrder id' k =>
      awaited = None ∧ id' = orderId order ∧ safe None (k (Some order)) emitted post
  | WorkerSteps.NowMs k => awaited = None ∧ ∀ now, safe None (k now) emitted post
  | WorkerSteps.Do (StoreAppend id' e) k =>
      awaited = None ∧ id' = orderId order ∧ mayFollow emitted (status e)
      ∧ safe (Some e) k (emitted ++ [status e]) post
  | WorkerSteps.Do (BusPublish id' e) k =>
      awaited = Some e ∧ id' = orderId order ∧ safe None k emitted post
  | WorkerSteps.Do (StorePut _) _ => False
  | WorkerSteps.Do _ k => awaited = None ∧ safe None k emitted post
  end.

(** How an attempt, and the attempts of a job together, may end: if by
    throwing, then after [routing] or after [submitted]. *)
Definition rejectedAfter (r : Outcome unit) (emitted : list OrderStatus) : Prop :=
  match r with
  | Resolved _ => True
  | Rejected _ => emitted = [routing] ∨ emitted = [routing; building; submitted]
  end.

(** What holds at every moment of a run: the job has emitted events [evs]
    that continue the lifecycle after [pending], the last of which may
    still await its publication; the store, the bus and the connection
    are as [invariant] says for these events; the order is stored; and
    what is left of the job is [safe]. *)
Definition jobInvariant (st : Lifecycle.State) : Prop :=
  ∃ (evs : list OrderEvent) (awaited : option OrderEvent),
    invariant (orderId order) h p evs
      (Lifecycle.mkConfig (Lifecycle.atClient st)
         (2 * length evs - match awaited with Some _ => 1 | None => 0 end)
         (Lifecycle.shared st))
    ∧ Lifecycle.lifecyclePrefix (map status (p :: evs))
    ∧ InMemoryActiveOrderStore.getActiveOrder (orderId order)
        (Lifecycle.store (Lifecycle.shared st)) = Some order
    ∧ safe awaited (Lifecycle.job st) (map status evs) (λ _ _, True)
    ∧ match awaited with Some e => last evs = Some e | None => True end.

End Job.

End Stated.

(** ** Sample data, after the fixtures of the repository's tests *)

Module Samples.

(** "SOL" and "USDC" *)
Definition SOL : symbol := [83; 79; 76]%N.
Definition USDC : symbol := [85; 83; 68; 67]%N.

Definition order1 : Order :=
  mkOrder "order-1" SOL USDC (of_Z 100) (of_Z 50) 1.

(** A draw in [0, 1), about 0.57996, for which meteora's effective price
    for [order1] equals raydium's at the draw 0.5. *)
Definition tieDraw : number := S754_finite false 5223814557759620 (-53).

Definition clock0 : nat -> Z := λ n, Z.of_nat n.

(** A router that always fails, and one that always succeeds. *)
Definition failingRouter : Router :=
  mkRouter (λ _, Rejected (ErrorObj "routing failed"))
           (λ _ _ _, Rejected (ErrorObj "swap failed")).

Definition quote1 : DexQuote := mkDexQuote raydium one c0_003 one.

Definition workingRouter : Router :=
  mkRouter (λ _, Resolved (mkRoutingDecision quote1 quote1 quote1))
           (λ d _ p, Resolved (mkSwapExecutionResult d p "mocktx_1")).

Definition event (id : string) (s : OrderStatus) (ts : Z) : OrderEvent :=
  mkOrderEvent id s ts NoDetail.

(** A world in which [order1] is active and its log is
    [pending, routing], as a failed first attempt leaves it. *)
Definition worldAfterRouting : World :=
  Op.appendEvent "order-1" (event "order-1" routing 2)
    (Op.appendEvent "order-1" (event "order-1" pending 1)
       (Op.insertOrder order1 (Op.putActiveOrder order1 emptyWorld)).2).

(** The same with [failed] recorded last. *)
Definition worldAfterFailure : World :=
  Op.appendEvent "order-1"
    (mkOrderEvent "order-1" failed 3 (FailedDetail "routing failed"))
    worldAfterRouting.



(** [order1] submitted: active, inserted, [pending] emitted. *)
Definition worldPending : World :=
  OrdersApi.emitPending clock0 "order-1"
    (Op.insertOrder order1 (Op.putActiveOrder order1 emptyWorld)).2.




(** [order1] stored, inserted and handed to the queue; [pending] is
    not emitted yet. *)
Definition worldEnqueued : World :=
  Op.enqueue "order-1" (Op.insertOrder order1 (Op.putActiveOrder order1 emptyWorld)).2.

(** The table with the row of [order1] as it was inserted. *)
Definition tableWithOrder1 : PgDb.t := db worldEnqueued.

(** A run in which the job is ahead of the submission path: it emits
    [routing] before [pending] is emitted; the connection reads its
    backlog between the append and the publish of [building] and
    delivers it after [submitted] is published; the socket closes at the
    end. *)
Definition raceSchedule : list Lifecycle.Move :=
  replicate 5 Lifecycle.JobMoves
  ++ replicate 3 Lifecycle.ClientMoves
  ++ replicate 2 Lifecycle.JobMoves
  ++ [Lifecycle.ClientMoves]
  ++ replicate 5 Lifecycle.JobMoves
  ++ [Lifecycle.ClientMoves]
  ++ replicate 5 Lifecycle.JobMoves
  ++ [Lifecycle.SocketCloses].

Definition raceRun : Lifecycle.State :=
  Lifecycle.runSchedule "order-1" 7 clock0
    (Lifecycle.clientThread clock0 "order-1" worldEnqueued)
    raceSchedule (Lifecycle.initial (λ _, workingRouter) "order-1" worldEnqueued).

(** 50.5, which the validator takes for a [slippageBps]. *)
Definition c50_5 : number := S754_finite false 7107243161944064 (-47).



End Samples.

Import Samples.

(** ** The statuses an attempt and a job add to a log *)

Module StatusModel.

(** What the router does to an attempt. *)
Inductive AttemptKind : Type :=
  | RouteRejects (err : Thrown)
  | SwapRejects (err : Thrown)
  | Completes.

Definition attemptKind (r : Router) (order : Order) : AttemptKind :=
  match route r order with
  | Rejected err => RouteRejects err
  | Resolved d =>
      match executeSwap r (dex (chosen d)) order (price (chosen d)) with
      | Rejected err => SwapRejects err
      | Resolved _ => Completes
      end
  end.

(** The log ends in [confirmed] or [failed]. *)
Definition terminal (l : list OrderStatus) : bool :=
  bool_decide (last l = Some confirmed) || bool_decide (last l = Some failed).

Definition unless (l : list OrderStatus) (s : OrderStatus) : list OrderStatus :=
  if bool_decide (s ∈ l) then [] else [s].

(** The statuses one attempt adds to a log with statuses [l]. *)
Definition onceStatuses (l : list OrderStatus) (k : AttemptKind)
    : list OrderStatus :=
  if terminal l then []
  else
    unless l routing ++
    match k with
    | RouteRejects _ => []
    | SwapRejects _ => unless l building ++ unless l submitted
    | Completes => unless l building ++ unless l submitted ++ unless l confirmed
    end.

Definition onceOutcome (l : list OrderStatus) (k : AttemptKind) : Outcome unit :=
  if terminal l then Resolved tt
  else match k with
       | RouteRejects err | SwapRejects err => Rejected err
       | Completes => Resolved tt
       end.

Definition rejected {A} (o : Outcome A) : bool :=
  match o with Rejected _ => true | Resolved _ => false end.

(** The statuses the retry loop of three attempts adds to a log with
    statuses [l], and how the loop ends. *)
Definition retryStatuses (l : list OrderStatus) (k1 k2 k3 : AttemptKind)
    : list OrderStatus :=
  let e1 := onceStatuses l k1 in
  if rejected (onceOutcome l k1) then
    let e2 := onceStatuses (l ++ e1) k2 in
    if rejected (onceOutcome (l ++ e1) k2) then
      e1 ++ e2 ++ onceStatuses (l ++ e1 ++ e2) k3
    else e1 ++ e2
  else e1.

Definition retryOutcome (l : list OrderStatus) (k1 k2 k3 : AttemptKind)
    : Outcome unit :=
  let e1 := onceStatuses l k1 in
  if rejected (onceOutcome l k1) then
    let e2 := onceStatuses (l ++ e1) k2 in
    if rejected (onceOutcome (l ++ e1) k2) then
      onceOutcome (l ++ e1 ++ e2) k3
    else Resolved tt
  else Resolved tt.

(** The statuses a job adds to a log with statuses [l]. *)
Definition jobStatuses (l : list OrderStatus) (k1 k2 k3 : AttemptKind)
    : list OrderStatus :=
  let e := retryStatuses l k1 k2 k3 in
  if rejected (retryOutcome l k1 k2 k3) then e ++ unless (l ++ e) failed else e.

(** From world [w] to world [w'] the events [evs] were emitted for order
    [id], each appended to the store and then published, and nothing else
    was written to the store or the bus. *)
Definition Emits (id : string) (w w' : World) (evs : list OrderEvent) : Prop :=
  ∃ tr,
    trace w' = trace w ++ tr
    ∧ Lifecycle.actionsOf tr = Lifecycle.emitActions id evs
    ∧ InMemoryActiveOrderStore.listEvents id (activeStore w')
      = InMemoryActiveOrderStore.listEvents id (activeStore w) ++ evs
    ∧ InMemoryActiveOrderStore.orders (activeStore w')
      = InMemoryActiveOrderStore.orders (activeStore w)
    ∧ eventBus w' = eventBus w.

End StatusModel.

(** ** services/orderService.ts: the socket mapping kept in memory *)

Module InMemorySocketMappingStore.

(** Per order, the set of connection identifiers. *)
Record t : Type := mk {
  m : gmap string (list string)
}.

Definition empty : t := mk ∅.

(** The time-to-live argument is ignored by this store. *)
Definition add (id connectionId : string) (st : t) : t :=
  let set := default [] (m st !! id) in
  mk (<[id := set_add connectionId set]> (m st)).

Definition remove (id connectionId : string) (st : t) : t :=
  match m st !! id with
  | None => st
  | Some set => mk (<[id := set_delete connectionId set]> (m st))
  end.

Definition list (id : string) (st : t) : list string :=
  default [] (m st !! id).

End InMemorySocketMappingStore.

(** ** services/orderService.ts: the names of the Redis keys *)

Module RedisKeys.

Definition orderActiveKey (id : string) : string := "active:order:" +:+ id.

Definition orderEventsKey (id : string) : string :=
  "active:order:" +:+ id +:+ ":events".

Definition orderSocketsKey (id : string) : string :=
  "active:order:" +:+ id +:+ ":sockets".

(** No code unit of [s] is a colon. *)
Fixpoint colonFree (s : string) : bool :=
  match s with
  | EmptyString => true
  | String c rest => negb (Ascii.eqb c ":"%char) && colonFree rest
  end.

End RedisKeys.

(** ** services/orderService.ts: the active-order store over Redis *)

Module RedisActiveOrderStore.

(** The part of a Redis server the store uses: a string or a list of
    strings under a key. A command sent to a key that holds the other
    kind of value is refused. Expiry is left out: [expire] does nothing
    that can be seen before the time-to-live has passed, and what is
    stated of this store is stated of that time. *)
Inductive Value : Type :=
  | VString (s : string)
  | VList (items : list string).

Abbreviation Keyspace := (gmap string Value).

Definition wrongType : Thrown :=
  ErrorObj "WRONGTYPE Operation against a key holding the wrong kind of value".

Definition get (key : string) (ks : Keyspace) : Outcome (option string) :=
  match ks !! key with
  | None => Resolved None
  | Some (VString s) => Resolved (Some s)
  | Some (VList _) => Rejected wrongType
  end.

Definition set (key value : string) (ks : Keyspace) : Keyspace :=
  <[key := VString value]> ks.

Definition expire (key : string) (ks : Keyspace) : Keyspace := ks.

Definition del (keys : list string) (ks : Keyspace) : Keyspace :=
  foldr delete ks keys.

Definition rpush (key value : string) (ks : Keyspace) : Outcome unit * Keyspace :=
  match ks !! key with
  | None => (Resolved tt, <[key := VList [value]]> ks)
  | Some (VList items) => (Resolved tt, <[key := VList (items ++ [value])]> ks)
  | Some (VString _) => (Rejected wrongType, ks)
  end.

(** [lrange(key, 0, -1)] *)
Definition lrange (key : string) (ks : Keyspace) : Outcome (list string) :=
  match ks !! key with
  | None => Resolved []
  | Some (VList items) => Resolved items
  | Some (VString _) => Rejected wrongType
  end.

Section Json.

(** [JSON.stringify] and [JSON.parse] on orders and on events. *)
Variable stringifyOrder : Order -> string.
Variable parseOrder : string -> Order.
Variable stringifyEvent : OrderEvent -> string.
Variable parseEvent : string -> OrderEvent.

Definition putActiveOrder (order : Order) (ks : Keyspace) : Outcome unit * Keyspace :=
  let key := RedisKeys.orderActiveKey (orderId order) in
  (Resolved tt, expire key (set key (stringifyOrder order) ks)).

(** [if (!raw) return null]: no value and the empty string both read as
    no order. *)
Definition getActiveOrder (id : string) (ks : Keyspace) : Outcome (option Order) :=
  match get (RedisKeys.orderActiveKey id) ks with
  | Rejected err => Rejected err
  | Resolved None => Resolved None
  | Resolved (Some raw) =>
      if decide (raw = "") then Resolved None else Resolved (Some (parseOrder raw))
  end.

Definition appendEvent (id : string) (event : OrderEvent) (ks : Keyspace)
    : Outcome unit * Keyspace :=
  let key := RedisKeys.orderEventsKey id in
  match rpush key (stringifyEvent event) ks with
  | (Rejected err, ks1) => (Rejected err, ks1)
  | (Resolved _, ks1) => (Resolved tt, expire key ks1)
  end.

Definition listEvents (id : string) (ks : Keyspace) : Outcome (list OrderEvent) :=
  match lrange (RedisKeys.orderEventsKey id) ks with
  | Rejected err => Rejected err
  | Resolved items => Resolved (map parseEvent items)
  end.

Definition clear (id : string) (ks : Keyspace) : Keyspace :=
  del [ RedisKeys.orderActiveKey id; RedisKeys.orderEventsKey id;
        RedisKeys.orderSocketsKey id ] ks.

End Json.

End RedisActiveOrderStore.

(** ** Runs of operations on one store, one bus or one connection *)

Module Runs.

(** Appends to the active-order store, one after the other. *)
Definition appendAll (apps : list (string * OrderEvent))
    (st : InMemoryActiveOrderStore.t) : InMemoryActiveOrderStore.t :=
  foldl (λ st a, InMemoryActiveOrderStore.appendEvent a.1 a.2 st) st apps.

Inductive MappingOp : Type :=
  | MapAdd (id connectionId : string)
  | MapRemove (id connectionId : string).

Definition stepMapping (op : MappingOp) (st : InMemorySocketMappingStore.t)
    : InMemorySocketMappingStore.t :=
  match op with
  | MapAdd id c => InMemorySocketMappingStore.add id c st
  | MapRemove id c => InMemorySocketMappingStore.remove id c st
  end.

Definition runMapping (ops : list MappingOp) (st : InMemorySocketMappingStore.t)
    : InMemorySocketMappingStore.t :=
  foldl (λ st op, stepMapping op st) st ops.

(** The last operation of [ops] on connection [c] of order [id], if there
    is one, is an [add]. *)
Definition mapped (id c : string) (ops : list MappingOp) : bool :=
  foldl (λ b op,
           match op with
           | MapAdd i x => if decide (i = id ∧ x = c) then true else b
           | MapRemove i x => if decide (i = id ∧ x = c) then false else b
           end) false ops.

(** The process-local bus after the operations [ops]. *)
Definition busAfter (ops : list BusRun.BusOp) (bus : InMemoryEventBus.t)
    : InMemoryEventBus.t :=
  foldl (λ b op, (BusRun.stepInMemory op b).1) bus ops.

(** The last of the operations of [ops] that subscribe or unsubscribe
    callback [h] for order [id] or close the bus, if there is one, is a
    subscription. *)
Definition subscribed (id : string) (h : Handler) (ops : list BusRun.BusOp)
    : bool :=
  foldl (λ b op,
           match op with
           | BusRun.OpSubscribe i x => if decide (i = id ∧ x = h) then true else b
           | BusRun.OpUnsubscribe i x => if decide (i = id ∧ x = h) then false else b
           | BusRun.OpClose => false
           | BusRun.OpPublish _ _ => b
           end) false ops.

(** What happens to a connection: the bus calls its callback, the handler
    delivers a backlog, the socket closes. *)
Inductive ConnOp : Type :=
  | Arrives (ev : OrderEvent)
  | Delivers (backlog : list OrderEvent)
  | Closes.

Definition stepConn (op : ConnOp) (c : OrderSocket.Conn) : OrderSocket.Conn :=
  match op with
  | Arrives ev => OrderSocket.onEvent ev c
  | Delivers backlog => OrderSocket.deliverBacklog backlog c
  | Closes => OrderSocket.closeSocket c
  end.

Definition runConn (ops : list ConnOp) (c : OrderSocket.Conn) : OrderSocket.Conn :=
  foldl (λ c op, stepConn op c) c ops.

(** No status has two entries in [sent], no two frames have the same
    status, and the status of every frame is in [sent]. *)
Definition sentOnce (c : OrderSocket.Conn) : Prop :=
  NoDup (OrderSocket.sent c)
  ∧ NoDup (map status (OrderSocket.frames c))
  ∧ ∀ s, s ∈ map status (OrderSocket.frames c) -> s ∈ OrderSocket.sent c.

(** The events that occur in [ops], as arrivals or in a backlog. *)
Definition eventsOf (ops : list ConnOp) : list OrderEvent :=
  flat_map (λ op, match op with
                  | Arrives ev => [ev]
                  | Delivers backlog => backlog
                  | Closes => []
                  end) ops.

(** Operations on an active-order store, run on the store in memory and
    on the store over Redis; a caller of the latter that sees an
    operation refused goes on with the next one. *)
Inductive StoreOp : Type :=
  | StorePutOp (order : Order)
  | StoreAppendOp (id : string) (event : OrderEvent)
  | StoreClearOp (id : string).

Definition storeOpId (op : StoreOp) : string :=
  match op with
  | StorePutOp order => orderId order
  | StoreAppendOp id _ => id
  | StoreClearOp id => id
  end.

Definition stepStore (op : StoreOp) (st : InMemoryActiveOrderStore.t)
    : InMemoryActiveOrderStore.t :=
  match op with
  | StorePutOp order => InMemoryActiveOrderStore.putActiveOrder order st
  | StoreAppendOp id event => InMemoryActiveOrderStore.appendEvent id event st
  | StoreClearOp id => InMemoryActiveOrderStore.clear id st
  end.

Definition runStore (ops : list StoreOp) (st : InMemoryActiveOrderStore.t)
    : InMemoryActiveOrderStore.t :=
  foldl (λ st op, stepStore op st) st ops.

Section Json.

Variable stringifyOrder : Order -> string.
Variable parseOrder : string -> Order.
Variable stringifyEvent : OrderEvent -> string.
Variable parseEvent : string -> OrderEvent.

Definition stepRedisStore (op : StoreOp) (ks : RedisActiveOrderStore.Keyspace)
    : Outcome unit * RedisActiveOrderStore.Keyspace :=
  match op with
  | StorePutOp order => RedisActiveOrderStore.putActiveOrder stringifyOrder order ks
  | StoreAppendOp id event => RedisActiveOrderStore.appendEvent stringifyEvent id event ks
  | StoreClearOp id => (Resolved tt, RedisActiveOrderStore.clear id ks)
  end.

(** The keyspace after the operations, and whether one was refused. *)
Definition runRedisStore (ops : list StoreOp) (ks : RedisActiveOrderStore.Keyspace)
    : bool * RedisActiveOrderStore.Keyspace :=
  foldl (λ acc op,
           let '(o, ks1) := stepRedisStore op acc.2 in
           (acc.1 || match o with Rejected _ => true | Resolved _ => false end, ks1))
    (false, ks) ops.

(** The JSON text of the order is not empty and parses back to the
    order; the JSON text of the event parses back to the event. *)
Definition orderParses (o : Order) : Prop :=
  parseOrder (stringifyOrder o) = o ∧ stringifyOrder o ≠ "".

Definition eventParses (ev : OrderEvent) : Prop :=
  parseEvent (stringifyEvent ev) = ev.

(** The operation is on an identifier without a colon, and what it
    writes parses back. *)
Definition plainOp (op : StoreOp) : Prop :=
  RedisKeys.colonFree (storeOpId op) = true
  ∧ match op with
    | StorePutOp order => orderParses order
    | StoreAppendOp _ event => eventParses event
    | StoreClearOp _ => True
    end.

(** The keyspace holds, for every identifier without a colon, the order
    and the log the store in memory holds, in their JSON text, and these
    parse back. *)
Definition storesAgree (st : InMemoryActiveOrderStore.t)
    (ks : RedisActiveOrderStore.Keyspace) : Prop :=
  ∀ id, RedisKeys.colonFree id = true ->
    ks !! RedisKeys.orderActiveKey id
    = (λ o, RedisActiveOrderStore.VString (stringifyOrder o))
        <$> InMemoryActiveOrderStore.orders st !! id
    ∧ (∀ o, InMemoryActiveOrderStore.orders st !! id = Some o -> orderParses o)
    ∧ match ks !! RedisKeys.orderEventsKey id with
      | None => InMemoryActiveOrderStore.listEvents id st = []
      | Some (RedisActiveOrderStore.VList items) =>
          items = map stringifyEvent (InMemoryActiveOrderStore.listEvents id st)
      | Some (RedisActiveOrderStore.VString _) => False
      end
    ∧ Forall eventParses (InMemoryActiveOrderStore.listEvents id st).

End Json.


End Runs.

(** ** client/simulate.ts: the check the client makes of a lifecycle *)

Module Simulate.

(** The loop of [requiredOrder] from index [i] on; [statuses[i]] is
    [undefined] beyond the end of the array, and then differs from every
    status. *)
Fixpoint requiredFrom (required : list OrderStatus) (i : nat)
    (statuses : list OrderStatus) : bool :=
  match required with
  | [] => true
  | r :: rest =>
      if bool_decide (statuses !! i = Some r) then requiredFrom rest (S i) statuses
      else false
  end.

Definition requiredOrder (statuses : list OrderStatus) : bool :=
  requiredFrom [pending; routing; building; submitted] 0 statuses.

End Simulate.

(** ** The whole lifecycle on a connection that stays open *)

Module Whole.

(** How an attempt ends when the job has emitted nothing, [routing] or
    up to [submitted] before it: resolved after [confirmed], or thrown
    after [routing] or after [submitted]. *)
Definition attemptEnds (r : Outcome unit) (emitted : list OrderStatus) : Prop :=
  match r with
  | Resolved _ => emitted = [routing; building; submitted; confirmed]
  | Rejected _ => emitted = [routing] ∨ emitted = [routing; building; submitted]
  end.

(** How the job ends: resolved after [confirmed], or thrown after
    [failed]. *)
Definition jobEnds (r : Outcome unit) (emitted : list OrderStatus) : Prop :=
  match r with
  | Resolved _ => emitted = [routing; building; submitted; confirmed]
  | Rejected _ =>
      emitted = [routing; failed]
      ∨ emitted = [routing; building; submitted; failed]
  end.

Section Job.

Variable order : Order.
Variable h : Handler.
Variable p : OrderEvent.

(** [Stated.jobInvariant] with the end of the job stated, and the
    subscription: the callback is not subscribed before the third step of
    the client, and from then on it is, for as long as the socket is
    open. *)
Definition wholeInvariant (st : Lifecycle.State) : Prop :=
  (∃ (evs : list OrderEvent) (awaited : option OrderEvent),
     Stated.invariant (orderId order) h p evs
       (Lifecycle.mkConfig (Lifecycle.atClient st)
          (2 * length evs - match awaited with Some _ => 1 | None => 0 end)
          (Lifecycle.shared st))
     ∧ Lifecycle.lifecyclePrefix (map status (p :: evs))
     ∧ InMemoryActiveOrderStore.getActiveOrder (orderId order)
         (Lifecycle.store (Lifecycle.shared st)) = Some order
     ∧ Stated.safe order awaited (Lifecycle.job st) (map status evs) jobEnds
     ∧ match awaited with Some e => last evs = Some e | None => True end)
  ∧ (Lifecycle.atClient st < 3 ->
     Stated.mine (orderId order) h (Lifecycle.bus (Lifecycle.shared st)) = [])
  ∧ (3 <= Lifecycle.atClient st ->
     OrderSocket.socketOpen (Lifecycle.conn (Lifecycle.shared st)) = true ->
     Stated.mine (orderId order) h (Lifecycle.bus (Lifecycle.shared st)) = [h]).

End Job.

(** The run of [Samples.raceRun] up to the moment before the socket
    closes. *)
Definition openRun : Lifecycle.State :=
  Lifecycle.runSchedule "order-1" 7 clock0
    (Lifecycle.clientThread clock0 "order-1" worldEnqueued)
    (take 22 raceSchedule)
    (Lifecycle.initial (λ _, workingRouter) "order-1" worldEnqueued).

(** A run in which the socket closes right after the subscription, before
    the handler has registered its ['close'] listener, and the client and
    the job go on. *)
Definition subscribedRun : Lifecycle.State :=
  Lifecycle.runSchedule "order-1" 7 clock0
    (Lifecycle.clientThread clock0 "order-1" worldEnqueued)
    (replicate 3 Lifecycle.ClientMoves)
    (Lifecycle.initial (λ _, workingRouter) "order-1" worldEnqueued).

Definition afterEarlyClose : list Lifecycle.Move :=
  replicate 2 Lifecycle.ClientMoves ++ replicate 17 Lifecycle.JobMoves.

End Whole.

(** ** Tactics

    Membership in a list that is written out, lifecycle prefixes that are
    written out, and the parts of [Stated.safe] and
    [Stated.jobInvariant]. *)

Ltac listed := repeat (first [apply list_elem_of_here | apply list_elem_of_further]).

Ltac not_listed :=
  let Hin := fresh in
  intros Hin;
  repeat (apply elem_of_cons in Hin as [?|Hin]; [done|]);
  by apply elem_of_nil in Hin.

Ltac decide_listed :=
  repeat first [ rewrite bool_decide_eq_true_2 by listed
               | rewrite bool_decide_eq_false_2 by not_listed ].

Ltac lifecycle :=
  unfold Stated.mayFollow, Lifecycle.lifecyclePrefix, Lifecycle.canonicalSequences;
  simpl;
  first
    [ exists [pending; routing; building; submitted; confirmed];
      split; [listed | by eexists]
    | exists [pending; routing; failed];
      split; [listed | by eexists]
    | exists [pending; routing; building; submitted; failed];
      split; [listed | by eexists] ].

Ltac straight :=
  repeat match goal with
         | |- Stated.mayFollow _ _ => lifecycle
         | |- _ ∧ _ => split
         | |- _ ∨ _ => first [by left | by right]
         | |- ∀ _, _ => intro
         | _ => done
         end.

Ltac split_parts := refine (conj _ (conj _ (conj _ (conj _ _)))).

(** * Properties *)

(** ** The venue router *)

Section RouterProperties.

Import MockDexRouter.

Lemma getQuote_venue d tIn tOut amt u :
  dex (getQuote d tIn tOut amt u).2 = d.
Proof. by destruct d. Qed.

Lemma getQuote_delay d tIn tOut amt u :
  (getQuote d tIn tOut amt u).1 = [c200].
Proof. by destruct d. Qed.

(** C8: every quote of either venue has
    [effectivePrice = price * (1 - feeRate)], the product and the
    difference being those of binary64 arithmetic, with the venue's
    fixed fee rate: 0.003 for raydium and 0.002 for meteora. *)
Theorem getQuote_effectivePrice (d : DexName) (tIn tOut : symbol)
    (amt u : number) :
  let q := (getQuote d tIn tOut amt u).2 in
  effectivePrice q = mul (price q) (sub one (feeRate q))
  ∧ feeRate q = match d with raydium => c0_003 | meteora => c0_002 end
  ∧ dex q = d.
Proof. by destruct d. Qed.

Lemma route_quotes order u1 u2 :
  rd_raydium (route order u1 u2).2
    = (getQuote raydium (tokenIn order) (tokenOut order) (amount order) u1).2
  ∧ rd_meteora (route order u1 u2).2
    = (getQuote meteora (tokenIn order) (tokenOut order) (amount order) u2).2.
Proof. done. Qed.

Lemma route_chosen order u1 u2 :
  let d := (route order u1 u2).2 in
  chosen d = if geb (effectivePrice (rd_raydium d)) (effectivePrice (rd_meteora d))
             then rd_raydium d else rd_meteora d.
Proof. done. Qed.

(** C6: [route] returns the two venue quotes and chooses between them by
    the numeric comparison of their effective prices: raydium when its
    effective price is higher, meteora when meteora's is higher, and
    raydium, the first compared, when the two are equal. (When the
    prices are unordered, one being NaN, meteora is returned.) *)
Theorem route_chooses_higher_effectivePrice (order : Order) (u1 u2 : number) :
  let d := (route order u1 u2).2 in
  rd_raydium d
    = (getRaydiumQuote (tokenIn order) (tokenOut order) (amount order) u1).2
  ∧ rd_meteora d
    = (getMeteoraQuote (tokenIn order) (tokenOut order) (amount order) u2).2
  ∧ match SFcompare (effectivePrice (rd_raydium d))
            (effectivePrice (rd_meteora d)) with
    | Some Gt => chosen d = rd_raydium d ∧ dex (chosen d) = raydium
    | Some Lt => chosen d = rd_meteora d ∧ dex (chosen d) = meteora
    | Some Eq => chosen d = rd_raydium d ∧ dex (chosen d) = raydium
    | None => chosen d = rd_meteora d
    end.
Proof.
  intros d. split; [done|]. split; [done|].
  pose proof (route_chosen order u1 u2) as Hc. fold d in Hc.
  unfold geb in Hc. rewrite Hc.
  destruct (SFcompare _ _) as [[]|]; done.
Qed.

(** The order and the random draws of the repository's routing test:
    raydium draws 0, meteora draws 1, and meteora is chosen. *)
Example route_order1 :
  dex (chosen (route order1 zero one).2) = meteora
  ∧ ltb (effectivePrice (rd_raydium (route order1 zero one).2))
        (effectivePrice (rd_meteora (route order1 zero one).2)) = true.
Proof. by vm_compute. Qed.

(** A tie: with the draws 0.5 for raydium and just under 0.58 for
    meteora the two effective prices are equal, and raydium is chosen. *)
Example route_tie :
  let d := (route order1 c0_5 tieDraw).2 in
  SFcompare (effectivePrice (rd_raydium d)) (effectivePrice (rd_meteora d)) = Some Eq
  ∧ dex (chosen d) = raydium.
Proof. by vm_compute. Qed.

End RouterProperties.

(** ** Back-off and the retry loop *)

Section RetryProperties.

Import OrderWorker.

Lemma iter_pos_nat {A} (f : A -> A) (p : positive) (x : A) :
  SpecFloat.iter_pos f p x = Nat.iter (Pos.to_nat p) f x.
Proof.
  revert x. induction p as [p IH|p IH|]; intros x; cbn [SpecFloat.iter_pos].
  - rewrite !IH, Pos2Nat.inj_xI, <- Nat.iter_add, Nat.iter_swap, <- Nat.iter_succ.
    f_equal. lia.
  - rewrite !IH, Pos2Nat.inj_xO, <- Nat.iter_add. f_equal. lia.
  - done.
Qed.


Lemma digits_shl k m :
  Z.pos (digits2_pos (shl k m)) = (Z.pos (digits2_pos m) + Z.of_nat k)%Z.
Proof.
  induction k as [|k IH]; [simpl; lia|].
  change (shl (S k) m) with (xO (shl k m)). simpl digits2_pos.
  rewrite Pos2Z.inj_succ, IH. lia.
Qed.

Lemma shr_shl n r m :
  Nat.iter n shr_1 (Build_shr_record (Z.pos (shl (n + r) m)) false false)
  = Build_shr_record (Z.pos (shl r m)) false false.
Proof.
  induction n as [|n IH]; [done|].
  rewrite Nat.iter_succ_r. change (shl (S n + r) m) with (xO (shl (n + r) m)).
  simpl shr_1. apply IH.
Qed.

Lemma mul_shl m : (m * 4503599627370496)%positive = shl 52 m.
Proof. rewrite Pos.mul_comm. reflexivity. Qed.

Lemma bounded_inv m e :
  bounded prec emax m e = true ->
  (Z.max (Z.pos (digits2_pos m) + e - 53) (-1074) = e ∧ e <= 971)%Z.
Proof.
  unfold bounded, canonical_mantissa, fexp, emin, prec, emax.
  rewrite andb_true_iff, Z.eqb_eq, Z.leb_le. lia.
Qed.


(** Rounding a mantissa that ends in the [n] bits the rounding drops. *)
Lemma round_shl s m E (n r : nat) :
  (Z.max (Z.pos (digits2_pos m) + Z.of_nat (n + r) + E - 53) (-1074) - E
   = Z.of_nat n)%Z ->
  binary_round_aux prec emax s (Z.pos (shl (n + r) m)) E loc_Exact
  = if (E + Z.of_nat n <=? 971)%Z
    then S754_finite s (shl r m) (E + Z.of_nat n)
    else S754_infinity s.
Proof.
  intros Hn. unfold binary_round_aux, shr_fexp.
  cbn [Zdigits2 shr_record_of_loc]. rewrite digits_shl.
  unfold fexp, emin, prec, emax.
  replace (Z.max (Z.pos (digits2_pos m) + Z.of_nat (n + r) + E - 53) (3 - 1024 - 53) - E)%Z
    with (Z.of_nat n) by lia.
  assert (shr (Build_shr_record (Z.pos (shl (n + r) m)) false false) E (Z.of_nat n)
          = (Build_shr_record (Z.pos (shl r m)) false false, (E + Z.of_nat n)%Z)) as ->.
  { destruct n as [|n]; [simpl; f_equal; lia|].
    rewrite Nat2Z.inj_succ, <- Zpos_P_of_succ_nat. unfold shr.
    by rewrite iter_pos_nat, SuccNat2Pos.id_succ, shr_shl. }
  cbn [shr_m loc_of_shr_record round_nearest_even Zdigits2 shr_record_of_loc].
  rewrite digits_shl.
  replace (Z.max (Z.pos (digits2_pos m) + Z.of_nat r + (E + Z.of_nat n) - 53) (3 - 1024 - 53)
           - (E + Z.of_nat n))%Z with 0%Z by lia.
  done.
Qed.

Lemma mul_pow2 s m e j :
  bounded prec emax m e = true -> (0 <= j <= 1023)%Z ->
  mul (S754_finite s m e) (Math_pow2 j) = scaled s m e j.
Proof.
  intros [Hc He]%bounded_inv Hj. unfold Math_pow2.
  rewrite (proj2 (Z.leb_le _ _)) by lia.
  unfold mul, SFmul. rewrite xorb_false_r, mul_shl.
  pose proof (Pos2Z.is_pos (digits2_pos m)) as Hd.
  set (n := Z.max (Z.pos (digits2_pos m) - 1) (-1022 - e - j)).
  assert (0 <= n <= 52)%Z as Hn by lia.
  replace 52 with (Z.to_nat n + (52 - Z.to_nat n)) at 1 by lia.
  rewrite round_shl by lia.
  unfold scaled. fold n. rewrite Z2Nat.id by lia.
  by replace (e + (j - 52) + n)%Z with (e + j - 52 + n)%Z by lia.
Qed.


Lemma mul_comm x y : mul x y = mul y x.
Proof.
  unfold mul.
  destruct x as [sx|sx| |sx mx ex], y as [sy|sy| |sy my ey]; simpl;
    try done; try (by rewrite xorb_comm).
  by rewrite xorb_comm, Pos.mul_comm, Z.add_comm.
Qed.

Lemma mul_one b : is_number b = true -> mul b one = b.
Proof.
  intros Hb. destruct b as [s|s| |s m e]; try done.
  - unfold mul. simpl. by rewrite xorb_false_r.
  - unfold mul. simpl. by rewrite xorb_false_r.
  - change one with (Math_pow2 0). rewrite mul_pow2 by (done || lia).
    apply bounded_inv in Hb as [Hc He].
    pose proof (Pos2Z.is_pos (digits2_pos m)) as Hd.
    unfold scaled.
    replace (Z.max (Z.pos (digits2_pos m) - 1) (-1022 - e - 0)) with 52%Z by lia.
    rewrite (proj2 (Z.leb_le _ _)) by lia. simpl. f_equal. lia.
Qed.



Lemma shl_le a a' m : a <= a' -> (shl a m <= shl a' m)%positive.
Proof.
  induction 1 as [|a' _ IH]; [lia|].
  change (shl (S a') m) with (xO (shl a' m)). lia.
Qed.

Lemma scaled_le m e j j' :
  bounded prec emax m e = true -> (0 <= j <= j')%Z ->
  leb (scaled false m e j) (scaled false m e j') = true.
Proof.
  intros [Hc He]%bounded_inv Hj.
  pose proof (Pos2Z.is_pos (digits2_pos m)) as Hd.
  unfold scaled.
  set (n := Z.max (Z.pos (digits2_pos m) - 1) (-1022 - e - j)).
  set (n' := Z.max (Z.pos (digits2_pos m) - 1) (-1022 - e - j')).
  destruct (Z.leb_spec (e + j' - 52 + n') 971) as [Hfit'|Hover'].
  - rewrite (proj2 (Z.leb_le (e + j - 52 + n) 971)) by lia.
    unfold leb. cbn [SFcompare].
    destruct (Z.compare_spec (e + j - 52 + n) (e + j' - 52 + n')) as [Heq|Hlt|Hgt];
      [|done|lia].
    fold (Pos.compare (shl (52 - Z.to_nat n) m) (shl (52 - Z.to_nat n') m)).
    pose proof (shl_le (52 - Z.to_nat n) (52 - Z.to_nat n') m ltac:(lia)) as Hle.
    destruct (Pos.compare_spec (shl (52 - Z.to_nat n) m) (shl (52 - Z.to_nat n') m));
      [done|done|lia].
  - by destruct (e + j - 52 + n <=? 971)%Z.
Qed.

Lemma backoff_grows a a' b :
  is_number b = true -> leb zero b = true -> (a <= a' <= 1025)%Z ->
  leb (computeExponentialBackoffMs a b) (computeExponentialBackoffMs a' b) = true.
Proof.
  intros Hb Hpos Ha. unfold computeExponentialBackoffMs.
  destruct b as [s|[]| |[] m e]; try done.
  - unfold Math_pow2. rewrite !(proj2 (Z.leb_le _ _)) by lia. done.
  - unfold Math_pow2. rewrite !(proj2 (Z.leb_le _ _)) by lia. done.
  - rewrite !mul_pow2 by (done || lia). apply scaled_le; [done|lia].
Qed.



End RetryProperties.

(** ** The worker *)

Section WorkerProperties.

Import OrderWorker StatusModel.

Lemma hasStatus_true events s :
  hasStatus events s = true ↔ s ∈ map status events.
Proof.
  unfold hasStatus. rewrite existsb_exists, list_elem_of_fmap. split.
  - intros (e & Hin & Hb). apply bool_decide_eq_true in Hb.
    exists e. split; [done | by apply list_elem_of_In].
  - intros (e & -> & Hin). exists e. split; [by apply list_elem_of_In|].
    by apply bool_decide_eq_true_2.
Qed.

Lemma hasStatus_elem_of events s :
  hasStatus events s = bool_decide (s ∈ map status events).
Proof.
  destruct (hasStatus events s) eqn:Hs; symmetry.
  - by apply bool_decide_eq_true_2, hasStatus_true.
  - apply bool_decide_eq_false_2. intros Hin%hasStatus_true. congruence.
Qed.

Lemma lastStatus_last events : lastStatus events = last (map status events).
Proof. unfold lastStatus. by rewrite fmap_last. Qed.

Lemma listEvents_appendEvent id ev st :
  InMemoryActiveOrderStore.listEvents id (InMemoryActiveOrderStore.appendEvent id ev st)
  = InMemoryActiveOrderStore.listEvents id st ++ [ev].
Proof.
  unfold InMemoryActiveOrderStore.listEvents, InMemoryActiveOrderStore.appendEvent.
  simpl. by rewrite lookup_insert_eq.
Qed.

Lemma listEvents_appendEvent_ne id id' ev st :
  id' ≠ id ->
  InMemoryActiveOrderStore.listEvents id (InMemoryActiveOrderStore.appendEvent id' ev st)
  = InMemoryActiveOrderStore.listEvents id st.
Proof.
  intros Hne.
  unfold InMemoryActiveOrderStore.listEvents, InMemoryActiveOrderStore.appendEvent.
  simpl. by rewrite lookup_insert_ne.
Qed.

Lemma Emits_refl id w : Emits id w w [].
Proof. exists []. by rewrite !app_nil_r. Qed.

Lemma Emits_trans id w1 w2 w3 evs1 evs2 :
  Emits id w1 w2 evs1 -> Emits id w2 w3 evs2 -> Emits id w1 w3 (evs1 ++ evs2).
Proof.
  intros (tr1 & Ht1 & Ha1 & Hl1 & Ho1 & Hb1) (tr2 & Ht2 & Ha2 & Hl2 & Ho2 & Hb2).
  exists (tr1 ++ tr2). repeat split.
  - by rewrite Ht2, Ht1, app_assoc.
  - unfold Lifecycle.actionsOf, Lifecycle.emitActions in *.
    by rewrite omap_app, Ha1, Ha2, flat_map_app.
  - by rewrite Hl2, Hl1, app_assoc.
  - congruence.
  - congruence.
Qed.

(** A step that writes neither to the store nor to the bus. *)
Lemma Emits_silent id w w' e :
  trace w' = trace w ++ e ->
  Lifecycle.actionsOf e = [] ->
  activeStore w' = activeStore w ->
  eventBus w' = eventBus w ->
  Emits id w w' [].
Proof.
  intros Ht Ha Hs Hb. exists e. rewrite Hs, app_nil_r. done.
Qed.

Lemma Emits_nowMs id clock w : Emits id w (Op.nowMs clock w).2 [].
Proof. apply (Emits_silent _ _ _ []); simpl; by rewrite ?app_nil_r. Qed.

Lemma Emits_sleep id ms w : Emits id w (Op.sleep ms w) [].
Proof. by apply (Emits_silent _ _ _ [Sleep ms]). Qed.

Lemma Emits_warn id entry w : Emits id w (Op.warn entry w) [].
Proof. by apply (Emits_silent _ _ _ [LogWarn entry]). Qed.

Lemma Emits_finalizeOrder id d p tx ts w :
  Emits id w (Op.finalizeOrder id d p tx ts w) [].
Proof. by apply (Emits_silent _ _ _ [DbFinalize id d p tx ts]). Qed.

Lemma Emits_failOrder id reason ts w : Emits id w (Op.failOrder id reason ts w) [].
Proof. by apply (Emits_silent _ _ _ [DbFail id reason ts]). Qed.

Lemma Emits_emitEvent ev w : Emits (ev_orderId ev) w (emitEvent ev w) [ev].
Proof.
  exists [StoreAppend (ev_orderId ev) ev; BusPublish (ev_orderId ev) ev].
  unfold emitEvent. simpl. repeat split.
  - by rewrite <- app_assoc.
  - apply listEvents_appendEvent.
Qed.

Lemma Emits_emitUnlessRecorded clock events id s w :
  ∃ evs,
    Emits id w (emitUnlessRecorded clock events id s w) evs
    ∧ map status evs = unless (map status events) s.
Proof.
  unfold emitUnlessRecorded, unless. rewrite hasStatus_elem_of.
  destruct (bool_decide _).
  - exists []. split; [apply Emits_refl | done].
  - exists [mkOrderEvent id s (Op.nowMs clock w).1 NoDetail]. split; [|done].
    apply (Emits_trans id _ (Op.nowMs clock w).2 _ [] [_]); [apply Emits_nowMs|].
    apply (Emits_emitEvent (mkOrderEvent id s _ NoDetail)).
Qed.

Lemma unless_subseteq l s x : x ∈ unless l s -> x = s ∧ s ∉ l.
Proof.
  unfold unless. destruct (decide (s ∈ l)) as [Hin|Hin].
  - rewrite bool_decide_eq_true_2 by done. by intros ?%elem_of_nil.
  - rewrite bool_decide_eq_false_2 by done. by intros ->%list_elem_of_singleton.
Qed.

Lemma processOrderOnce_emits clock r order w :
  let l := map status (InMemoryActiveOrderStore.listEvents (orderId order) (activeStore w)) in
  ∃ evs,
    Emits (orderId order) w (processOrderOnce clock r order w).2 evs
    ∧ map status evs = onceStatuses l (attemptKind r order)
    ∧ (processOrderOnce clock r order w).1 = onceOutcome l (attemptKind r order).
Proof.
  intros l. unfold processOrderOnce, onceStatuses, onceOutcome, attemptKind.
  rewrite lastStatus_last. fold l. unfold terminal.
  destruct (bool_decide (last l = Some confirmed) || bool_decide (last l = Some failed)).
  { exists []. split; [apply Emits_refl | done]. }
  set (events := InMemoryActiveOrderStore.listEvents (orderId order) (activeStore w)).
  destruct (Emits_emitUnlessRecorded clock events (orderId order) routing w)
    as (e1 & He1 & Hs1).
  set (w1 := emitUnlessRecorded clock events (orderId order) routing w) in *.
  destruct (route r order) as [decision|err].
  2:{ exists e1. rewrite app_nil_r. done. }
  destruct (Emits_emitUnlessRecorded clock events (orderId order) building w1)
    as (e2 & He2 & Hs2).
  set (w2 := emitUnlessRecorded clock events (orderId order) building w1) in *.
  pose proof (Emits_sleep (orderId order) c150 w2) as He3.
  destruct (Emits_emitUnlessRecorded clock events (orderId order) submitted
              (Op.sleep c150 w2)) as (e4 & He4 & Hs4).
  set (w4 := emitUnlessRecorded clock events (orderId order) submitted _) in *.
  pose proof (Emits_trans _ _ _ _ _ _ He1
                (Emits_trans _ _ _ _ _ _ He2
                   (Emits_trans _ _ _ _ _ _ He3 He4))) as H14.
  simpl in H14.
  destruct (executeSwap r _ order _) as [exec|err].
  2:{ exists (e1 ++ e2 ++ e4). split; [done|]. split; [|done].
      by rewrite !map_app, Hs1, Hs2, Hs4. }
  simpl.
  set (now := clock (ticks w4)).
  set (w5 := (Op.nowMs clock w4).2).
  set (w6 := Op.finalizeOrder (orderId order) (sw_dex exec) (sw_executedPrice exec)
               (sw_txHash exec) now w5).
  assert (Emits (orderId order) w w6 (e1 ++ e2 ++ e4)) as H16.
  { rewrite <- (app_nil_r (e1 ++ e2 ++ e4)).
    eapply Emits_trans; [exact H14|].
    apply (Emits_trans _ _ w5 _ [] []); [apply Emits_nowMs | apply Emits_finalizeOrder]. }
  assert (hasStatus (InMemoryActiveOrderStore.listEvents (orderId order) (activeStore w6))
            confirmed = bool_decide (confirmed ∈ l)) as Hc.
  { rewrite hasStatus_elem_of. apply bool_decide_ext.
    destruct H16 as (_ & _ & _ & -> & _).
    fold events. rewrite !map_app, Hs1, Hs2, Hs4. fold l.
    rewrite !elem_of_app. split; [|by left].
    intros [?|[Hx|[Hx|Hx]]]; [done|..]; by apply unless_subseteq in Hx as [? _]. }
  simpl in Hc. rewrite Hc. unfold unless at 4.
  destruct (bool_decide (confirmed ∈ l)).
  - exists (e1 ++ e2 ++ e4). split; [done|]. split; [|done].
    by rewrite !map_app, Hs1, Hs2, Hs4, !app_nil_r.
  - exists (e1 ++ e2 ++ e4 ++ [mkOrderEvent (orderId order) confirmed now
                                   (ConfirmedDetail (sw_txHash exec) (sw_dex exec)
                                      (sw_executedPrice exec))]). split.
    + rewrite !app_assoc. eapply Emits_trans; [rewrite <- !app_assoc; exact H16|].
      apply (Emits_emitEvent (mkOrderEvent (orderId order) confirmed now _)).
    + split; [|done]. by rewrite !map_app, Hs1, Hs2, Hs4.
Qed.

Lemma onceStatuses_fresh l k s : s ∈ onceStatuses l k -> s ∉ l.
Proof.
  unfold onceStatuses. destruct (terminal l); [by intros ?%elem_of_nil|].
  destruct k; intros H; repeat (apply elem_of_app in H as [H|H]);
    try (by apply unless_subseteq in H as [-> ?]); by apply elem_of_nil in H.
Qed.

Lemma unless_cases l s : unless l s = [] ∨ unless l s = [s].
Proof. unfold unless. destruct (bool_decide _); auto. Qed.

Lemma onceStatuses_NoDup l k : NoDup (onceStatuses l k).
Proof.
  unfold onceStatuses. destruct (terminal l); [constructor|].
  destruct k;
    destruct (unless_cases l routing) as [H1|H1];
    destruct (unless_cases l building) as [H2|H2];
    destruct (unless_cases l submitted) as [H3|H3];
    destruct (unless_cases l confirmed) as [H4|H4];
    rewrite ?H1, ?H2, ?H3, ?H4; simpl; by apply (bool_decide_unpack _).
Qed.

(** C5: when the last recorded status of the order is [confirmed] or
    [failed], [processOrderOnce] resolves at once and leaves the whole
    world as it was: the active-order store, the bus and the calls it
    made, the durable table, and the trace of effects. *)
Theorem processOrderOnce_after_terminal (clock : nat -> Z) (r : Router)
    (order : Order) (w : World) :
  let events := InMemoryActiveOrderStore.listEvents (orderId order) (activeStore w) in
  lastStatus events = Some confirmed ∨ lastStatus events = Some failed ->
  processOrderOnce clock r order w = (Resolved tt, w).
Proof.
  intros events Hlast. unfold processOrderOnce. fold events.
  destruct Hlast as [-> | ->]; by vm_compute.
Qed.

(** C10: when the store holds no order under the identifier,
    [executeOrderJob] rejects with the not-found error and the world is
    left as it was: no attempt is made, nothing is appended or published,
    and neither [failOrder] nor [finalizeOrder] is called. *)
Theorem executeOrderJob_not_found (clock : nat -> Z) (routerAt : Z -> Router)
    (id : string) (w : World) :
  InMemoryActiveOrderStore.getActiveOrder id (activeStore w) = None ->
  executeOrderJob clock routerAt id w
  = (Rejected (ErrorObj ("Active order not found: " +:+ id)), w).
Proof. intros Hnone. unfold executeOrderJob. by rewrite Hnone. Qed.

(** C2: an attempt emits only statuses that the log does not have yet,
    each once, appending and then publishing each event; from the log
    [pending, routing] an attempt that resolves emits exactly
    [building, submitted, confirmed], in that order. *)
Theorem processOrderOnce_emits_only_missing (clock : nat -> Z) (r : Router)
    (order : Order) (w : World) :
  let events := InMemoryActiveOrderStore.listEvents (orderId order) (activeStore w) in
  let res := processOrderOnce clock r order w in
  ∃ evs,
    Emits (orderId order) w res.2 evs
    ∧ (∀ s, s ∈ map status evs -> s ∉ map status events)
    ∧ NoDup (map status evs)
    ∧ (map status events = [pending; routing] ->
       res.1 = Resolved tt ->
       map status evs = [building; submitted; confirmed]).
Proof.
  intros events res.
  destruct (processOrderOnce_emits clock r order w) as (evs & He & Hs & Ho).
  fold events in Hs, Ho. fold res in He, Ho.
  exists evs. split; [done|]. rewrite Hs. split; [|split].
  - intros s. apply onceStatuses_fresh.
  - apply onceStatuses_NoDup.
  - intros Hl Hres. rewrite Hl in *. rewrite Hres in Ho.
    destruct (attemptKind r order); by vm_compute in Ho |- *.
Qed.

Lemma processOrderOnce_after_terminal_witness :
  processOrderOnce clock0 workingRouter order1 worldAfterFailure
  = (Resolved tt, worldAfterFailure).
Proof. apply processOrderOnce_after_terminal. right. by vm_compute. Defined.

Lemma executeOrderJob_not_found_witness :
  executeOrderJob clock0 (λ _, workingRouter) "order-2" worldAfterRouting
  = (Rejected (ErrorObj "Active order not found: order-2"), worldAfterRouting).
Proof. apply executeOrderJob_not_found. by vm_compute. Defined.

(** The retried attempt of the specification: the log is
    [pending, routing] and the router now succeeds. *)
Example retry_after_routing :
  map status
    (InMemoryActiveOrderStore.listEvents "order-1"
       (activeStore (processOrderOnce clock0 workingRouter order1 worldAfterRouting).2))
  = [pending; routing; building; submitted; confirmed]
  ∧ Lifecycle.actionsOf
      (drop (length (trace worldAfterRouting))
         (trace (processOrderOnce clock0 workingRouter order1 worldAfterRouting).2))
    = Lifecycle.emitActions "order-1"
        [ mkOrderEvent "order-1" building 0 NoDetail;
          mkOrderEvent "order-1" submitted 1 NoDetail;
          mkOrderEvent "order-1" confirmed 2
            (ConfirmedDetail "mocktx_1" raydium one) ].
Proof. by vm_compute. Qed.

(** *** The retry loop *)

Lemma retryLoop_step fuel attempt maxAttempts b run w :
  (attempt <= maxAttempts)%Z ->
  retryLoop (S fuel) attempt maxAttempts b run w
  = match run attempt w with
    | (Resolved _, w1) => (Resolved tt, w1)
    | (Rejected err, w1) =>
        if (attempt >=? maxAttempts)%Z then (Rejected err, w1)
        else
          retryLoop fuel (attempt + 1) maxAttempts b run
            (Op.sleep (computeExponentialBackoffMs (attempt + 1) b)
               (Op.warn (mkRetryWarning attempt (attempt + 1)
                           (computeExponentialBackoffMs (attempt + 1) b)
                           (error_text err)) w1))
    end.
Proof.
  intros Hle. simpl. by rewrite (proj2 (Z.leb_le _ _) Hle).
Qed.







(** *** The job *)

Lemma Emits_statuses id w w' evs :
  Emits id w w' evs ->
  map status (InMemoryActiveOrderStore.listEvents id (activeStore w'))
  = map status (InMemoryActiveOrderStore.listEvents id (activeStore w))
    ++ map status evs.
Proof. intros (_ & _ & _ & -> & _). by rewrite map_app. Qed.

Lemma Emits_backoff id attempt b msg w :
  Emits id w
    (Op.sleep (computeExponentialBackoffMs (attempt + 1) b)
       (Op.warn (mkRetryWarning attempt (attempt + 1)
                   (computeExponentialBackoffMs (attempt + 1) b) msg) w)) [].
Proof.
  eapply (Emits_trans _ _ _ _ [] []); [apply Emits_warn | apply Emits_sleep].
Qed.

#[local] Arguments retryLoop : simpl never.
#[local] Arguments processOrderOnce : simpl never.
#[local] Arguments computeExponentialBackoffMs : simpl never.

Lemma runWithRetries_emits clock routerAt order w :
  let l := map status (InMemoryActiveOrderStore.listEvents (orderId order) (activeStore w)) in
  let res := runWithRetries ORDER_MAX_ATTEMPTS ORDER_BACKOFF_BASE_MS
               (λ attempt, processOrderOnce clock (routerAt attempt) order) w in
  let k1 := attemptKind (routerAt 1%Z) order in
  let k2 := attemptKind (routerAt 2%Z) order in
  let k3 := attemptKind (routerAt 3%Z) order in
  ∃ evs,
    Emits (orderId order) w res.2 evs
    ∧ map status evs = retryStatuses l k1 k2 k3
    ∧ res.1 = retryOutcome l k1 k2 k3.
Proof.
  intros l res k1 k2 k3. subst res.
  unfold runWithRetries, ORDER_MAX_ATTEMPTS, ORDER_BACKOFF_BASE_MS.
  change (Z.to_nat 3) with 3. unfold retryStatuses, retryOutcome.
  (* first attempt *)
  rewrite retryLoop_step by lia.
  destruct (processOrderOnce_emits clock (routerAt 1%Z) order w)
    as (e1 & He1 & Hs1 & Ho1). fold l k1 in Hs1, Ho1.
  destruct (processOrderOnce clock (routerAt 1%Z) order w) as [o1 w1].
  simpl in He1, Ho1. rewrite <- Ho1, <- Hs1.
  destruct o1 as [[]|err1]; simpl; [by exists e1|].
  pose proof (Emits_trans _ _ _ _ _ _ He1
                (Emits_backoff (orderId order) 1 c1000 (error_text err1) w1)) as He1'.
  rewrite app_nil_r in He1'. change (1 + 1)%Z with 2%Z in *.
  remember (Op.sleep _ _) as w1' eqn:Hw1'. clear Hw1'.
  pose proof (Emits_statuses _ _ _ _ He1') as Hl1. fold l in Hl1.
  (* second attempt *)
  rewrite retryLoop_step by lia.
  destruct (processOrderOnce_emits clock (routerAt 2%Z) order w1')
    as (e2 & He2 & Hs2 & Ho2). rewrite Hl1 in Hs2, Ho2. fold k2 in Hs2, Ho2.
  destruct (processOrderOnce clock (routerAt 2%Z) order w1') as [o2 w2].
  simpl in He2, Ho2. rewrite <- Ho2, <- Hs2.
  pose proof (Emits_trans _ _ _ _ _ _ He1' He2) as He12.
  destruct o2 as [[]|err2]; simpl; [by exists (e1 ++ e2); rewrite map_app|].
  pose proof (Emits_trans _ _ _ _ _ _ He12
                (Emits_backoff (orderId order) 2 c1000 (error_text err2) w2)) as He2'.
  rewrite app_nil_r in He2'. change (2 + 1)%Z with 3%Z in *.
  remember (Op.sleep _ _) as w2' eqn:Hw2'. clear Hw2'.
  pose proof (Emits_statuses _ _ _ _ He2') as Hl2. fold l in Hl2.
  rewrite map_app in Hl2.
  (* third attempt *)
  rewrite retryLoop_step by lia.
  destruct (processOrderOnce_emits clock (routerAt 3%Z) order w2')
    as (e3 & He3 & Hs3 & Ho3). rewrite Hl2 in Hs3, Ho3. fold k3 in Hs3, Ho3.
  destruct (processOrderOnce clock (routerAt 3%Z) order w2') as [o3 w3].
  simpl in He3, Ho3. rewrite <- Ho3, <- Hs3.
  pose proof (Emits_trans _ _ _ _ _ _ He2' He3) as He123.
  rewrite <- app_assoc in He123.
  exists (e1 ++ e2 ++ e3). rewrite !map_app.
  by destruct o3 as [[]|err3].
Qed.

Lemma unless_fresh l s x : x ∈ unless l s -> x ∉ l.
Proof. by intros [-> ?]%unless_subseteq. Qed.

Lemma unless_NoDup l s : NoDup (unless l s).
Proof.
  destruct (unless_cases l s) as [->| ->]; [constructor|].
  apply NoDup_singleton.
Qed.

(** Statuses added in two batches, each new to what was there before. *)
Lemma fresh_batches (l e1 e2 : list OrderStatus) :
  NoDup e1 -> (∀ s, s ∈ e1 -> s ∉ l) ->
  NoDup e2 -> (∀ s, s ∈ e2 -> s ∉ l ++ e1) ->
  NoDup (e1 ++ e2) ∧ (∀ s, s ∈ e1 ++ e2 -> s ∉ l).
Proof.
  intros Hn1 Hf1 Hn2 Hf2. split.
  - apply NoDup_app. split; [done|]. split; [|done].
    intros s Hs1 Hs2. apply (Hf2 s Hs2), elem_of_app. by right.
  - intros s [Hs|Hs]%elem_of_app; [by apply Hf1|].
    intros Hl. apply (Hf2 s Hs), elem_of_app. by left.
Qed.

Lemma retryStatuses_fresh l k1 k2 k3 :
  NoDup (retryStatuses l k1 k2 k3)
  ∧ (∀ s, s ∈ retryStatuses l k1 k2 k3 -> s ∉ l).
Proof.
  unfold retryStatuses.
  pose proof (onceStatuses_NoDup l k1) as Hn1.
  pose proof (λ s, onceStatuses_fresh l k1 s) as Hf1.
  pose proof (onceStatuses_NoDup (l ++ onceStatuses l k1) k2) as Hn2.
  pose proof (λ s, onceStatuses_fresh (l ++ onceStatuses l k1) k2 s) as Hf2.
  destruct (fresh_batches _ _ _ Hn1 Hf1 Hn2 Hf2) as [Hn12 Hf12].
  destruct (rejected (onceOutcome l k1)); [|done].
  destruct (rejected (onceOutcome _ k2)); [|done].
  rewrite (app_assoc (onceStatuses l k1)).
  apply fresh_batches; try done.
  - apply onceStatuses_NoDup.
  - intros s Hs. rewrite app_assoc.
    revert Hs. rewrite <- (app_assoc l). apply onceStatuses_fresh.
Qed.

(** A job emits no status twice and none that the log has. *)
Lemma jobStatuses_fresh l k1 k2 k3 :
  NoDup (jobStatuses l k1 k2 k3)
  ∧ (∀ s, s ∈ jobStatuses l k1 k2 k3 -> s ∉ l).
Proof.
  unfold jobStatuses.
  destruct (retryStatuses_fresh l k1 k2 k3) as [Hn Hf].
  destruct (rejected _); [|done].
  apply fresh_batches; try done.
  - apply unless_NoDup.
  - intros s. apply unless_fresh.
Qed.

Lemma executeOrderJob_emits clock routerAt order w :
  InMemoryActiveOrderStore.getActiveOrder (orderId order) (activeStore w) = Some order ->
  let l := map status (InMemoryActiveOrderStore.listEvents (orderId order) (activeStore w)) in
  ∃ evs,
    Emits (orderId order) w (executeOrderJob clock routerAt (orderId order) w).2 evs
    ∧ map status evs
      = jobStatuses l (attemptKind (routerAt 1%Z) order)
          (attemptKind (routerAt 2%Z) order) (attemptKind (routerAt 3%Z) order).
Proof.
  intros Hget l. unfold executeOrderJob, jobStatuses. rewrite Hget.
  destruct (runWithRetries_emits clock routerAt order w) as (evs & He & Hs & Ho).
  fold l in Hs, Ho. rewrite <- Hs, <- Ho.
  destruct (runWithRetries _ _ _ w) as [[[]|err] w1]; simpl in *; [by exists evs|].
  set (ts := clock (ticks w1)).
  set (w2 := (Op.nowMs clock w1).2).
  set (w3 := Op.failOrder (orderId order) (error_text err) ts w2).
  assert (Emits (orderId order) w w3 evs) as He3.
  { rewrite <- (app_nil_r evs). eapply Emits_trans; [exact He|].
    apply (Emits_trans _ _ w2 _ [] []); [apply Emits_nowMs | apply Emits_failOrder]. }
  change (InMemoryActiveOrderStore.listEvents (orderId order) (activeStore w1))
    with (InMemoryActiveOrderStore.listEvents (orderId order) (activeStore w3)).
  rewrite hasStatus_elem_of, (Emits_statuses _ _ _ _ He3). fold l. unfold unless.
  destruct (bool_decide (failed ∈ l ++ map status evs)).
  - exists evs. rewrite app_nil_r. split; [exact He3|done].
  - exists (evs ++ [mkOrderEvent (orderId order) failed ts (FailedDetail (error_text err))]).
    split; [|by rewrite map_app].
    eapply Emits_trans; [exact He3|].
    apply (Emits_emitEvent (mkOrderEvent (orderId order) failed ts _)).
Qed.

Lemma retryOutcome_rejected l k1 k2 k3 err :
  retryOutcome l k1 k2 k3 = Rejected err ->
  k3 = RouteRejects err ∨ k3 = SwapRejects err.
Proof.
  unfold retryOutcome.
  destruct (rejected (onceOutcome l k1)); [|done].
  destruct (rejected (onceOutcome _ k2)); [|done].
  unfold onceOutcome. destruct (terminal _); [done|].
  destruct k3; intros [= ->]; auto.
Qed.

(** C4: when the attempts are exhausted, that is when the retry loop of
    three attempts rejects with [err], the error the router threw in the
    third attempt, [executeOrderJob] calls [failOrder] with the text of
    [err] as failure reason, so that the durable row of the order has
    status [failed] and that reason; it then emits a [failed] event
    carrying the same text, appended and then published, only if the log
    has no [failed] event, and adds nothing else; it rejects with the same
    [err]. Over the whole job no status is emitted twice, and none that
    the log had when the job began, so [failed] is emitted at most
    once. *)
Theorem executeOrderJob_exhausted (clock : nat -> Z) (routerAt : Z -> Router)
    (order : Order) (w : World) (err : Thrown) :
  let id := orderId order in
  let retried := runWithRetries ORDER_MAX_ATTEMPTS ORDER_BACKOFF_BASE_MS
                   (λ attempt, processOrderOnce clock (routerAt attempt) order) w in
  let res := executeOrderJob clock routerAt id w in
  let ts := clock (ticks retried.2) in
  let failedEvent := mkOrderEvent id failed ts (FailedDetail (error_text err)) in
  let recorded :=
    hasStatus (InMemoryActiveOrderStore.listEvents id (activeStore retried.2)) failed in
  InMemoryActiveOrderStore.getActiveOrder id (activeStore w) = Some order ->
  retried.1 = Rejected err ->
  (∃ evs,
     Emits id w res.2 evs
     ∧ NoDup (map status evs)
     ∧ ∀ s, s ∈ map status evs ->
         s ∉ map status (InMemoryActiveOrderStore.listEvents id (activeStore w)))
  ∧ (attemptKind (routerAt 3%Z) order = RouteRejects err
     ∨ attemptKind (routerAt 3%Z) order = SwapRejects err)
  ∧ res.1 = Rejected err
  ∧ trace res.2
    = trace retried.2
      ++ DbFail id (error_text err) ts
         :: (if recorded then []
             else [StoreAppend id failedEvent; BusPublish id failedEvent])
  ∧ db res.2 = PgDb.failOrder id (error_text err) ts (db retried.2)
  ∧ (∀ row, db retried.2 !! id = Some row ->
       ∃ row', db res.2 !! id = Some row'
               ∧ fr_status row' = failed
               ∧ fr_failureReason row' = Some (error_text err))
  ∧ InMemoryActiveOrderStore.listEvents id (activeStore res.2)
    = InMemoryActiveOrderStore.listEvents id (activeStore retried.2)
      ++ (if recorded then [] else [failedEvent]).
Proof.
  intros id retried res ts failedEvent recorded Hget Hrej.
  split.
  { destruct (executeOrderJob_emits clock routerAt order w Hget) as (evs & He & Hs).
    exists evs. split; [done|]. rewrite Hs. apply jobStatuses_fresh. }
  split.
  { destruct (runWithRetries_emits clock routerAt order w) as (evs & _ & _ & Ho).
    fold retried in Ho. rewrite Hrej in Ho. symmetry in Ho.
    by apply retryOutcome_rejected in Ho. }
  assert (res = let w3 := Op.failOrder id (error_text err) ts (Op.nowMs clock retried.2).2 in
                if recorded then (Rejected err, w3)
                else (Rejected err, emitEvent failedEvent w3)) as ->.
  { subst res. unfold executeOrderJob. rewrite Hget. fold retried.
    destruct retried as [o w1]. simpl in Hrej. by subst o. }
  assert (db (Op.failOrder id (error_text err) ts (Op.nowMs clock retried.2).2) !! id
          = (λ r, mkOrderFinalRecord (fr_orderId r) (fr_tokenIn r) (fr_tokenOut r)
                    (fr_amount r) (fr_slippageBps r) failed (fr_dexChosen r)
                    (fr_executedPrice r) (fr_txHash r) (Some (error_text err))
                    (fr_createdAtMs r) ts) <$> db retried.2 !! id) as Hrow.
  { unfold Op.failOrder, PgDb.failOrder. cbn [db]. by rewrite lookup_alter_eq. }
  destruct recorded; simpl.
  - rewrite app_nil_r. repeat split; try done.
    intros row Hr. simpl in Hrow. rewrite Hr in Hrow. eexists. split; [exact Hrow|done].
  - repeat split; try done.
    + by rewrite <- !app_assoc.
    + intros row Hr. simpl in Hrow. rewrite Hr in Hrow. eexists. split; [exact Hrow|done].
    + apply listEvents_appendEvent.
Qed.

Lemma executeOrderJob_exhausted_witness :
  (executeOrderJob clock0 (λ _, failingRouter) "order-1" worldPending).1
  = Rejected (ErrorObj "routing failed")
  ∧ (fr_failureReason <$> db (executeOrderJob clock0 (λ _, failingRouter)
                               "order-1" worldPending).2 !! "order-1")
    = Some (Some "routing failed")
  ∧ map status
      (InMemoryActiveOrderStore.listEvents "order-1"
         (activeStore (executeOrderJob clock0 (λ _, failingRouter)
                         "order-1" worldPending).2))
    = [pending; routing; failed].
Proof.
  destruct (executeOrderJob_exhausted clock0 (λ _, failingRouter) order1
              worldPending (ErrorObj "routing failed"))
    as (_ & _ & Hres & _ & Hdb & _ & Hlog).
  - by vm_compute.
  - by vm_compute.
  - split; [exact Hres|]. split.
    + change (orderId order1) with "order-1" in Hdb. rewrite Hdb. by vm_compute.
    + change (orderId order1) with "order-1" in Hlog. rewrite Hlog. by vm_compute.
Defined.

End WorkerProperties.

(** ** The worker, operation by operation *)

Section WorkerStepsProperties.

Import WorkerSteps.

Lemma exec_andThen clock p q w :
  exec clock (andThen p q) w
  = match exec clock p w with
    | (Resolved _, w1) => exec clock q w1
    | (Rejected err, w1) => (Rejected err, w1)
    end.
Proof.
  revert w. induction p as [|err|id k IH|id k IH|k IH|e k IH]; intros w; simpl; auto.
Qed.

Lemma exec_catch clock p handler w :
  exec clock (catch p handler) w
  = match exec clock p w with
    | (Resolved _, w1) => (Resolved tt, w1)
    | (Rejected err, w1) => exec clock (handler err) w1
    end.
Proof.
  revert w. induction p as [|err|id k IH|id k IH|k IH|e k IH]; intros w; simpl; auto.
Qed.

Lemma exec_emitUnlessRecorded clock events id s w :
  exec clock (emitUnlessRecorded events id s) w
  = (Resolved tt, OrderWorker.emitUnlessRecorded clock events id s w).
Proof.
  unfold emitUnlessRecorded, OrderWorker.emitUnlessRecorded.
  by destruct (OrderWorker.hasStatus events s).
Qed.

Lemma exec_processOrderOnce clock router order w :
  exec clock (processOrderOnce router order) w
  = OrderWorker.processOrderOnce clock router order w.
Proof.
  unfold processOrderOnce, OrderWorker.processOrderOnce.
  cbn [exec].
  destruct (_ || _); [done|].
  rewrite exec_andThen, exec_emitUnlessRecorded.
  destruct (route router order) as [decision|err]; [|done].
  rewrite exec_andThen, exec_emitUnlessRecorded. cbn [exec applyEffect].
  rewrite exec_andThen, exec_emitUnlessRecorded.
  destruct (executeSwap router _ order _) as [swap|err]; [|done].
  cbn [exec applyEffect]. unfold Op.nowMs. cbn [exec applyEffect].
  by destruct (OrderWorker.hasStatus _ confirmed).
Qed.

Lemma exec_retryLoop clock fuel attempt maxAttempts b run run' w :
  (∀ a w0, exec clock (run a) w0 = run' a w0) ->
  exec clock (retryLoop fuel attempt maxAttempts b run) w
  = OrderWorker.retryLoop fuel attempt maxAttempts b run' w.
Proof.
  intros Hrun. revert attempt w.
  induction fuel as [|fuel IH]; intros attempt w; [done|]. simpl.
  destruct (attempt <=? maxAttempts)%Z; [|done].
  rewrite exec_catch, Hrun.
  destruct (run' attempt w) as [[[]|err] w1]; [done|].
  destruct (attempt >=? maxAttempts)%Z; [done|].
  simpl. apply IH.
Qed.

(** Run without interruption, the operations of the job are the function
    [OrderWorker.executeOrderJob]. *)
Lemma exec_executeOrderJob clock routerAt id w :
  exec clock (executeOrderJob routerAt id) w
  = OrderWorker.executeOrderJob clock routerAt id w.
Proof.
  unfold executeOrderJob, OrderWorker.executeOrderJob. cbn [exec].
  destruct (InMemoryActiveOrderStore.getActiveOrder id (activeStore w))
    as [order|]; [|done].
  rewrite exec_catch. unfold runWithRetries, OrderWorker.runWithRetries.
  rewrite (exec_retryLoop clock _ _ _ _ _
             (λ attempt, OrderWorker.processOrderOnce clock (routerAt attempt) order))
    by (intros; apply exec_processOrderOnce).
  destruct (OrderWorker.retryLoop _ _ _ _ _ w) as [[[]|err] w1]; [done|].
  cbn [exec applyEffect]. unfold Op.nowMs. cbn [exec applyEffect].
  by destruct (OrderWorker.hasStatus _ failed).
Qed.

End WorkerStepsProperties.

(** ** The submission path *)

Section ApiProperties.

Import OrdersApi Stated.






(** A rejected submission touches nothing. *)
Lemma postExecute_invalid clock enc uuid req w error :
  validateExecuteOrder (body req) = inr error ->
  postExecute clock enc uuid req w = (Reply400 error, w).
Proof. intros Hv. unfold postExecute. by rewrite Hv. Qed.

End ApiProperties.

(** ** The two event buses *)

Section BusProperties.

Import BusRun Stated.

Lemma elem_of_set_add {A} `{EqDecision A} (x y : A) (s : list A) :
  x ∈ set_add y s ↔ x = y ∨ x ∈ s.
Proof.
  unfold set_add. destruct (decide (y ∈ s)) as [Hin|Hin].
  - split; [by right | by intros [->|?]].
  - rewrite elem_of_app, list_elem_of_singleton. tauto.
Qed.

Lemma elem_of_set_delete {A} `{EqDecision A} (x y : A) (s : list A) :
  x ∈ set_delete y s ↔ x ≠ y ∧ x ∈ s.
Proof. unfold set_delete. by rewrite list_elem_of_filter. Qed.







Section Wire.

Context {Message : Type}.
Variable stringify : OrderEvent -> Message.
Variable parse : Message -> OrderEvent.








End Wire.




End BusProperties.

(** ** The streaming gateway *)

Section SortProperties.

Import OrderSocket Stated.

Lemma lifecycle_le_rankLe x y : lifecycle_le x y = true ↔ rankLe x y.
Proof. unfold lifecycle_le, rankLe. rewrite Z.leb_le. lia. Qed.

Lemma insertByLifecycle_perm x l : insertByLifecycle x l ≡ₚ x :: l.
Proof.
  induction l as [|y l IH]; simpl; [done|].
  destruct (lifecycle_le x y); [done|]. rewrite IH. apply Permutation_swap.
Qed.

Lemma sortByLifecycle_perm l : sortByLifecycle l ≡ₚ l.
Proof.
  induction l as [|x l IH]; simpl; [done|].
  by rewrite insertByLifecycle_perm, IH.
Qed.

Lemma insertByLifecycle_sorted x l :
  StronglySorted rankLe l -> StronglySorted rankLe (insertByLifecycle x l).
Proof.
  induction l as [|y l IH]; intros Hs; simpl.
  - by repeat constructor.
  - apply StronglySorted_cons in Hs as [Hy Hl].
    destruct (lifecycle_le x y) eqn:Hxy.
    + apply lifecycle_le_rankLe in Hxy. constructor.
      * by apply StronglySorted_cons.
      * constructor; [done|]. eapply Forall_impl; [exact Hy|].
        intros z Hz. unfold rankLe in *. lia.
    + assert (rankLe y x) as Hyx.
      { assert (¬ rankLe x y) as Hn by (rewrite <- lifecycle_le_rankLe; congruence).
        unfold rankLe in *. lia. }
      constructor; [by apply IH|].
      rewrite insertByLifecycle_perm. by constructor.
Qed.

Lemma sortByLifecycle_sorted l : StronglySorted rankLe (sortByLifecycle l).
Proof.
  induction l as [|x l IH]; simpl; [constructor|].
  by apply insertByLifecycle_sorted.
Qed.

Lemma ascending_rankLe l : ascending l -> StronglySorted rankLe l.
Proof.
  induction 1 as [|x l Hl IH Hx]; constructor; [done|].
  eapply Forall_impl; [exact Hx|]. unfold rankLt, rankLe. intros; lia.
Qed.

Lemma ascending_same_rank l x y :
  ascending l -> x ∈ l -> y ∈ l -> rankLe x y -> rankLe y x -> x = y.
Proof.
  induction 1 as [|z l Hl IH Hz]; intros Hx Hy Hxy Hyx.
  { by apply elem_of_nil in Hx. }
  rewrite Forall_forall in Hz. unfold rankLe, rankLt in *.
  apply elem_of_cons in Hx as [->|Hx]; apply elem_of_cons in Hy as [->|Hy];
    [done| | |by apply IH].
  - specialize (Hz _ Hy). lia.
  - specialize (Hz _ Hx). lia.
Qed.

(** Sorting any arrangement of an ascending list gives the list. *)
Lemma sortByLifecycle_of_perm lg l :
  ascending l -> lg ≡ₚ l -> sortByLifecycle lg = l.
Proof.
  intros Hasc Hperm.
  apply (StronglySorted_unique_strong rankLe).
  - intros x y Hx Hy. apply (ascending_same_rank l x y Hasc).
    + by rewrite <- Hperm, <- (sortByLifecycle_perm lg).
    + done.
  - apply sortByLifecycle_sorted.
  - by apply ascending_rankLe.
  - by rewrite sortByLifecycle_perm.
Qed.

Lemma sortByLifecycle_ascending l : ascending l -> sortByLifecycle l = l.
Proof. intros Hasc. by apply sortByLifecycle_of_perm. Qed.

Lemma ascending_take n l : ascending l -> ascending (take n l).
Proof.
  intros Hasc. rewrite <- (take_drop n l) in Hasc.
  by apply StronglySorted_app_1_l in Hasc.
Qed.

Lemma ascending_drop n l : ascending l -> ascending (drop n l).
Proof.
  intros Hasc. rewrite <- (take_drop n l) in Hasc.
  by apply StronglySorted_app_1_r in Hasc.
Qed.

Lemma ascending_cons_take p n l : ascending (p :: l) -> ascending (p :: take n l).
Proof. intros Hasc. by apply (ascending_take (S n) (p :: l)). Qed.

Lemma ascending_distinct l1 l2 x y :
  ascending (l1 ++ l2) -> x ∈ l1 -> y ∈ l2 -> status x ≠ status y.
Proof.
  intros Hasc Hx Hy Heq.
  pose proof (StronglySorted_app_1_elem_of _ _ _ _ _ Hasc Hx Hy) as Hlt.
  unfold rankLt in Hlt. rewrite Heq in Hlt. lia.
Qed.

Lemma ascending_NoDup l : ascending l -> NoDup (map status l).
Proof.
  induction 1 as [|x l Hl IH Hx]; simpl; constructor; [|done].
  rewrite Forall_forall in Hx. intros (y & Heq & Hy)%list_elem_of_fmap.
  specialize (Hx _ Hy). unfold rankLt in Hx. rewrite Heq in Hx. lia.
Qed.

(** The next event of an ascending list has a status none of the earlier
    ones has. *)
Lemma ascending_next_fresh p l j e :
  ascending (p :: l) -> l !! j = Some e ->
  status e ∉ map status (p :: take j l).
Proof.
  intros Hasc Hj (y & Heq & Hy)%list_elem_of_fmap.
  rewrite <- (take_drop_middle l j e Hj) in Hasc.
  change (p :: take j l ++ e :: drop (S j) l)
    with ((p :: take j l) ++ e :: drop (S j) l) in Hasc.
  eapply (ascending_distinct _ _ y e Hasc); [done|by left|done].
Qed.

End SortProperties.

Section GatewayProperties.

Import OrderSocket Stated Lifecycle.

Lemma sendUnsent_app l1 l2 c :
  sendUnsent (l1 ++ l2) c = sendUnsent l2 (sendUnsent l1 c).
Proof. apply foldl_app. Qed.

Lemma sendUnsent_stale l c :
  (∀ e, e ∈ l -> status e ∈ sent c) -> sendUnsent l c = c.
Proof.
  induction l as [|e l IH]; intros Hall; [done|]. simpl.
  rewrite bool_decide_eq_true_2 by (apply Hall; by left).
  apply IH. intros e' He'. apply Hall. by right.
Qed.

Lemma sendUnsent_fresh l c :
  NoDup (map status l) ->
  (∀ e, e ∈ l -> status e ∉ sent c) ->
  sendUnsent l c
  = mkConn (sent c ++ map status l) (backlogFlushed c) (buffer c) (socketOpen c)
      (if socketOpen c then frames c ++ l else frames c).
Proof.
  revert c. induction l as [|e l IH]; intros c Hnd Hall.
  { simpl. rewrite !app_nil_r. destruct c as [? ? ? []]; done. }
  simpl in *. apply NoDup_cons in Hnd as [He Hnd].
  rewrite bool_decide_eq_false_2 by (apply Hall; by left).
  fold (sendUnsent l (markAndSend e c)). rewrite IH; [|done|].
  - unfold markAndSend, set_add. simpl.
    rewrite decide_False by (apply Hall; by left).
    rewrite <- !app_assoc. simpl. by destruct (socketOpen c); rewrite <- ?app_assoc.
  - intros e' He'. unfold markAndSend, set_add. simpl.
    rewrite decide_False by (apply Hall; by left).
    rewrite elem_of_app, list_elem_of_singleton. intros [Hin|Heq].
    + apply (Hall e'); [by right|done].
    + apply He. rewrite <- Heq. apply list_elem_of_fmap. by exists e'.
Qed.

Lemma publish_calls id ev b :
  InMemoryEventBus.publish id ev b
  = map (λ h', (h', ev)) (default [] (InMemoryEventBus.handlers b !! id)).
Proof. unfold InMemoryEventBus.publish. by destruct (_ !! id). Qed.

Lemma dispatch_calls h ev hs c :
  dispatch h (map (λ h', (h', ev)) hs) c
  = foldl (λ c _, onEvent ev c) c (filter (λ x, x = h) hs).
Proof.
  revert c. induction hs as [|x hs IH]; intros c; [done|]. simpl.
  rewrite filter_cons. destruct (decide (x = h)) as [->|Hne]; simpl.
  - apply IH.
  - apply IH.
Qed.

Lemma dispatch_publish id h ev b c :
  dispatch h (InMemoryEventBus.publish id ev b) c
  = foldl (λ c _, onEvent ev c) c (mine id h b).
Proof. by rewrite publish_calls, dispatch_calls. Qed.

Lemma mine_subscribe id h b :
  mine id h b = [] -> mine id h (InMemoryEventBus.subscribe id h b) = [h].
Proof.
  unfold mine, InMemoryEventBus.subscribe. simpl. rewrite lookup_insert_eq. simpl.
  intros Hnone. unfold set_add.
  assert (h ∉ default [] (InMemoryEventBus.handlers b !! id)) as Hnot.
  { intros Hin. assert (h ∈ @nil Handler) as Hnil; [|by apply elem_of_nil in Hnil].
    rewrite <- Hnone. by apply list_elem_of_filter. }
  rewrite decide_False by done.
  rewrite filter_app, Hnone. simpl. rewrite filter_cons. by rewrite decide_True.
Qed.

Lemma filter_none {A} (P : A -> Prop) `{∀ x, Decision (P x)} (l : list A) :
  (∀ x, x ∈ l -> ¬ P x) -> filter P l = [].
Proof.
  induction l as [|x l IH]; intros Hall; [done|].
  rewrite filter_cons_False by (apply Hall; by left).
  apply IH. intros y Hy. apply Hall. by right.
Qed.

Lemma mine_unsubscribe id h b :
  mine id h b = [] ∨ mine id h b = [h] ->
  mine id h (InMemoryEventBus.unsubscribe id h b) = [].
Proof.
  unfold mine, InMemoryEventBus.unsubscribe. intros Hm.
  destruct (InMemoryEventBus.handlers b !! id) as [cur|] eqn:Hcur; simpl.
  - rewrite lookup_insert_eq. simpl. unfold set_delete.
    apply filter_none. by intros x [Hne _]%list_elem_of_filter.
  - by rewrite Hcur.
Qed.

(** *** The invariant of a run *)

Lemma counts_even j :
  appended (2 * j) = j ∧ published (2 * j) = j
  ∧ appended (S (2 * j)) = S j ∧ published (S (2 * j)) = j.
Proof.
  unfold appended, published.
  rewrite Nat.div2_double, Nat.div2_succ_double.
  replace (S (S (2 * j))) with (2 * S j) by lia. by rewrite Nat.div2_double.
Qed.

Lemma counts_odd j :
  appended (2 * j + 1) = S j ∧ published (2 * j + 1) = j
  ∧ appended (S (2 * j + 1)) = S j ∧ published (S (2 * j + 1)) = S j.
Proof.
  unfold appended, published.
  replace (2 * j + 1) with (S (2 * j)) by lia.
  replace (S (S (S (2 * j)))) with (S (2 * S j)) by lia.
  replace (S (S (2 * j))) with (2 * S j) by lia.
  by rewrite !Nat.div2_double, !Nat.div2_succ_double.
Qed.

Lemma published_le_appended n : published n <= appended n.
Proof.
  unfold appended, published.
  destruct (Nat.Even_or_Odd n) as [[j ->]|[j ->]].
  - rewrite Nat.div2_double, Nat.div2_succ_double. lia.
  - replace (2 * j + 1) with (S (2 * j)) by lia.
    replace (S (S (2 * j))) with (2 * S j) by lia.
    rewrite Nat.div2_double, Nat.div2_succ_double. lia.
Qed.

Lemma take_max_split {A} (l : list A) k b :
  take k l ++ drop k (take b l) = take (max k b) l.
Proof.
  destruct (decide (b <= k)) as [Hle|Hlt].
  - rewrite (drop_ge (take b l)) by (rewrite length_take; lia).
    rewrite app_nil_r. f_equal. lia.
  - replace (take k l) with (take k (take b l))
      by (rewrite take_take; f_equal; lia).
    rewrite take_drop. f_equal. lia.
Qed.

Lemma drop_take_split {A} (l : list A) i k b :
  i <= k -> b <= length l ->
  drop i (take b l) = drop i (take (min k b) l) ++ drop k (take b l).
Proof.
  intros Hik Hb.
  destruct (decide (b <= k)) as [Hle|Hlt].
  - rewrite (drop_ge (take b l) k) by (rewrite length_take; lia).
    rewrite app_nil_r. do 2 f_equal. lia.
  - rewrite <- (take_drop k (take b l)) at 1.
    rewrite take_take. rewrite drop_app_le by (rewrite length_take; lia).
    done.
Qed.

Section Run.

Variable id : string.
Variable h : Handler.
Variable p : OrderEvent.
Variable evs : list OrderEvent.
Hypothesis Hasc : ascending (p :: evs).

Lemma ascending_evs : ascending evs.
Proof. by apply StronglySorted_cons in Hasc as [_ ?]. Qed.

Lemma onEvent_idle_buffers e cn listener :
  idle cn listener ->
  onEvent e cn
  = mkConn (sent cn) (backlogFlushed cn) (buffer cn ++ [e]) (socketOpen cn) (frames cn).
Proof.
  intros (_ & Hsent & _ & Hfl). unfold onEvent. rewrite Hsent, Hfl.
  rewrite bool_decide_eq_false_2; [done|]. by intros ?%elem_of_nil.
Qed.

(** A worker event appended to the store. *)
Lemma invariant_append c j e :
  invariant id h p evs c ->
  workerDone c = 2 * j -> evs !! j = Some e ->
  invariant id h p evs
    (mkConfig (clientDone c) (S (workerDone c)) (perform id h (Append id e) (sys c))).
Proof.
  intros (Hstore & Hlen & Hmine & Hphase) Hn Hj.
  destruct (counts_even j) as (Ha & Hb & Ha' & Hb').
  unfold invariant in *.
  cbn [clientDone workerDone sys perform store bus conn backlog closeListener].
  rewrite Hn in *. rewrite Ha', Hb'. rewrite Ha, Hb in *.
  pose proof (lookup_lt_Some _ _ _ Hj) as Hjlen.
  split; [|by split; [lia|]].
  rewrite listEvents_appendEvent, Hstore, (take_S_r _ _ _ Hj).
  by rewrite app_assoc.
Qed.

(** A worker event published. *)
Lemma invariant_publish c j e :
  invariant id h p evs c ->
  workerDone c = 2 * j + 1 -> evs !! j = Some e ->
  invariant id h p evs
    (mkConfig (clientDone c) (S (workerDone c)) (perform id h (Publish id e) (sys c))).
Proof.
  intros (Hstore & Hlen & Hmine & Hphase) Hn Hj.
  destruct (counts_odd j) as (Ha & Hb & Ha' & Hb').
  pose proof (lookup_lt_Some _ _ _ Hj) as Hjlen.
  unfold invariant in *.
  cbn [clientDone workerDone sys perform store bus conn backlog closeListener].
  rewrite Hn in *. rewrite Ha', Hb'. rewrite Ha, Hb in *.
  split; [done|]. split; [done|]. split; [done|].
  rewrite dispatch_publish.
  destruct (clientDone c) as [|[|[|[|[|n]]]]]; simpl in *.
  - destruct Hphase as (Hm & ?). by rewrite Hm.
  - destruct Hphase as (Hm & ?). by rewrite Hm.
  - destruct Hphase as (Hm & ?). by rewrite Hm.
  - destruct Hphase as (i & Hm & Hidle & Hi & Hbuf). exists i.
    rewrite Hm. simpl. rewrite (onEvent_idle_buffers _ _ _ Hidle).
    repeat split; try done; simpl; try apply Hidle; [lia|].
    rewrite Hbuf, (take_S_r _ _ _ Hj).
    by rewrite drop_app_le by (rewrite length_take; lia).
  - destruct Hphase as (i & k & lg & (Hm & Hidle & Hi & Hbuf) & Hbl & Hlg & Hik & Hk).
    exists i, k, lg. rewrite Hm. simpl. rewrite (onEvent_idle_buffers _ _ _ Hidle).
    repeat split; try done; simpl; try apply Hidle; [lia|].
    rewrite Hbuf, (take_S_r _ _ _ Hj).
    by rewrite drop_app_le by (rewrite length_take; lia).
  - destruct Hphase as (m & Hfl & Hsent & Hbm & Hpre & Hopen & Hmlen).
    destruct Hmine as [Hm|Hm]; rewrite Hm in *; simpl.
    { exists m. repeat split; try done. intros Hc. by rewrite Hm in Hc. }
    specialize (Hbm eq_refl).
    destruct (decide (j < m)) as [Hlt|Hge].
    + exists m. unfold onEvent.
      rewrite bool_decide_eq_true_2.
      * by repeat split.
      * rewrite Hsent. apply list_elem_of_fmap. exists e. split; [done|].
        right. apply elem_of_take. by exists j.
    + assert (m = j) as -> by lia. exists (S j). unfold onEvent.
      rewrite bool_decide_eq_false_2
        by (rewrite Hsent; by apply ascending_next_fresh).
      rewrite Hfl. simpl. unfold markAndSend, streaming. simpl.
      rewrite Hfl, Hsent, (take_S_r _ _ _ Hj).
      assert (set_add (status e) (map status (p :: take j evs))
              = status p :: map status (take j evs ++ [e])) as ->.
      { unfold set_add. rewrite decide_False.
        - simpl. by rewrite map_app.
        - by apply (ascending_next_fresh p evs j e). }
      repeat split; try done.
      * destruct (socketOpen (conn (sys c))).
        -- rewrite Hopen by done. done.
        -- etransitivity; [exact Hpre|].
           apply (prefix_app_r _ (p :: take j evs) [e]). done.
      * intros Ho. rewrite Ho, Hopen by done. done.
Qed.

(** The backlog is delivered and the buffer flushed. *)
Lemma deliverBacklog_streams i k b lg bs cn listener :
  buffering id h evs i b bs cn listener ->
  lg ≡ₚ p :: take k evs -> i <= k -> k <= length evs -> b <= length evs ->
  streaming id h p evs (max k b) b bs (deliverBacklog lg cn).
Proof.
  intros (Hm & (_ & Hsent & Hframes & Hfl) & Hib & Hbuf) Hlg Hik Hk Hb.
  unfold deliverBacklog.
  rewrite (sortByLifecycle_of_perm lg (p :: take k evs));
    [|by apply ascending_cons_take|done].
  rewrite (sendUnsent_fresh (p :: take k evs) cn);
    [|by apply ascending_NoDup, ascending_cons_take
     |intros e _; rewrite Hsent; by intros ?%elem_of_nil].
  rewrite Hsent, Hframes, Hbuf. simpl.
  rewrite (sortByLifecycle_ascending (drop i (take b evs)))
    by apply ascending_drop, ascending_take, ascending_evs.
  rewrite (drop_take_split evs i k b) by done.
  rewrite sendUnsent_app.
  rewrite (sendUnsent_stale (drop i (take (min k b) evs))).
  2:{ intros e He. cbn [sent]. right. apply list_elem_of_fmap. exists e. split; [done|].
      apply list_elem_of_lookup in He as [n Hn]. rewrite lookup_drop in Hn.
      apply lookup_take_Some in Hn as [Hn Hlt]. apply elem_of_take.
      exists (i + n). split; [done|lia]. }
  rewrite sendUnsent_fresh.
  2:{ by apply ascending_NoDup, ascending_drop, ascending_take, ascending_evs. }
  2:{ intros e He. cbn [sent].
      apply list_elem_of_lookup in He as [n Hn]. rewrite lookup_drop in Hn.
      apply lookup_take_Some in Hn as [Hn Hlt].
      change (status p :: map status (take k evs))
        with (map status (p :: take k evs)).
      intros (y & Heq & Hy)%list_elem_of_fmap.
      assert (ascending ((p :: take k evs) ++ drop k evs)) as Hsplit
        by (simpl; by rewrite take_drop).
      eapply (ascending_distinct _ _ y e Hsplit); [done| |done].
      apply list_elem_of_lookup. exists n. by rewrite lookup_drop. }
  unfold streaming. simpl.
  rewrite <- (take_max_split evs k b).
  repeat split.
  - by rewrite map_app.
  - intros _. lia.
  - by destruct (socketOpen cn); [|apply prefix_nil].
  - by intros ->.
  - lia.
Qed.

(** A step of the client: the submission path emitting [pending], then
    the connection. *)
Lemma invariant_client c a :
  submitAndConnect id p !! clientDone c = Some a ->
  invariant id h p evs c ->
  invariant id h p evs
    (mkConfig (S (clientDone c)) (workerDone c) (perform id h a (sys c))).
Proof.
  intros Ha (Hstore & Hlen & Hmine & Hphase).
  unfold invariant in *.
  destruct (clientDone c) as [|[|[|[|[|n]]]]]; simpl in Ha; simplify_eq;
    cbn [clientDone workerDone sys perform store bus conn backlog closeListener];
    simpl in Hstore, Hphase.
  - (* appendEvent(pending) *)
    rewrite listEvents_appendEvent, Hstore. split; [|done].
    simpl. by rewrite Permutation_app_comm.
  - (* publish(pending): the connection is not subscribed yet *)
    rewrite dispatch_publish.
    destruct Hphase as (Hm & (? & ? & ? & ?) & Hbuf). rewrite Hm. simpl.
    repeat split; try done. by left.
  - (* subscribe *)
    destruct Hphase as (Hm & Hidle & Hbuf).
    pose proof (mine_subscribe id h _ Hm) as Hm'.
    split; [done|]. split; [done|]. split; [by right|].
    exists (published (workerDone c)). destruct Hidle as (? & ? & ? & ?).
    repeat split; try done.
    rewrite Hbuf. symmetry. apply drop_ge. rewrite length_take. lia.
  - (* listEvents *)
    destruct Hphase as (i & Hbuf).
    split; [done|]. split; [done|]. split; [done|].
    exists i, (appended (workerDone c)),
      (InMemoryActiveOrderStore.listEvents id (store (sys c))).
    split; [exact Hbuf|]. split; [done|]. split; [done|].
    destruct Hbuf as (_ & _ & Hi & _).
    pose proof (published_le_appended (workerDone c)). split; [lia|done].
  - (* the backlog is delivered *)
    destruct Hphase as (i & k & lg & Hbuf & Hbl & Hlg & Hik & Hk). rewrite Hbl.
    cbn [clientDone workerDone sys perform store bus conn backlog closeListener].
    split; [done|]. split; [done|]. split; [done|].
    exists (max k (published (workerDone c))).
    pose proof (published_le_appended (workerDone c)).
    apply (deliverBacklog_streams i k _ lg _ _ (closeListener (sys c))); try done.
    lia.
Qed.

(** The socket closes. *)
Lemma invariant_close c :
  invariant id h p evs c ->
  invariant id h p evs
    (mkConfig (clientDone c) (workerDone c) (socketCloses id h (sys c))).
Proof.
  intros (Hstore & Hlen & Hmine & Hphase).
  unfold invariant in *.
  cbn [clientDone workerDone sys socketCloses store bus conn backlog closeListener].
  split; [done|]. split; [done|].
  assert (mine id h (if closeListener (sys c)
                     then InMemoryEventBus.unsubscribe id h (bus (sys c))
                     else bus (sys c)) = []
          ∨ (closeListener (sys c) = false
             ∧ mine id h (if closeListener (sys c)
                          then InMemoryEventBus.unsubscribe id h (bus (sys c))
                          else bus (sys c)) = mine id h (bus (sys c)))) as Hbus.
  { destruct (closeListener (sys c)); [left; by apply mine_unsubscribe | by right]. }
  split.
  { destruct Hbus as [->|[_ ->]]; [by left|done]. }
  destruct (clientDone c) as [|[|[|[|[|n]]]]]; simpl in *.
  1-3: destruct Hphase as (Hm & (Hcl & ? & ? & ?) & Hbuf); rewrite Hcl in *;
       by repeat split.
  - destruct Hphase as (i & Hm & (Hcl & ? & ? & ?) & ? & ?). rewrite Hcl in *.
    exists i. by repeat split.
  - destruct Hphase
      as (i & k & lg & (Hm & (Hcl & ? & ? & ?) & ? & ?) & ? & ? & ? & ?).
    rewrite Hcl in *. exists i, k, lg. by repeat split.
  - destruct Hphase as (m & Hfl & Hsent & Hbm & Hpre & Hopen & Hmlen). exists m.
    repeat split; try done. destruct Hbus as [Hnone|[_ Hsame]].
    + intros Hc. by rewrite Hnone in Hc.
    + by rewrite Hsame.
Qed.

(** The invariant looks at the events emitted so far only: it still
    holds when the job goes on to emit [e]. *)
Lemma invariant_extend c e :
  invariant id h p evs c -> invariant id h p (evs ++ [e]) c.
Proof.
  intros (Hstore & Hlen & Hmine & Hphase).
  pose proof (published_le_appended (workerDone c)) as Hpub.
  assert (∀ k, k <= length evs -> take k (evs ++ [e]) = take k evs) as Htake.
  { intros k Hk. by rewrite take_app_le. }
  unfold invariant. rewrite length_app. simpl.
  split_and!; [by rewrite Htake|lia|done|].
  destruct (clientDone c) as [|[|[|[|[|n]]]]]; simpl in *; try done.
  - destruct Hphase as (i & Hm & Hidle & Hi & Hbuf). exists i.
    unfold buffering. by rewrite Htake by lia.
  - destruct Hphase as (i & k & lg & (Hm & Hidle & Hi & Hbuf) & Hbl & Hlg & Hik & Hk).
    exists i, k, lg. unfold buffering. rewrite !Htake by lia.
    split_and!; try done. rewrite length_app. lia.
  - destruct Hphase as (m & Hfl & Hsent & Hb & Hpre & Hopen & Hm).
    exists m. unfold streaming. rewrite !Htake by lia.
    split_and!; try done. rewrite length_app. lia.
Qed.

Lemma invariant_initial st bs :
  InMemoryActiveOrderStore.listEvents id st = [] ->
  h ∉ default [] (InMemoryEventBus.handlers bs !! id) ->
  invariant id h p evs (mkConfig 0 0 (mkSys st bs newConn None false)).
Proof.
  intros Hlog Hh. unfold invariant. simpl.
  assert (mine id h bs = []) as Hm.
  { apply filter_none. by intros x Hx ->. }
  change (appended 0) with 0. rewrite Hlog, take_0.
  repeat split; try done; [lia | by left].
Qed.

(** What the invariant says of the frames sent. *)
Lemma invariant_frames c :
  invariant id h p evs c ->
  map status (frames (conn (sys c))) `prefix_of` map status (p :: evs)
  ∧ NoDup (map status (frames (conn (sys c)))).
Proof.
  intros (_ & _ & _ & Hphase).
  assert (frames (conn (sys c)) `prefix_of` p :: evs) as [rest Hrest].
  { destruct (clientDone c) as [|[|[|[|[|n]]]]]; simpl in Hphase.
    1-3: destruct Hphase as (_ & (_ & _ & -> & _) & _); apply prefix_nil.
    - destruct Hphase as (i & _ & (_ & _ & -> & _) & _). apply prefix_nil.
    - destruct Hphase as (i & k & lg & (_ & (_ & _ & -> & _) & _) & _). apply prefix_nil.
    - destruct Hphase as (m & _ & _ & _ & Hpre & _ & _).
      etransitivity; [exact Hpre|]. apply prefix_cons, prefix_take. }
  split.
  - exists (map status rest). by rewrite Hrest, map_app.
  - pose proof (ascending_NoDup _ Hasc) as Hnd.
    rewrite Hrest, map_app in Hnd. by apply NoDup_app in Hnd as [? _].
Qed.

End Run.

End GatewayProperties.

(** ** The job, operation by operation *)

Section JobProperties.

Import OrderSocket Stated Lifecycle WorkerSteps.

Variable order : Order.

Lemma safe_mono q : ∀ awaited emitted (post post' : Outcome unit -> list OrderStatus -> Prop),
  (∀ r l, post r l -> post' r l) ->
  safe order awaited q emitted post -> safe order awaited q emitted post'.
Proof.
  induction q as [|err|id' k IH|id' k IH|k IH|e k IH];
    intros awaited emitted post post' Hpost; simpl.
  - intros [? ?]. auto.
  - intros [? ?]. auto.
  - intros (? & ? & Hk). split_and!; [done..|]. intros events Hev. eapply IH; eauto.
  - intros (? & ? & Hk). split_and!; [done..|]. eapply IH; eauto.
  - intros (? & Hk). split; [done|]. intros now. eapply IH; eauto.
  - destruct e; try done; intros Hs; destruct_and?; split_and?; try done;
      eapply IH; eauto.
Qed.

Lemma safe_andThen q1 q2 : ∀ awaited emitted post,
  safe order awaited q1 emitted
    (λ r l, match r with
            | Resolved _ => safe order None q2 l post
            | Rejected err => post (Rejected err) l
            end) ->
  safe order awaited (andThen q1 q2) emitted post.
Proof.
  induction q1 as [|err|id' k IH|id' k IH|k IH|e k IH];
    intros awaited emitted post; simpl.
  - by intros [-> ?].
  - done.
  - intros (? & ? & Hk). split_and!; [done..|]. intros events Hev. by apply IH, Hk.
  - intros (? & ? & Hk). split_and!; [done..|]. by apply IH.
  - intros (? & Hk). split; [done|]. intros now. by apply IH.
  - destruct e; try done; intros Hs; destruct_and?; split_and?; try done;
      by apply IH.
Qed.

Lemma safe_catch q handler : ∀ awaited emitted post,
  safe order awaited q emitted
    (λ r l, match r with
            | Resolved _ => post (Resolved tt) l
            | Rejected err => safe order None (handler err) l post
            end) ->
  safe order awaited (catch q handler) emitted post.
Proof.
  induction q as [|err|id' k IH|id' k IH|k IH|e k IH];
    intros awaited emitted post; simpl.
  - done.
  - by intros [-> ?].
  - intros (? & ? & Hk). split_and!; [done..|]. intros events Hev. by apply IH, Hk.
  - intros (? & ? & Hk). split_and!; [done..|]. by apply IH.
  - intros (? & Hk). split; [done|]. intros now. by apply IH.
  - destruct e; try done; intros Hs; destruct_and?; split_and?; try done;
      by apply IH.
Qed.

Lemma safe_emitEvent ev emitted (post : Outcome unit -> list OrderStatus -> Prop) :
  ev_orderId ev = orderId order ->
  mayFollow emitted (status ev) ->
  post (Resolved tt) (emitted ++ [status ev]) ->
  safe order None (emitEvent ev) emitted post.
Proof. intros Hid Hs Hpost. simpl. by rewrite Hid. Qed.

Lemma records_hasStatus events emitted s :
  records events emitted -> s ≠ pending ->
  OrderWorker.hasStatus events s = bool_decide (s ∈ emitted).
Proof.
  intros Hrec Hs. rewrite hasStatus_elem_of.
  apply bool_decide_ext. by apply Hrec.
Qed.

Lemma records_not_terminal events emitted :
  records events emitted -> confirmed ∉ emitted -> failed ∉ emitted ->
  bool_decide (OrderWorker.lastStatus events = Some confirmed)
  || bool_decide (OrderWorker.lastStatus events = Some failed) = false.
Proof.
  intros Hrec Hc Hf. rewrite lastStatus_last.
  apply orb_false_intro; apply bool_decide_eq_false_2; intros Hl;
    apply last_Some_elem_of in Hl; apply Hrec in Hl; done.
Qed.

Lemma safe_processOrderOnce router emitted :
  emitted = [] ∨ emitted = [routing] ∨ emitted = [routing; building; submitted] ->
  safe order None (processOrderOnce router order) emitted rejectedAfter.
Proof.
  intros Hstart. unfold processOrderOnce. simpl.
  split_and!; [done..|]. intros events Hrec.
  rewrite (records_not_terminal _ _ Hrec).
  2,3: by destruct Hstart as [->|[->| ->]]; not_listed.
  unfold emitUnlessRecorded.
  rewrite !(records_hasStatus _ _ _ Hrec) by done.
  destruct (route router order) as [decision|err];
    [destruct (executeSwap router (dex (chosen decision)) order
                 (price (chosen decision))) as [ex|err]|];
    destruct Hstart as [->|[->| ->]]; decide_listed; simpl; straight.
  all: match goal with
       | H : records _ _ |- safe _ _ (if OrderWorker.hasStatus _ _ then _ else _) _ _ =>
           rewrite (records_hasStatus _ _ _ H) by done
       end;
       decide_listed; simpl; straight.
Qed.

Lemma safe_retryLoop run maxAttempts baseBackoffMs fuel : ∀ attempt emitted,
  (∀ a l,
     l = [] ∨ l = [routing] ∨ l = [routing; building; submitted] ->
     safe order None (run a) l rejectedAfter) ->
  emitted = [] ∨ emitted = [routing] ∨ emitted = [routing; building; submitted] ->
  safe order None (retryLoop fuel attempt maxAttempts baseBackoffMs run) emitted
    rejectedAfter.
Proof.
  induction fuel as [|fuel IH]; intros attempt emitted Hrun Hstart; simpl; [done|].
  destruct (attempt <=? maxAttempts)%Z; [|done].
  apply safe_catch. eapply safe_mono; [|by apply Hrun].
  intros [[]|err] l Hl; [done|]. simpl in Hl.
  destruct (attempt >=? maxAttempts)%Z; simpl; [done|].
  split_and!; [done..|]. apply IH; [done|by right].
Qed.

(** The job of a stored order that has emitted nothing yet is safe. *)
Lemma safe_executeOrderJob routerAt :
  safe order None (executeOrderJob routerAt (orderId order)) [] (λ _ _, True).
Proof.
  unfold executeOrderJob, runWithRetries. cbn [safe]. split_and!; [done..|].
  apply safe_catch. eapply safe_mono.
  2: { apply safe_retryLoop; [|by left]. intros a l Hl. by apply safe_processOrderOnce. }
  intros [[]|err] l Hl; [done|]. simpl in Hl. simpl.
  split; [done|]. intros now. split_and!; [done..|]. intros events Hrec.
  rewrite (records_hasStatus _ _ _ Hrec) by done.
  destruct Hl as [->| ->]; decide_listed; simpl; straight.
Qed.

End JobProperties.

(** ** The lifecycle a connection sees *)

Section LifecycleProperties.

Import OrderWorker OrderSocket StatusModel Stated Lifecycle.

Lemma jobStatuses_canonical k1 k2 k3 :
  pending :: jobStatuses [] k1 k2 k3 ∈ canonicalSequences.
Proof.
  unfold canonicalSequences.
  destruct k1, k2, k3; vm_compute;
    repeat (first [apply list_elem_of_here | apply list_elem_of_further]).
Qed.

Lemma ascending_of_statuses evs :
  StronglySorted (λ a b, (statusRank a < statusRank b)%Z) (map status evs) ->
  ascending evs.
Proof.
  induction evs as [|e evs IH]; intros Hs; [constructor|].
  simpl in Hs. apply StronglySorted_cons in Hs as [He Hs].
  constructor; [by apply IH|].
  rewrite Forall_forall in He. apply Forall_forall. intros y Hy.
  apply He, list_elem_of_fmap. by exists y.
Qed.

Lemma clientThread_actions clock id w :
  clientThread clock id w
  = submitAndConnect id (mkOrderEvent id pending (clock (ticks w)) NoDetail).
Proof.
  unfold clientThread, OrdersApi.emitPending. simpl.
  rewrite <- app_assoc, drop_app_length. done.
Qed.

Lemma lifecyclePrefix_ascending evs :
  lifecyclePrefix (map status evs) -> ascending evs.
Proof.
  intros (full & Hin & rest & Heq). apply ascending_of_statuses.
  apply (StronglySorted_app_1_l _ _ rest). rewrite <- Heq. clear Heq.
  unfold canonicalSequences in Hin.
  repeat (apply elem_of_cons in Hin as [->|Hin]);
    [..|by apply elem_of_nil in Hin];
    repeat (constructor; simpl; try lia).
Qed.

Lemma lifecyclePrefix_pending s l : lifecyclePrefix (s :: l) -> s = pending.
Proof.
  intros (full & Hin & rest & ->). unfold canonicalSequences in Hin.
  repeat (apply elem_of_cons in Hin as [Hin|Hin]; [by inversion Hin|]).
  by apply elem_of_nil in Hin.
Qed.

Lemma getActiveOrder_perform id h a s :
  InMemoryActiveOrderStore.getActiveOrder id (store (perform id h a s))
  = InMemoryActiveOrderStore.getActiveOrder id (store s).
Proof. destruct a; try done. simpl. by destruct (backlog s). Qed.

Section Run.

Variable order : Order.
Variable h : Handler.
Variable p : OrderEvent.
Variable clock : nat -> Z.

(** The log read by the job records the statuses it has emitted. *)
Lemma invariant_records evs n st :
  invariant (orderId order) h p evs (mkConfig n (2 * length evs) st) ->
  status p = pending ->
  records (InMemoryActiveOrderStore.listEvents (orderId order) (store st))
    (map status evs).
Proof.
  intros (Hstore & _) Hp s Hs. cbn [sys clientDone workerDone] in Hstore.
  destruct (counts_even (length evs)) as (Ha & _). rewrite Ha, firstn_all in Hstore.
  rewrite Hstore, map_app, elem_of_app.
  split; [|by right]. intros [Hin|Hin]; [|done].
  destruct (decide (1 <= n)); [|by apply elem_of_nil in Hin].
  apply list_elem_of_singleton in Hin. congruence.
Qed.

Lemma jobInvariant_initial routerAt w :
  InMemoryActiveOrderStore.getActiveOrder (orderId order) (activeStore w) = Some order ->
  InMemoryActiveOrderStore.listEvents (orderId order) (activeStore w) = [] ->
  h ∉ default [] (InMemoryEventBus.handlers (eventBus w) !! orderId order) ->
  status p = pending ->
  jobInvariant order h p (initial routerAt (orderId order) w).
Proof.
  intros Hget Hlog Hfresh Hp. exists [], None.
  split_parts; [by apply invariant_initial| |done|apply safe_executeOrderJob|done].
  simpl. rewrite Hp. exists [pending; routing; failed].
  split; [listed|by eexists].
Qed.

Lemma jobInvariant_step st st' :
  step (orderId order) h clock (submitAndConnect (orderId order) p) st st' ->
  jobInvariant order h p st -> jobInvariant order h p st'.
Proof.
  intros Hstep (evs & awaited & Hinv & Hpre & Hget & Hsafe & Hlast).
  pose proof (lifecyclePrefix_ascending (p :: evs) Hpre) as Hasc.
  pose proof (lifecyclePrefix_pending _ _ Hpre) as Hp.
  destruct Hstep as [st a Ha|st q t s Hnext|st].
  - exists evs, awaited. cbn [job shared atClient readings].
    split_parts; [|done| |done..].
    + by apply (invariant_client _ h p evs Hasc (mkConfig _ _ _) a).
    + by rewrite getActiveOrder_perform.
  - destruct (job st) as [|err|id' k|id' k|k|e k] eqn:Hjob;
      simpl in Hnext, Hsafe; simplify_eq.
    + destruct Hsafe as (-> & -> & Hk). exists evs, None. cbn [job shared atClient readings].
      split_parts; [done..| |done].
      apply Hk. apply (invariant_records evs (atClient st)); [|done].
      by rewrite Nat.sub_0_r in Hinv.
    + destruct Hsafe as (-> & -> & Hk). exists evs, None. cbn [job shared atClient readings].
      rewrite Hget. done.
    + destruct Hsafe as (-> & Hk). exists evs, None. cbn [job shared atClient readings]. done.
    + destruct e as [o|id' e|id' e| | | | | | |]; try done.
      * destruct Hsafe as (-> & -> & Hmay & Hk).
        assert (lifecyclePrefix (map status (p :: evs ++ [e]))) as Hpre'.
        { simpl. by rewrite map_app, Hp. }
        exists (evs ++ [e]), (Some e). cbn [job shared atClient readings].
        split_parts; [|done|done|by rewrite map_app|by rewrite last_snoc].
        rewrite Nat.sub_0_r in Hinv. apply (invariant_extend _ _ _ _ _ e) in Hinv.
        replace (2 * length (evs ++ [e]) - 1) with (S (2 * length evs))
          by (rewrite length_app; simpl; lia).
        apply (invariant_append _ h p (evs ++ [e]) (mkConfig _ _ _) (length evs) e);
          [done..|].
        by rewrite lookup_app_r, Nat.sub_diag.
      * destruct Hsafe as (-> & -> & Hk).
        apply last_Some in Hlast as [evs0 ->].
        exists (evs0 ++ [e]), None. cbn [job shared atClient readings].
        split_parts; [|done..].
        replace (2 * length (evs0 ++ [e]) - 0) with (S (2 * length evs0 + 1))
          by (rewrite length_app; simpl; lia).
        replace (2 * length (evs0 ++ [e]) - 1) with (2 * length evs0 + 1) in Hinv
          by (rewrite length_app; simpl; lia).
        apply (invariant_publish _ h p (evs0 ++ [e]) Hasc (mkConfig _ _ _)
                 (length evs0) e); [done..|].
        by rewrite lookup_app_r, Nat.sub_diag.
      * destruct Hsafe as (-> & Hk). by exists evs, None.
      * destruct Hsafe as (-> & Hk). by exists evs, None.
      * destruct Hsafe as (-> & Hk). by exists evs, None.
      * destruct Hsafe as (-> & Hk). by exists evs, None.
      * destruct Hsafe as (-> & Hk). by exists evs, None.
      * destruct Hsafe as (-> & Hk). by exists evs, None.
      * destruct Hsafe as (-> & Hk). by exists evs, None.
  - exists evs, awaited. cbn [job shared atClient readings].
    split_parts; [|done..].
    by apply (invariant_close _ h p evs (mkConfig _ _ _)).
Qed.

Lemma jobInvariant_reachable st st' :
  rtc (step (orderId order) h clock (submitAndConnect (orderId order) p)) st st' ->
  jobInvariant order h p st -> jobInvariant order h p st'.
Proof. induction 1; eauto using jobInvariant_step. Qed.

(** What the invariant says of the frames sent. *)
Lemma jobInvariant_frames st :
  jobInvariant order h p st ->
  lifecyclePrefix (map status (frames (conn (shared st))))
  ∧ NoDup (map status (frames (conn (shared st)))).
Proof.
  intros (evs & awaited & Hinv & Hpre & _).
  pose proof (lifecyclePrefix_ascending (p :: evs) Hpre) as Hasc.
  destruct (invariant_frames _ h p evs Hasc _ Hinv) as [Hfr Hnd].
  split; [|done]. destruct Hpre as (full & Hin & Hfull).
  exists full. split; [done|]. by etransitivity.
Qed.

End Run.

Lemma runSchedule_reachable id h clock client schedule st :
  rtc (step id h clock client) st (runSchedule id h clock client schedule st).
Proof.
  revert st. induction schedule as [|m schedule IH]; intros st; [done|].
  unfold runSchedule. simpl. fold (runSchedule id h clock client schedule).
  etransitivity; [|apply IH].
  destruct m; simpl.
  - destruct (client !! atClient st) as [a|] eqn:Ha; [|done].
    apply rtc_once. by apply step_client.
  - destruct (jobNext id h clock (job st) (readings st) (shared st))
      as [[[q t] s]|] eqn:Hnext; [|done].
    apply rtc_once. by apply step_job.
  - apply rtc_once. apply step_close.
Qed.

(** C1: take an order that is stored with an empty log, its job, run
    with any router and any clock, and a connection for the order opened
    with the identifier the submission path answers with, after it has
    emitted [pending]. However the operations of the job (its reads of
    the store and the clock included), of the submission path and of the
    connection interleave, and whenever the socket closes, at every
    moment the statuses of the frames sent on the connection are a prefix
    of [pending, routing, building, submitted, confirmed], of [pending,
    routing, failed] or of [pending, routing, building, submitted,
    failed], and no status occurs twice. *)
Theorem connection_sees_lifecycle_prefix (clockApi clock : nat -> Z)
    (routerAt : Z -> Router) (order : Order) (w : World) (h : Handler)
    (st : State) :
  let id := orderId order in
  InMemoryActiveOrderStore.getActiveOrder id (activeStore w) = Some order ->
  InMemoryActiveOrderStore.listEvents id (activeStore w) = [] ->
  h ∉ default [] (InMemoryEventBus.handlers (eventBus w) !! id) ->
  rtc (step id h clock (clientThread clockApi id w)) (initial routerAt id w) st ->
  lifecyclePrefix (map status (frames (conn (shared st))))
  ∧ NoDup (map status (frames (conn (shared st)))).
Proof.
  intros id Hget Hlog Hfresh Hrun.
  rewrite clientThread_actions in Hrun.
  set (p := mkOrderEvent id pending (clockApi (ticks w)) NoDetail) in *.
  apply (jobInvariant_frames order h p).
  apply (jobInvariant_reachable order h p clock _ _ Hrun).
  by apply jobInvariant_initial.
Qed.

Lemma connection_sees_lifecycle_prefix_witness :
  lifecyclePrefix (map status (frames (conn (shared raceRun))))
  ∧ NoDup (map status (frames (conn (shared raceRun)))).
Proof.
  apply (connection_sees_lifecycle_prefix clock0 clock0 (λ _, workingRouter)
           order1 worldEnqueued 7 raceRun).
  - by vm_compute.
  - by vm_compute.
  - vm_compute. by intros ?%elem_of_nil.
  - apply runSchedule_reachable.
Defined.

(** In that run the job emits [routing] before the submission path emits
    [pending]; the connection still sends the five statuses in order, the
    store has them in the order they were appended, and the job has
    finished. *)
Example raceRun_frames :
  map status (frames (conn (shared raceRun)))
  = [pending; routing; building; submitted; confirmed]
  ∧ map status (InMemoryActiveOrderStore.listEvents "order-1" (store (shared raceRun)))
    = [routing; pending; building; submitted; confirmed]
  ∧ job raceRun = WorkerSteps.Done.
Proof. by vm_compute. Qed.

End LifecycleProperties.

(** * Further properties of the sources *)

(** ** The in-memory active-order store *)

Section ActiveStoreProperties.

Import InMemoryActiveOrderStore.

(** X1: [putActiveOrder] makes the order retrievable under its identifier,
    replacing an order stored there before; the orders under other
    identifiers stay as they are, and no event log changes: putting an
    order again keeps the history it has. *)
Theorem putActiveOrder_keeps_log (order : Order) (st : t) (id : string) :
  getActiveOrder id (putActiveOrder order st)
  = (if decide (id = orderId order) then Some order else getActiveOrder id st)
  ∧ listEvents id (putActiveOrder order st) = listEvents id st.
Proof.
  unfold getActiveOrder, listEvents, putActiveOrder. simpl. split.
  - destruct (decide (id = orderId order)) as [->|Hne].
    + by rewrite lookup_insert_eq.
    + by rewrite lookup_insert_ne.
  - destruct (events st !! orderId order) as [l|] eqn:Hl; [done|].
    destruct (decide (id = orderId order)) as [->|Hne].
    + by rewrite lookup_insert_eq, Hl.
    + by rewrite lookup_insert_ne.
Qed.

(** X2: whatever appends are made, to whatever orders, the log of an
    order is its old log followed by the events appended to it, in the
    order of the appends; an append never makes an order active nor
    changes a stored order. *)
Theorem appendAll_listEvents (apps : list (string * OrderEvent)) (st : t)
    (id : string) :
  listEvents id (Runs.appendAll apps st)
  = listEvents id st ++ (filter (λ a, a.1 = id) apps).*2
  ∧ getActiveOrder id (Runs.appendAll apps st) = getActiveOrder id st.
Proof.
  revert st. induction apps as [|[id' ev] apps IH]; intros st.
  - simpl. by rewrite app_nil_r.
  - unfold Runs.appendAll in *. simpl.
    destruct (IH (appendEvent id' ev st)) as [-> ->]. split; [|done].
    rewrite filter_cons. simpl. destruct (decide (id' = id)) as [->|Hne].
    + rewrite listEvents_appendEvent. simpl. by rewrite <- app_assoc.
    + by rewrite listEvents_appendEvent_ne.
Qed.

End ActiveStoreProperties.

(** ** The socket mapping kept in memory *)

Section SocketMappingProperties.

Import Runs.

Lemma NoDup_set_add {A} `{EqDecision A} (x : A) (s : Datatypes.list A) :
  NoDup s -> NoDup (set_add x s).
Proof.
  intros Hs. unfold set_add. destruct (decide (x ∈ s)); [done|].
  apply NoDup_app. split_and!; [done| |apply NoDup_singleton].
  intros y Hy ->%list_elem_of_singleton. done.
Qed.

Lemma NoDup_set_delete {A} `{EqDecision A} (x : A) (s : Datatypes.list A) :
  NoDup s -> NoDup (set_delete x s).
Proof. apply NoDup_filter. Qed.

Lemma list_add id i c st :
  InMemorySocketMappingStore.list id (InMemorySocketMappingStore.add i c st)
  = if decide (id = i) then set_add c (InMemorySocketMappingStore.list i st)
    else InMemorySocketMappingStore.list id st.
Proof.
  unfold InMemorySocketMappingStore.list, InMemorySocketMappingStore.add. simpl. destruct (decide (id = i)) as [->|Hne].
  - by rewrite lookup_insert_eq.
  - by rewrite lookup_insert_ne.
Qed.

Lemma list_remove id i c st :
  InMemorySocketMappingStore.list id (InMemorySocketMappingStore.remove i c st)
  = if decide (id = i) then set_delete c (InMemorySocketMappingStore.list i st)
    else InMemorySocketMappingStore.list id st.
Proof.
  unfold InMemorySocketMappingStore.list, InMemorySocketMappingStore.remove.
  destruct (InMemorySocketMappingStore.m st !! i) as [set|] eqn:Hset; simpl.
  - destruct (decide (id = i)) as [->|Hne].
    + by rewrite lookup_insert_eq.
    + by rewrite lookup_insert_ne.
  - by destruct (decide (id = i)) as [->|Hne]; [rewrite Hset|].
Qed.

Lemma mapped_snoc id c ops op :
  mapped id c (ops ++ [op])
  = match op with
    | MapAdd i x => if decide (i = id ∧ x = c) then true else mapped id c ops
    | MapRemove i x => if decide (i = id ∧ x = c) then false else mapped id c ops
    end.
Proof. unfold mapped. rewrite foldl_app. by destruct op. Qed.

(** X3: after any sequence of [add] and [remove] on an empty mapping,
    [list] names no connection twice, and it names a connection of an
    order exactly when the last operation on that connection of that
    order was an [add]: adding twice is adding once, and removing what is
    not there, or from an order that is not there, changes nothing. *)
Theorem runMapping_list (ops : Datatypes.list MappingOp) (id : string) :
  NoDup (InMemorySocketMappingStore.list id
           (runMapping ops InMemorySocketMappingStore.empty))
  ∧ ∀ c, c ∈ InMemorySocketMappingStore.list id
               (runMapping ops InMemorySocketMappingStore.empty)
         ↔ mapped id c ops = true.
Proof.
  induction ops as [|op ops [IHnd IHin]] using rev_ind.
  - split; [constructor|]. intros c. split; [by intros ?%elem_of_nil|done].
  - unfold runMapping in *. rewrite foldl_app. simpl.
    destruct op as [i x|i x]; simpl.
    + rewrite list_add. destruct (decide (id = i)) as [->|Hne].
      * split; [by apply NoDup_set_add|]. intros c.
        rewrite elem_of_set_add, IHin, mapped_snoc.
        destruct (decide (i = i ∧ x = c)) as [[_ ->]|Hn].
        -- split; [done|by intros _; left].
        -- split; [|by intros ?; right]. intros [->|?]; [|done]. by destruct Hn.
      * split; [done|]. intros c. rewrite IHin, mapped_snoc.
        destruct (decide (i = id ∧ x = c)) as [[-> _]|Hn]; done.
    + rewrite list_remove. destruct (decide (id = i)) as [->|Hne].
      * split; [by apply NoDup_set_delete|]. intros c.
        rewrite elem_of_set_delete, IHin, mapped_snoc.
        destruct (decide (i = i ∧ x = c)) as [[_ ->]|Hn].
        -- split; [by intros [? _]|done].
        -- split; [by intros [_ ?]|]. intros Hm. split; [|done].
           intros ->. by destruct Hn.
      * split; [done|]. intros c. rewrite IHin, mapped_snoc.
        destruct (decide (i = id ∧ x = c)) as [[-> _]|Hn]; done.
Qed.

End SocketMappingProperties.

(** ** The names of the Redis keys *)

Section RedisKeysProperties.

Import RedisKeys.

Lemma length_append (a b : string) :
  String.length (a +:+ b) = String.length a + String.length b.
Proof. induction a as [|c a IH]; [done|]. simpl. by rewrite IH. Qed.

Lemma append_inj_r (s a b : string) : a +:+ s = b +:+ s -> a = b.
Proof.
  revert b. induction a as [|c a IH]; intros b Heq.
  - destruct b as [|c' b]; [done|]. exfalso.
    apply (f_equal String.length) in Heq.
    rewrite !length_append in Heq. simpl in Heq. lia.
  - destruct b as [|c' b].
    + exfalso. apply (f_equal String.length) in Heq.
      rewrite !length_append in Heq. simpl in Heq. lia.
    + simpl in Heq. injection Heq as -> Heq. f_equal. by apply IH.
Qed.

Lemma colonFree_append a b : colonFree (a +:+ b) = colonFree a && colonFree b.
Proof.
  induction a as [|c a IH]; [done|]. simpl. rewrite IH.
  by destruct (Ascii.eqb c ":").
Qed.

Lemma events_not_sockets a b : a +:+ ":events" ≠ b +:+ ":sockets".
Proof.
  revert b. induction a as [|c a IH]; intros b Heq.
  - apply (f_equal String.length) in Heq.
    rewrite !length_append in Heq. simpl in Heq. lia.
  - destruct b as [|c' b].
    + simpl in Heq. injection Heq as _ Heq.
      pose proof (f_equal String.length Heq) as Hlen.
      rewrite !length_append in Hlen. simpl in Hlen.
      destruct a; [done|]. simpl in Hlen. lia.
    + simpl in Heq. injection Heq as _ Heq. by apply (IH b).
Qed.

Lemma keys_apart :
  (∀ id id', orderActiveKey id = orderActiveKey id' -> id = id')
  ∧ (∀ id id', orderEventsKey id = orderEventsKey id' -> id = id')
  ∧ (∀ id id', orderSocketsKey id = orderSocketsKey id' -> id = id')
  ∧ (∀ id id', orderEventsKey id ≠ orderSocketsKey id')
  ∧ (∀ id id', colonFree id = true ->
       orderActiveKey id ≠ orderEventsKey id'
       ∧ orderActiveKey id ≠ orderSocketsKey id').
Proof.
  unfold orderActiveKey, orderEventsKey, orderSocketsKey. split_and!.
  - intros id id' Heq. simpl in Heq. by injection Heq.
  - intros id id' Heq. simpl in Heq. injection Heq as Heq. change ("" +:+ ?x) with x in Heq.
    by apply append_inj_r in Heq.
  - intros id id' Heq. simpl in Heq. injection Heq as Heq. change ("" +:+ ?x) with x in Heq.
    by apply append_inj_r in Heq.
  - intros id id' Heq. simpl in Heq. injection Heq as Heq. change ("" +:+ ?x) with x in Heq.
    by apply events_not_sockets in Heq.
  - intros id id' Hfree. split; intros Heq; simpl in Heq; injection Heq as Heq; change ("" +:+ ?x) with x in Heq;
      rewrite Heq, colonFree_append in Hfree; simpl in Hfree;
      by rewrite andb_false_r in Hfree.
Qed.

(** X4: each of the three key names determines the order identifier; the
    key of an order's events is never the key of an order's sockets; and
    for an identifier without a colon, as a UUID is, the key of the order
    itself is neither the events key nor the sockets key of any order. *)
Theorem keys_separate :
  (∀ id id', orderActiveKey id = orderActiveKey id' -> id = id')
  ∧ (∀ id id', orderEventsKey id = orderEventsKey id' -> id = id')
  ∧ (∀ id id', orderSocketsKey id = orderSocketsKey id' -> id = id')
  ∧ (∀ id id', orderEventsKey id ≠ orderSocketsKey id')
  ∧ (∀ id id', colonFree id = true ->
       orderActiveKey id ≠ orderEventsKey id'
       ∧ orderActiveKey id ≠ orderSocketsKey id').
Proof. apply keys_apart. Qed.

(** With a colon in the identifier the keys can coincide. *)
Example keys_coincide : orderActiveKey "a:events" = orderEventsKey "a".
Proof. done. Qed.

End RedisKeysProperties.

(** ** The order_history table *)

Section PgDbProperties.

Import PgDb.

(** What the INTEGER column does with some values of [slippageBps] the
    validator lets through: 50 is taken, [-0] is taken as 0, 50.5 is
    refused. *)
Example integerColumn_samples :
  integerColumn (of_Z 50) = Some 50%Z
  ∧ integerColumn (S754_zero true) = Some 0%Z
  ∧ of_Z 0 = S754_zero false
  ∧ integerColumn c50_5 = None.
Proof. by vm_compute. Qed.


(** X6: [finalizeOrder] and [failOrder] update the row of the order and
    no other; for an identifier that has no row they change nothing, so
    that nothing reads back for it afterwards either. *)
Theorem updates_touch_one_row (id : string) (d : DexName) (executedPrice : number)
    (txHash failureReason : string) (updatedAtMs : Z) (db : t) :
  (db !! id = None ->
   finalizeOrder id d executedPrice txHash updatedAtMs db = db
   ∧ failOrder id failureReason updatedAtMs db = db)
  ∧ (∀ id', id' ≠ id ->
       finalizeOrder id d executedPrice txHash updatedAtMs db !! id' = db !! id'
       ∧ failOrder id failureReason updatedAtMs db !! id' = db !! id').
Proof.
  unfold finalizeOrder, failOrder. split.
  - intros Hnone. split; apply map_eq; intros i;
      (destruct (decide (i = id)) as [->|Hne];
       [by rewrite lookup_alter_eq, Hnone | by rewrite lookup_alter_ne]).
  - intros id' Hne. by rewrite !lookup_alter_ne.
Qed.

(** X7: the two updates compose as the SQL says. [failOrder] on a
    finalized row sets the status to [failed] and keeps the venue, the
    executed price and the transaction hash of the finalization;
    [finalizeOrder] on a failed row sets the status to [confirmed] and
    clears the failure reason. The creation time is kept by both. *)
Theorem updates_compose (id : string) (d : DexName) (executedPrice : number)
    (txHash failureReason : string) (t1 t2 : Z) (db : t) (row : OrderFinalRecord) :
  db !! id = Some row ->
  getOrder id (failOrder id failureReason t2
                 (finalizeOrder id d executedPrice txHash t1 db))
  = Some (mkOrderFinalRecord (fr_orderId row) (fr_tokenIn row) (fr_tokenOut row)
            (fr_amount row) (fr_slippageBps row) failed (Some d)
            (Some (numericColumn executedPrice)) (truthy_text (Some txHash))
            (truthy_text (Some failureReason)) (fr_createdAtMs row) t2)
  ∧ getOrder id (finalizeOrder id d executedPrice txHash t2
                   (failOrder id failureReason t1 db))
    = Some (mkOrderFinalRecord (fr_orderId row) (fr_tokenIn row) (fr_tokenOut row)
              (fr_amount row) (fr_slippageBps row) confirmed (Some d)
              (Some (numericColumn executedPrice)) (truthy_text (Some txHash)) None
              (fr_createdAtMs row) t2).
Proof.
  intros Hrow. unfold getOrder, failOrder, finalizeOrder.
  rewrite !lookup_alter_eq, Hrow. done.
Qed.

Lemma updates_compose_witness :
  getOrder "order-1"
    (failOrder "order-1" "late" 9
       (finalizeOrder "order-1" raydium one "mocktx_1" 8 tableWithOrder1))
  = Some (mkOrderFinalRecord "order-1" SOL USDC (of_Z 100) (of_Z 50) failed
            (Some raydium) (Some one) (Some "mocktx_1") (Some "late") 1 9)
  ∧ getOrder "order-1"
      (finalizeOrder "order-1" raydium one "mocktx_1" 9
         (failOrder "order-1" "late" 8 tableWithOrder1))
    = Some (mkOrderFinalRecord "order-1" SOL USDC (of_Z 100) (of_Z 50) confirmed
              (Some raydium) (Some one) (Some "mocktx_1") None 1 9).
Proof.
  apply (updates_compose "order-1" raydium one "mocktx_1" "late" 8 9
           tableWithOrder1
           (mkOrderFinalRecord "order-1" SOL USDC (of_Z 100) (of_Z 50) pending
              None None None None 1 1)).
  vm_compute. reflexivity.
Defined.

(** X8: a row that was failed with the empty text as its reason reads
    back with no failure reason, although its status is [failed]: a text
    column that is empty reads back as null. *)
Theorem empty_reason_reads_null (id : string) (updatedAtMs : Z) (db : t)
    (row : OrderFinalRecord) :
  db !! id = Some row ->
  ∃ r, getOrder id (failOrder id "" updatedAtMs db) = Some r
       ∧ fr_status r = failed
       ∧ fr_failureReason r = None
       ∧ fr_updatedAtMs r = updatedAtMs.
Proof.
  intros Hrow. unfold getOrder, failOrder. rewrite lookup_alter_eq, Hrow.
  by eexists.
Qed.

Lemma empty_reason_reads_null_witness :
  ∃ r, getOrder "order-1" (failOrder "order-1" "" 9 tableWithOrder1) = Some r
       ∧ fr_status r = failed
       ∧ fr_failureReason r = None
       ∧ fr_updatedAtMs r = 9%Z.
Proof.
  eapply (empty_reason_reads_null "order-1" 9 tableWithOrder1).
  vm_compute. reflexivity.
Defined.

End PgDbProperties.

(** ** The process-local bus after any operations *)

Section BusStateProperties.

Import InMemoryEventBus BusRun Runs.

Lemma subscribed_snoc id h ops op :
  subscribed id h (ops ++ [op])
  = match op with
    | OpSubscribe i x => if decide (i = id ∧ x = h) then true else subscribed id h ops
    | OpUnsubscribe i x => if decide (i = id ∧ x = h) then false else subscribed id h ops
    | OpClose => false
    | OpPublish _ _ => subscribed id h ops
    end.
Proof. unfold subscribed. rewrite foldl_app. by destruct op. Qed.

Lemma handlers_subscribe id i x bus :
  default [] (handlers (subscribe i x bus) !! id)
  = if decide (id = i) then set_add x (default [] (handlers bus !! i))
    else default [] (handlers bus !! id).
Proof.
  unfold subscribe. simpl. destruct (decide (id = i)) as [->|Hne].
  - by rewrite lookup_insert_eq.
  - by rewrite lookup_insert_ne.
Qed.

Lemma handlers_unsubscribe id i x bus :
  default [] (handlers (unsubscribe i x bus) !! id)
  = if decide (id = i) then set_delete x (default [] (handlers bus !! i))
    else default [] (handlers bus !! id).
Proof.
  unfold unsubscribe. destruct (handlers bus !! i) as [cur|] eqn:Hcur; simpl.
  - destruct (decide (id = i)) as [->|Hne].
    + by rewrite lookup_insert_eq.
    + by rewrite lookup_insert_ne.
  - by destruct (decide (id = i)) as [->|Hne]; [rewrite Hcur|].
Qed.

(** X9: after any sequence of operations on a new bus, [publish] calls
    each callback at most once, every call with the event published, and
    it calls a callback exactly when the last operation that subscribed
    or unsubscribed it for that order, or closed the bus, was a
    subscription. So subscribing a callback twice makes one
    subscription, which one unsubscription ends, and [close] ends them
    all. *)
Theorem busAfter_publish (ops : list BusOp) (id : string) (ev : OrderEvent) :
  ∃ hs,
    publish id ev (busAfter ops empty) = map (λ h, (h, ev)) hs
    ∧ NoDup hs
    ∧ ∀ h, h ∈ hs ↔ subscribed id h ops = true.
Proof.
  exists (default [] (handlers (busAfter ops empty) !! id)).
  split; [apply publish_calls|].
  induction ops as [|op ops [IHnd IHin]] using rev_ind.
  - split; [constructor|]. intros h. split; [by intros ?%elem_of_nil|done].
  - unfold busAfter in *. rewrite foldl_app. cbn [foldl].
    destruct op as [i x|i e|i x|]; cbn [stepInMemory fst].
    + rewrite handlers_subscribe. destruct (decide (id = i)) as [->|Hne].
      * split; [by apply NoDup_set_add|]. intros h.
        rewrite elem_of_set_add, IHin, subscribed_snoc.
        destruct (decide (i = i ∧ x = h)) as [[_ ->]|Hn].
        -- split; [done|by intros _; left].
        -- split; [|by intros ?; right]. intros [->|?]; [|done]. by destruct Hn.
      * split; [done|]. intros h. rewrite IHin, subscribed_snoc.
        destruct (decide (i = id ∧ x = h)) as [[-> _]|Hn]; done.
    + split; [done|]. intros h. by rewrite IHin, subscribed_snoc.
    + rewrite handlers_unsubscribe. destruct (decide (id = i)) as [->|Hne].
      * split; [by apply NoDup_set_delete|]. intros h.
        rewrite elem_of_set_delete, IHin, subscribed_snoc.
        destruct (decide (i = i ∧ x = h)) as [[_ ->]|Hn].
        -- split; [by intros [? _]|done].
        -- split; [by intros [_ ?]|]. intros Hm. split; [|done].
           intros ->. by destruct Hn.
      * split; [done|]. intros h. rewrite IHin, subscribed_snoc.
        destruct (decide (i = id ∧ x = h)) as [[-> _]|Hn]; done.
    + split; [constructor|]. intros h. rewrite subscribed_snoc.
      split; [by intros ?%elem_of_nil|done].
Qed.

End BusStateProperties.

(** ** One connection, whatever happens to it *)

Section ConnectionProperties.

Import OrderSocket Stated Runs.

Lemma markAndSend_sentOnce e c :
  status e ∉ sent c -> sentOnce c -> sentOnce (markAndSend e c).
Proof.
  intros He (Hs & Hf & Hsub). unfold sentOnce, markAndSend, set_add. simpl.
  rewrite decide_False by done. split_and!.
  - apply NoDup_app. split_and!; [done| |apply NoDup_singleton].
    intros s Hin ->%list_elem_of_singleton. done.
  - destruct (socketOpen c); [|done]. rewrite map_app. simpl.
    apply NoDup_app. split_and!; [done| |apply NoDup_singleton].
    intros s Hin ->%list_elem_of_singleton. by apply He, Hsub.
  - intros s Hin. rewrite elem_of_app. destruct (socketOpen c); [|left; by apply Hsub].
    rewrite map_app, elem_of_app in Hin. destruct Hin as [Hin|Hin]; [left; by apply Hsub|].
    by right.
Qed.

Lemma sendUnsent_sentOnce l c : sentOnce c -> sentOnce (sendUnsent l c).
Proof.
  revert c. induction l as [|e l IH]; intros c Hc; [done|]. simpl.
  destruct (bool_decide (status e ∈ sent c)) eqn:He; apply IH; [done|].
  apply markAndSend_sentOnce; [|done]. by apply bool_decide_eq_false in He.
Qed.

Lemma stepConn_sentOnce op c : sentOnce c -> sentOnce (stepConn op c).
Proof.
  intros Hc. destruct op as [ev|backlog|]; simpl.
  - unfold onEvent. destruct (bool_decide (status ev ∈ sent c)) eqn:He; [done|].
    destruct (backlogFlushed c); simpl; [|done].
    apply markAndSend_sentOnce; [|done]. by apply bool_decide_eq_false in He.
  - unfold deliverBacklog. apply sendUnsent_sentOnce.
    by apply (sendUnsent_sentOnce (sortByLifecycle backlog)) in Hc.
  - done.
Qed.

(** X10: whatever happens to a connection, in whatever order (events
    arriving from the bus, with repeated statuses or out of order,
    backlogs delivered, the socket closing), no two frames sent on it
    have the same status, and every status sent is marked as sent. *)
Theorem frames_never_repeat (ops : list ConnOp) :
  let c := runConn ops newConn in
  NoDup (map status (frames c))
  ∧ ∀ s, s ∈ map status (frames c) -> s ∈ sent c.
Proof.
  assert (sentOnce (runConn ops newConn)) as (_ & ? & ?); [|done].
  induction ops as [|op ops IH] using rev_ind.
  - split_and!; [constructor..|]. by intros s ?%elem_of_nil.
  - unfold runConn in *. rewrite foldl_app. by apply stepConn_sentOnce.
Qed.

Lemma sendUnsent_closed l c :
  socketOpen c = false ->
  socketOpen (sendUnsent l c) = false ∧ frames (sendUnsent l c) = frames c.
Proof.
  revert c. induction l as [|e l IH]; intros c Hc; [done|]. simpl.
  destruct (bool_decide (status e ∈ sent c)); [by apply IH|].
  destruct (IH (markAndSend e c)) as [-> ->]; unfold markAndSend; simpl;
    by rewrite Hc.
Qed.

Lemma stepConn_closed op c :
  socketOpen c = false ->
  socketOpen (stepConn op c) = false ∧ frames (stepConn op c) = frames c.
Proof.
  intros Hc. destruct op as [ev|backlog|]; simpl.
  - unfold onEvent. destruct (bool_decide (status ev ∈ sent c)); [done|].
    destruct (backlogFlushed c); simpl; [|done]. by rewrite Hc.
  - unfold deliverBacklog.
    destruct (sendUnsent_closed (sortByLifecycle backlog) c Hc) as [Ho Hf].
    set (c2 := mkConn _ _ _ _ _).
    destruct (sendUnsent_closed (buffer c2) c2 Ho) as [-> ->]. done.
  - done.
Qed.

(** X11: once the socket has left the open state nothing more is sent on
    it: whatever arrives or is delivered afterwards, its frames stay the
    ones sent before. *)
Theorem closed_socket_sends_nothing (ops : list ConnOp) (c : Conn) :
  socketOpen c = false ->
  frames (runConn ops c) = frames c ∧ socketOpen (runConn ops c) = false.
Proof.
  intros Hc. induction ops as [|op ops [IHf IHo]] using rev_ind; [done|].
  unfold runConn in *. rewrite foldl_app. simpl.
  destruct (stepConn_closed op _ IHo) as [-> ->]. done.
Qed.

Lemma closed_socket_sends_nothing_witness :
  frames (runConn [Arrives (event "order-1" building 3);
                   Delivers [event "order-1" pending 1]]
            (closeSocket (runConn [Delivers [event "order-1" pending 1]] newConn)))
  = [event "order-1" pending 1].
Proof.
  pose proof (closed_socket_sends_nothing
                [Arrives (event "order-1" building 3);
                 Delivers [event "order-1" pending 1]]
                (closeSocket (runConn [Delivers [event "order-1" pending 1]] newConn))
                eq_refl) as [H _].
  exact H.
Defined.

Lemma StronglySorted_sublist {A} (R : relation A) (l k : list A) :
  l `sublist_of` k -> StronglySorted R k -> StronglySorted R l.
Proof.
  induction 1 as [|x l k Hsub IH|x l k Hsub IH]; intros Hk; [done|..].
  - apply StronglySorted_cons in Hk as [Hx Hk]. constructor; [by apply IH|].
    rewrite Forall_forall in Hx. apply Forall_forall. intros y Hy.
    apply Hx. by eapply elem_of_sublist.
  - apply StronglySorted_cons in Hk as [_ Hk]. by apply IH.
Qed.

Lemma rankLe_strict l :
  StronglySorted rankLe l -> NoDup (map status l) -> ascending l.
Proof.
  induction 1 as [|x l Hl IH Hx]; intros Hnd; [constructor|].
  simpl in Hnd. apply NoDup_cons in Hnd as [Hnew Hnd].
  constructor; [by apply IH|].
  rewrite Forall_forall in Hx. apply Forall_forall. intros y Hy.
  specialize (Hx y Hy). unfold rankLe, rankLt in *.
  assert (status x ≠ status y) as Hne.
  { intros Heq. apply Hnew. rewrite Heq. apply list_elem_of_fmap. by exists y. }
  destruct (status x), (status y); simpl in *; first [lia | done].
Qed.

(** What the loop over a backlog or a buffer sends on an open socket. *)
Lemma sendUnsent_open l : ∀ c,
  socketOpen c = true ->
  ∃ l',
    frames (sendUnsent l c) = frames c ++ l'
    ∧ l' `sublist_of` l
    ∧ NoDup (map status l')
    ∧ (∀ s, s ∈ map status l' ↔ s ∈ map status l ∧ s ∉ sent c)
    ∧ (∀ s, s ∈ sent (sendUnsent l c) ↔ s ∈ sent c ∨ s ∈ map status l)
    ∧ socketOpen (sendUnsent l c) = true
    ∧ backlogFlushed (sendUnsent l c) = backlogFlushed c
    ∧ buffer (sendUnsent l c) = buffer c.
Proof.
  induction l as [|e l IH]; intros c Hopen.
  { exists []. simpl. rewrite app_nil_r. split_and!; try done; [constructor|..].
    - intros s. split; [by intros ?%elem_of_nil|]. by intros [?%elem_of_nil _].
    - intros s. split; [by left|]. by intros [?|?%elem_of_nil]. }
  simpl. destruct (bool_decide (status e ∈ sent c)) eqn:He.
  - apply bool_decide_eq_true in He.
    destruct (IH c Hopen) as (l' & Hf & Hsub & Hnd & Hl' & Hsent & Ho & Hb & Hbuf).
    exists l'. split_and!; try done.
    + by apply sublist_cons.
    + intros s. rewrite Hl', elem_of_cons. split; [intros [? ?]; by split; [right|]|].
      intros [[->|?] Hn]; [done|by split].
    + intros s. rewrite Hsent, elem_of_cons. split; [intros [?|?]; [by left|by right; right]|].
      intros [?|[->|?]]; [by left|by left|by right].
  - apply bool_decide_eq_false in He.
    assert (socketOpen (markAndSend e c) = true) as Hopen' by done.
    destruct (IH (markAndSend e c) Hopen')
      as (l' & Hf & Hsub & Hnd & Hl' & Hsent & Ho & Hb & Hbuf).
    assert (∀ s, s ∈ sent (markAndSend e c) ↔ s ∈ sent c ∨ s = status e) as Hmark.
    { intros s. unfold markAndSend. simpl. rewrite elem_of_set_add. tauto. }
    exists (e :: l'). split_and!; try done.
    + rewrite Hf. unfold markAndSend at 1. simpl. rewrite Hopen.
      by rewrite <- app_assoc.
    + by apply sublist_skip.
    + simpl. apply NoDup_cons. split; [|done].
      intros Hin%Hl'. destruct Hin as [_ Hn]. apply Hn, Hmark. by right.
    + intros s. simpl. rewrite !elem_of_cons, Hl', Hmark. split.
      * intros [->|[Hin Hn]]; [by split; [left|]|].
        split; [by right|]. intros ?. apply Hn. by left.
      * intros [[->|Hin] Hn]; [by left|].
        destruct (decide (s = status e)) as [->|Hne]; [by left|].
        right. split; [done|]. by intros [?|?].
    + intros s. rewrite Hsent, Hmark. simpl. rewrite elem_of_cons. tauto.
Qed.

Lemma arrivals_buffered es : ∀ l,
  runConn (map Arrives es) (mkConn [] false l true []) = mkConn [] false (l ++ es) true [].
Proof.
  induction es as [|e es IH]; intros l; [by rewrite app_nil_r|].
  change (runConn (map Arrives (e :: es)) ?c)
    with (runConn (map Arrives es) (onEvent e c)).
  unfold onEvent. cbn [sent backlogFlushed negb].
  rewrite bool_decide_eq_false_2 by (by intros ?%elem_of_nil).
  cbn [buffer socketOpen frames]. rewrite IH. by rewrite <- app_assoc.
Qed.

(** X12: delivered to a new connection, a backlog in any order and with
    any repetitions goes out in strictly ascending lifecycle rank, with
    one frame for every status that occurs in it and no other frame, and
    every frame is an event of the backlog. *)
Theorem backlog_sent_ascending (backlog : list OrderEvent) :
  let c := deliverBacklog backlog newConn in
  ascending (frames c)
  ∧ (∀ s, s ∈ map status (frames c) ↔ s ∈ map status backlog)
  ∧ (∀ e, e ∈ frames c -> e ∈ backlog).
Proof.
  unfold deliverBacklog, newConn.
  destruct (sendUnsent_open (sortByLifecycle backlog) (mkConn [] false [] true []) eq_refl)
    as (l1 & Hf & Hsub & Hnd & Hl1 & Hsent & Ho & Hb & Hbuf).
  simpl in *. rewrite Hbuf. simpl. rewrite Hf. split_and!.
  - apply rankLe_strict; [|done].
    eapply StronglySorted_sublist; [done|apply sortByLifecycle_sorted].
  - intros s. rewrite Hl1, (sortByLifecycle_perm backlog).
    split; [by intros [? _]|]. intros ?. split; [done|]. by intros ?%elem_of_nil.
  - intros e He. rewrite <- (sortByLifecycle_perm backlog). by eapply elem_of_sublist.
Qed.

(** X13: events that arrive between the subscription and the delivery of
    the backlog are kept and sent after the backlog: the statuses sent
    are exactly those that occur in the backlog or among the arrivals,
    each once, and every frame is an event of the backlog or an arrival.
    The backlog's part goes first, in ascending rank; the arrivals' part
    follows, in ascending rank. *)
Theorem buffered_arrivals_sent (arrivals backlog : list OrderEvent) :
  let c := deliverBacklog backlog (runConn (map Arrives arrivals) newConn) in
  NoDup (map status (frames c))
  ∧ (∀ s, s ∈ map status (frames c)
          ↔ s ∈ map status backlog ∨ s ∈ map status arrivals)
  ∧ (∀ e, e ∈ frames c -> e ∈ backlog ∨ e ∈ arrivals)
  ∧ ∃ l1 l2,
      frames c = l1 ++ l2
      ∧ ascending l1 ∧ ascending l2
      ∧ (∀ s, s ∈ map status l1 ↔ s ∈ map status backlog)
      ∧ buffer c = sortByLifecycle arrivals
      ∧ backlogFlushed c = true.
Proof.
  unfold newConn. rewrite (arrivals_buffered arrivals []). simpl.
  unfold deliverBacklog.
  destruct (sendUnsent_open (sortByLifecycle backlog)
              (mkConn [] false arrivals true []) eq_refl)
    as (l1 & Hf1 & Hsub1 & Hnd1 & Hl1 & Hsent1 & Ho1 & Hb1 & Hbuf1).
  set (c1 := sendUnsent (sortByLifecycle backlog) (mkConn [] false arrivals true [])) in *.
  set (c2 := mkConn (sent c1) true (sortByLifecycle (buffer c1)) (socketOpen c1) (frames c1)).
  destruct (sendUnsent_open (buffer c2) c2 Ho1)
    as (l2 & Hf2 & Hsub2 & Hnd2 & Hl2 & Hsent2 & Ho2 & Hb2 & Hbuf2).
  simpl in *. rewrite Hf2, Hf1. simpl. rewrite Hbuf1 in *.
  assert (∀ s, s ∈ map status l1 ↔ s ∈ map status backlog) as Hcover1.
  { intros s. rewrite Hl1, (sortByLifecycle_perm backlog).
    split; [by intros [? _]|]. intros ?. split; [done|]. by intros ?%elem_of_nil. }
  assert (∀ s, s ∈ map status l2
               ↔ s ∈ map status arrivals ∧ s ∉ map status backlog) as Hcover2.
  { intros s. rewrite Hl2, (sortByLifecycle_perm arrivals), Hsent1.
    rewrite (sortByLifecycle_perm backlog). split.
    - intros [? Hn]. split; [done|]. intros ?. apply Hn. by right.
    - intros [? Hn]. split; [done|]. by intros [?%elem_of_nil|?]. }
  split_and!.
  - rewrite map_app. apply NoDup_app. split_and!; [done| |done].
    intros s Hs1%Hcover1 Hs2%Hcover2. by destruct Hs2.
  - intros s. rewrite map_app, elem_of_app, Hcover1, Hcover2. split.
    + intros [?|[? _]]; [by left|by right].
    + intros [?|?]; [by left|].
      destruct (decide (s ∈ map status backlog)); [by left|by right].
  - intros e [He|He]%elem_of_app.
    + left. rewrite <- (sortByLifecycle_perm backlog). by eapply elem_of_sublist.
    + right. rewrite <- (sortByLifecycle_perm arrivals). by eapply elem_of_sublist.
  - exists l1, l2. split_and!; try done.
    + apply rankLe_strict; [|done].
      eapply StronglySorted_sublist; [done|apply sortByLifecycle_sorted].
    + apply rankLe_strict; [|done].
      eapply StronglySorted_sublist; [done|apply sortByLifecycle_sorted].
Qed.

End ConnectionProperties.

(** ** The mock router *)

Section MockRouterProperties.

Import MockDexRouter.

Lemma SFcompare_antisym a b :
  SFcompare b a = CompOpp <$> SFcompare a b.
Proof.
  destruct a as [sa|sa| |sa ma ea], b as [sb|sb| |sb mb eb]; simpl; try done;
    try (by destruct sa); try (by destruct sb); try (by destruct sa, sb).
  destruct sa, sb; simpl; try done; f_equal;
    rewrite (Z.compare_antisym ea eb); destruct (ea ?= eb)%Z; simpl; try done;
    rewrite (ZC4 ma mb); by destruct (Pos.compare_cont Eq mb ma).
Qed.

Lemma SFcompare_refl a : is_nan a = false -> SFcompare a a = Some Eq.
Proof.
  destruct a as [s|s| |s m e]; simpl; try done; try (by destruct s).
  intros _. destruct s; by rewrite Z.compare_refl, Pcompare_refl.
Qed.

Lemma SFcompare_total a b :
  is_nan a = false -> is_nan b = false -> is_Some (SFcompare a b).
Proof. destruct a, b; simpl; try done; by eexists. Qed.

Lemma ltb_leb a b : ltb a b = true -> leb a b = true.
Proof. unfold ltb, leb. by destruct (SFcompare a b) as [[]|]. Qed.

Lemma not_ltb_leb a b :
  is_nan a = false -> is_nan b = false -> ltb a b = false -> leb b a = true.
Proof.
  intros Ha Hb. unfold ltb, leb. rewrite (SFcompare_antisym a b).
  destruct (SFcompare_total a b Ha Hb) as [c ->]. by destruct c.
Qed.

Lemma leb_refl a : is_nan a = false -> leb a a = true.
Proof. intros Ha. unfold leb. by rewrite SFcompare_refl. Qed.

(** X14: [clamp] of a number that is not NaN, between bounds that are
    not NaN and in order, lies between the bounds; [clamp] of NaN is NaN,
    whatever the bounds. *)
Theorem clamp_within (n lo hi : number) :
  (is_nan n = true -> clamp n lo hi = S754_nan)
  ∧ (is_nan n = false -> is_nan lo = false -> is_nan hi = false ->
     leb lo hi = true ->
     leb lo (clamp n lo hi) = true ∧ leb (clamp n lo hi) hi = true).
Proof.
  unfold clamp, Math_max, Math_min. split.
  - intros ->. rewrite orb_true_r. simpl. by rewrite orb_true_r.
  - intros Hn Hlo Hhi Hle. rewrite Hn, Hhi, Hlo. simpl.
    assert (∃ m, (if ltb hi n then hi else if ltb n hi then n
                  else if is_neg_zero hi then hi else n) = m
                 ∧ is_nan m = false ∧ leb m hi = true) as (m & -> & Hm & Hmhi).
    { destruct (ltb hi n) eqn:H1; [by exists hi; auto using leb_refl|].
      destruct (ltb n hi) eqn:H2; [by exists n; auto using ltb_leb|].
      destruct (is_neg_zero hi); [by exists hi; auto using leb_refl|].
      exists n. auto using not_ltb_leb. }
    rewrite Hm. simpl.
    destruct (ltb lo m) eqn:H1; [by auto using ltb_leb|].
    destruct (ltb m lo) eqn:H2; [by auto using leb_refl|].
    destruct (is_neg_zero lo); [by auto using not_ltb_leb|].
    auto using leb_refl.
Qed.

Lemma seedSum_below codes : ∀ i sum,
  (sum < 10000)%N -> (seedSum codes i sum < 10000)%N.
Proof.
  induction codes as [|c codes IH]; intros i sum Hsum; [done|]. simpl.
  apply IH. apply N.mod_upper_bound. done.
Qed.

(** X15: the base price of a pair depends on the code units of the two
    symbols only, through a sum that the loop keeps below 10000: it is
    [0.75 + (n / 10000) * 0.5] for a whole number [n] from 0 to 9999. *)
Theorem stableBasePrice_of_sum (tIn tOut : symbol) :
  ∃ n : Z,
    (0 <= n < 10000)%Z
    ∧ stableBasePrice tIn tOut = add c0_75 (mul (div (of_Z n) c10000) c0_5).
Proof.
  exists (Z.of_N (seedSum (tIn ++ arrow :: tOut) 0 0)). split; [|done].
  pose proof (seedSum_below (tIn ++ arrow :: tOut) 0 0 eq_refl). lia.
Qed.

Lemma strip_dashes_chars s :
  list_ascii_of_string (strip_dashes s)
  = filter (λ c, c ≠ "-"%char) (list_ascii_of_string s).
Proof.
  induction s as [|c s IH]; [done|]. simpl.
  destruct (Ascii.eqb c "-") eqn:Hc.
  - apply Ascii.eqb_eq in Hc as ->. by rewrite filter_cons_False by (by intros ?).
  - apply Ascii.eqb_neq in Hc. rewrite filter_cons_True by done. simpl. by rewrite IH.
Qed.

(** X16: the transaction hash [executeSwap] returns is ["mocktx_"]
    followed by the characters of the UUID other than dashes, in their
    order, so it holds no dash; the venue returned is the venue asked
    for, and the call sleeps once. *)
Theorem executeSwap_txHash (d : DexName) (order : Order) (quotedPrice u1 u2 : number)
    (uuid : string) :
  let res := executeSwap d order quotedPrice u1 u2 uuid in
  list_ascii_of_string (sw_txHash res.2)
  = (list_ascii_of_string "mocktx_"
     ++ filter (λ c, c ≠ "-"%char) (list_ascii_of_string uuid))
  ∧ ("-"%char ∉ list_ascii_of_string (sw_txHash res.2))
  ∧ sw_dex res.2 = d
  ∧ length res.1 = 1.
Proof.
  intros res. unfold res, executeSwap. cbn [snd fst sw_txHash sw_dex length].
  change (list_ascii_of_string ("mocktx_" +:+ strip_dashes uuid))
    with (list_ascii_of_string "mocktx_" ++ list_ascii_of_string (strip_dashes uuid)).
  rewrite strip_dashes_chars. split_and!; try done.
  cbn [list_ascii_of_string app].
  repeat (apply not_elem_of_cons; split; [done|]).
  by intros [? _]%list_elem_of_filter.
Qed.

End MockRouterProperties.

(** ** The submission path *)

Section SubmissionProperties.

Import OrdersApi.

Lemma finite_not_nan a : isFinite a = true -> is_nan a = false.
Proof. by destruct a. Qed.

Lemma finite_positive a :
  isFinite a = true -> leb a zero = false ↔ gtb a zero = true.
Proof. destruct a as [s|s| |s m e]; try done; by destruct s. Qed.

Lemma finite_within a :
  isFinite a = true ->
  ltb a zero || gtb a c10000 = false ↔ leb zero a = true ∧ leb a c10000 = true.
Proof.
  intros Ha. apply finite_not_nan in Ha. rewrite orb_false_iff.
  assert (ltb a zero = false ↔ leb zero a = true) as H1.
  { unfold ltb, leb. rewrite (SFcompare_antisym a zero).
    destruct (SFcompare_total a zero Ha eq_refl) as [c ->]. by destruct c. }
  assert (gtb a c10000 = false ↔ leb a c10000 = true) as H2.
  { unfold gtb, leb.
    destruct (SFcompare_total a c10000 Ha eq_refl) as [c ->]. by destruct c. }
  by rewrite H1, H2.
Qed.

(** X17: a body is accepted exactly when it is an object whose [tokenIn]
    and [tokenOut] are strings with a code unit that is not white space,
    whose [amount] is a finite number above zero and whose [slippageBps]
    is a finite number from 0 to 10000; the request accepted carries the
    four fields as they were sent, the symbols untrimmed. *)
Theorem validateExecuteOrder_accepts (body : option RequestBody)
    (v : ExecuteOrderRequest) :
  validateExecuteOrder body = inl v
  ↔ ∃ b,
      body = Some b
      ∧ b_tokenIn b = JsString (r_tokenIn v)
      ∧ forallb is_whitespace (r_tokenIn v) = false
      ∧ b_tokenOut b = JsString (r_tokenOut v)
      ∧ forallb is_whitespace (r_tokenOut v) = false
      ∧ b_amount b = JsNum (r_amount v)
      ∧ isFinite (r_amount v) = true
      ∧ gtb (r_amount v) zero = true
      ∧ b_slippageBps b = JsNum (r_slippageBps v)
      ∧ isFinite (r_slippageBps v) = true
      ∧ leb zero (r_slippageBps v) = true
      ∧ leb (r_slippageBps v) c10000 = true.
Proof.
  unfold validateExecuteOrder, isNonEmptyString, isFiniteNumber. split.
  - destruct body as [[tIn tOut amt bps]|]; [|done]. simpl.
    destruct tIn as [|tIn| |]; try done.
    destruct (forallb is_whitespace tIn) eqn:HtIn; [done|].
    destruct tOut as [|tOut| |]; try done.
    destruct (forallb is_whitespace tOut) eqn:HtOut; [done|].
    destruct amt as [| |amt|]; try done.
    destruct (isFinite amt) eqn:Hamt; [|done].
    destruct (leb amt zero) eqn:Hpos; [done|].
    destruct bps as [| |bps|]; try done.
    destruct (isFinite bps) eqn:Hbps; [|done].
    destruct (ltb bps zero || gtb bps c10000) eqn:Hin; [done|].
    intros [= <-]. eexists. simpl.
    apply (finite_positive _ Hamt) in Hpos.
    apply (finite_within _ Hbps) in Hin as [? ?].
    split_and!; done.
  - intros (b & -> & HtIn & HwIn & HtOut & HwOut & Hamt & Hfin & Hpos & Hbps & Hfin'
            & Hlo & Hhi).
    rewrite HtIn, HwIn, HtOut, HwOut, Hamt, Hfin, Hbps, Hfin'.
    apply (finite_positive _ Hfin) in Hpos. rewrite Hpos.
    rewrite (proj2 (finite_within _ Hfin')) by done.
    by destruct v.
Qed.

(** X18: a request whose body is not accepted is answered with status
    400 and one of the five messages of the validator, and has no effect
    at all: no clock reading, nothing stored, inserted, handed to the
    queue or published, nothing logged. *)
Theorem postExecute_rejects_without_effect (clock : nat -> Z)
    (encodeURIComponent : string -> string) (uuid : string) (req : Request)
    (w : World) (error : string) :
  validateExecuteOrder (body req) = inr error ->
  postExecute clock encodeURIComponent uuid req w = (Reply400 error, w)
  ∧ error ∈ [ "Body must be a JSON object"; "tokenIn is required";
              "tokenOut is required"; "amount must be a positive number";
              "slippageBps must be between 0 and 10000" ].
Proof.
  intros Hval. unfold postExecute. rewrite Hval. split; [done|].
  unfold validateExecuteOrder in Hval.
  repeat match type of Hval with
         | match ?x with _ => _ end = _ => destruct x
         | (if ?x then _ else _) = _ => destruct x
         end;
    simplify_eq; listed.
Qed.

Lemma postExecute_rejects_without_effect_witness :
  postExecute clock0 id "uuid-1"
    (mkRequest (Some (mkRequestBody (JsString SOL) (JsString USDC)
                        (JsNum zero) (JsNum (of_Z 50)))) None None None)
    emptyWorld
  = (Reply400 "amount must be a positive number", emptyWorld)
  ∧ "amount must be a positive number"
    ∈ [ "Body must be a JSON object"; "tokenIn is required";
        "tokenOut is required"; "amount must be a positive number";
        "slippageBps must be between 0 and 10000" ].
Proof.
  apply (postExecute_rejects_without_effect clock0 id "uuid-1"
           (mkRequest (Some (mkRequestBody (JsString SOL) (JsString USDC)
                               (JsNum zero) (JsNum (of_Z 50)))) None None None)
           emptyWorld).
  vm_compute. reflexivity.
Defined.





End SubmissionProperties.

(** ** The worker and the durable record *)

Section WorkerRecordProperties.

Import OrderWorker StatusModel Runs.

#[local] Arguments retryLoop : simpl never.
#[local] Arguments computeExponentialBackoffMs : simpl never.

Lemma emitUnlessRecorded_keeps clock events id s w :
  db (emitUnlessRecorded clock events id s w) = db w
  ∧ ticks (emitUnlessRecorded clock events id s w)
    = (if hasStatus events s then ticks w else S (ticks w))
  ∧ ∃ evs,
      InMemoryActiveOrderStore.listEvents id
        (activeStore (emitUnlessRecorded clock events id s w))
      = InMemoryActiveOrderStore.listEvents id (activeStore w) ++ evs
      ∧ (∀ e, e ∈ evs -> status e = s).
Proof.
  unfold emitUnlessRecorded. destruct (hasStatus events s).
  - split_and!; try done. exists []. rewrite app_nil_r. split; [done|].
    by intros e ?%elem_of_nil.
  - split_and!; try done. eexists [_]. simpl. rewrite listEvents_appendEvent.
    split; [done|]. by intros e ->%list_elem_of_singleton.
Qed.

Lemma hasStatus_app l1 l2 s :
  hasStatus (l1 ++ l2) s = hasStatus l1 s || hasStatus l2 s.
Proof. unfold hasStatus. apply existsb_app. Qed.

Lemma hasStatus_others l s s' :
  (∀ e, e ∈ l -> status e = s') -> s' ≠ s -> hasStatus l s = false.
Proof.
  intros Hl Hne. destruct (hasStatus l s) eqn:Hs; [|done].
  apply hasStatus_true, list_elem_of_fmap in Hs as (e & -> & He).
  by apply Hl in He.
Qed.

(** An attempt in which the router quotes and executes, on a log that
    does not end in a terminal status. *)
Lemma once_completes clock r order w d ex :
  let id := orderId order in
  let events := InMemoryActiveOrderStore.listEvents id (activeStore w) in
  let res := processOrderOnce clock r order w in
  let ts := clock (Nat.pred (ticks res.2)) in
  route r order = Resolved d ->
  executeSwap r (dex (chosen d)) order (price (chosen d)) = Resolved ex ->
  lastStatus events ≠ Some confirmed -> lastStatus events ≠ Some failed ->
  res.1 = Resolved tt
  ∧ db res.2
    = PgDb.finalizeOrder id (sw_dex ex) (sw_executedPrice ex) (sw_txHash ex) ts (db w)
  ∧ (hasStatus events confirmed = false ->
     last (InMemoryActiveOrderStore.listEvents id (activeStore res.2))
     = Some (mkOrderEvent id confirmed ts
               (ConfirmedDetail (sw_txHash ex) (sw_dex ex) (sw_executedPrice ex)))).
Proof.
  intros id events res ts Hroute Hswap Hc Hf. unfold ts, res, processOrderOnce.
  fold id. fold events.
  rewrite (bool_decide_eq_false_2 _ Hc), (bool_decide_eq_false_2 _ Hf).
  rewrite Hroute, Hswap. cbn [orb].
  set (w1 := emitUnlessRecorded clock events id routing w).
  set (w2 := emitUnlessRecorded clock events id building w1).
  set (w4 := emitUnlessRecorded clock events id submitted (Op.sleep c150 w2)).
  destruct (emitUnlessRecorded_keeps clock events id routing w)
    as (Hd1 & _ & evs1 & Hl1 & Hs1).
  destruct (emitUnlessRecorded_keeps clock events id building w1)
    as (Hd2 & _ & evs2 & Hl2 & Hs2).
  destruct (emitUnlessRecorded_keeps clock events id submitted (Op.sleep c150 w2))
    as (Hd4 & _ & evs4 & Hl4 & Hs4).
  fold w1 in Hd1, Hl1, Hd2, Hl2. fold w2 in Hd2, Hl2, Hd4, Hl4. fold w4 in Hd4, Hl4.
  assert (db w4 = db w) as Hdb.
  { rewrite Hd4. simpl. by rewrite Hd2, Hd1. }
  assert (hasStatus (InMemoryActiveOrderStore.listEvents id (activeStore w4)) confirmed
          = hasStatus events confirmed) as Hhas.
  { rewrite Hl4. simpl. rewrite Hl2, Hl1. fold events. rewrite !hasStatus_app.
    rewrite (hasStatus_others evs1 confirmed routing),
            (hasStatus_others evs2 confirmed building),
            (hasStatus_others evs4 confirmed submitted) by done.
    by rewrite !orb_false_r. }
  cbn [Op.nowMs Op.finalizeOrder activeStore].
  rewrite Hhas. destruct (hasStatus events confirmed); cbn [fst snd]; simpl.
  - by rewrite Hdb.
  - rewrite Hdb. split_and!; [done..|]. intros _.
    rewrite listEvents_appendEvent. by rewrite last_snoc.
Qed.

(** X20: an attempt in which the router quotes and executes, on a log
    that does not end in a terminal status, resolves and finalizes the
    durable record with the venue, the executed price and the
    transaction hash the router returned, at the time of its last clock
    reading; unless the log holds a [confirmed] event already, the last
    event of the log is then the [confirmed] event with the same venue,
    price, hash and time. *)
Theorem processOrderOnce_finalizes (clock : nat -> Z) (r : Router) (order : Order)
    (w : World) (d : RoutingDecision) (ex : SwapExecutionResult) :
  let id := orderId order in
  let events := InMemoryActiveOrderStore.listEvents id (activeStore w) in
  let res := processOrderOnce clock r order w in
  let ts := clock (Nat.pred (ticks res.2)) in
  route r order = Resolved d ->
  executeSwap r (dex (chosen d)) order (price (chosen d)) = Resolved ex ->
  lastStatus events ≠ Some confirmed -> lastStatus events ≠ Some failed ->
  res.1 = Resolved tt
  ∧ db res.2
    = PgDb.finalizeOrder id (sw_dex ex) (sw_executedPrice ex) (sw_txHash ex) ts (db w)
  ∧ (hasStatus events confirmed = false ->
     last (InMemoryActiveOrderStore.listEvents id (activeStore res.2))
     = Some (mkOrderEvent id confirmed ts
               (ConfirmedDetail (sw_txHash ex) (sw_dex ex) (sw_executedPrice ex)))).
Proof. apply once_completes. Qed.

Lemma processOrderOnce_finalizes_witness :
  (processOrderOnce clock0 workingRouter order1 worldPending).1 = Resolved tt
  ∧ db (processOrderOnce clock0 workingRouter order1 worldPending).2
    = PgDb.finalizeOrder "order-1" raydium one "mocktx_1" 4 (db worldPending)
  ∧ (hasStatus (InMemoryActiveOrderStore.listEvents "order-1" (activeStore worldPending))
       confirmed = false ->
     last (InMemoryActiveOrderStore.listEvents "order-1"
             (activeStore (processOrderOnce clock0 workingRouter order1 worldPending).2))
     = Some (mkOrderEvent "order-1" confirmed 4
               (ConfirmedDetail "mocktx_1" raydium one))).
Proof.
  apply (processOrderOnce_finalizes clock0 workingRouter order1 worldPending
           (mkRoutingDecision quote1 quote1 quote1)
           (mkSwapExecutionResult raydium one "mocktx_1")).
  - reflexivity.
  - reflexivity.
  - vm_compute. discriminate.
  - vm_compute. discriminate.
Defined.

Lemma once_rejected_db clock r order w err :
  (processOrderOnce clock r order w).1 = Rejected err ->
  db (processOrderOnce clock r order w).2 = db w.
Proof.
  unfold processOrderOnce.
  destruct (bool_decide _ || bool_decide _); [done|].
  destruct (route r order) as [d|e]; simpl.
  - destruct (executeSwap r (dex (chosen d)) order (price (chosen d))) as [ex|e]; simpl.
    + by destruct (hasStatus _ confirmed).
    + intros _.
      rewrite (proj1 (emitUnlessRecorded_keeps _ _ _ _ _)). simpl.
      rewrite (proj1 (emitUnlessRecorded_keeps _ _ _ _ _)).
      by rewrite (proj1 (emitUnlessRecorded_keeps _ _ _ _ _)).
  - intros _. by rewrite (proj1 (emitUnlessRecorded_keeps _ _ _ _ _)).
Qed.

Lemma retryLoop_rejected_db fuel maxAttempts b run err : ∀ attempt w,
  (∀ a w0 e, (run a w0).1 = Rejected e -> db (run a w0).2 = db w0) ->
  (retryLoop fuel attempt maxAttempts b run w).1 = Rejected err ->
  db (retryLoop fuel attempt maxAttempts b run w).2 = db w.
Proof.
  induction fuel as [|fuel IH]; intros attempt w Hrun; [done|].
  destruct (Z.leb_spec attempt maxAttempts) as [Hle|Hgt].
  - rewrite retryLoop_step by done. pose proof (Hrun attempt w) as Hdb.
    destruct (run attempt w) as [[[]|e] w1]; [done|]. simpl in Hdb.
    destruct (attempt >=? maxAttempts)%Z; [intros _; by eapply Hdb|].
    intros Hrej. rewrite IH by done. simpl. by eapply Hdb.
  - unfold retryLoop. by rewrite (proj2 (Z.leb_gt _ _) Hgt).
Qed.

(** X21: a job that ends by throwing, for an order that is active, has
    written to the durable record once: the attempts that failed left it
    as it was, and the job then marked the row of the order [failed]
    with the message of the error, keeping whatever venue, price and
    transaction hash the row had. *)
Theorem executeOrderJob_rejected_record (clock : nat -> Z) (routerAt : Z -> Router)
    (order : Order) (w : World) (err : Thrown) :
  let id := orderId order in
  let res := executeOrderJob clock routerAt id w in
  InMemoryActiveOrderStore.getActiveOrder id (activeStore w) = Some order ->
  res.1 = Rejected err ->
  ∃ ts,
    db res.2 = PgDb.failOrder id (error_text err) ts (db w)
    ∧ ∀ row, db w !! id = Some row ->
        ∃ row', db res.2 !! id = Some row'
                ∧ fr_status row' = failed
                ∧ fr_failureReason row' = Some (error_text err)
                ∧ fr_dexChosen row' = fr_dexChosen row
                ∧ fr_executedPrice row' = fr_executedPrice row
                ∧ fr_txHash row' = fr_txHash row.
Proof.
  intros id res Hget. unfold res, executeOrderJob. rewrite Hget.
  pose proof (retryLoop_rejected_db (Z.to_nat ORDER_MAX_ATTEMPTS) ORDER_MAX_ATTEMPTS
                ORDER_BACKOFF_BASE_MS
                (λ attempt, processOrderOnce clock (routerAt attempt) order)) as Hdb.
  unfold runWithRetries.
  destruct (retryLoop _ _ _ _ _ w) as [[[]|e] w1] eqn:Hloop; [done|].
  specialize (Hdb e 1%Z w (λ a w0 e0, once_rejected_db clock (routerAt a) order w0 e0)).
  rewrite Hloop in Hdb. specialize (Hdb eq_refl). simpl in Hdb.
  simpl. destruct (hasStatus _ failed); simpl; intros [= ->];
    exists (clock (ticks w1)); rewrite Hdb; (split; [done|]);
    intros row Hrow; unfold PgDb.failOrder; rewrite lookup_alter_eq, Hrow;
    by eexists.
Qed.

Lemma executeOrderJob_rejected_record_witness :
  ∃ ts,
    db (executeOrderJob clock0 (λ _, failingRouter) "order-1" worldPending).2
    = PgDb.failOrder "order-1" "routing failed" ts (db worldPending)
    ∧ ∀ row, db worldPending !! "order-1" = Some row ->
        ∃ row', db (executeOrderJob clock0 (λ _, failingRouter) "order-1"
                      worldPending).2 !! "order-1" = Some row'
                ∧ fr_status row' = failed
                ∧ fr_failureReason row' = Some "routing failed"
                ∧ fr_dexChosen row' = fr_dexChosen row
                ∧ fr_executedPrice row' = fr_executedPrice row
                ∧ fr_txHash row' = fr_txHash row.
Proof.
  apply (executeOrderJob_rejected_record clock0 (λ _, failingRouter) order1
           worldPending (ErrorObj "routing failed")).
  - vm_compute. reflexivity.
  - vm_compute. reflexivity.
Defined.

Lemma once_terminal clock r order w :
  let events :=
    InMemoryActiveOrderStore.listEvents (orderId order) (activeStore w) in
  lastStatus events = Some confirmed ∨ lastStatus events = Some failed ->
  processOrderOnce clock r order w = (Resolved tt, w).
Proof.
  intros events Hlast. unfold processOrderOnce. fold events.
  by destruct Hlast as [-> | ->].
Qed.

(** X22: a job delivered again for an order whose log ends in
    [confirmed] or in [failed] resolves and changes nothing: no event, no
    write to the durable record, no sleep, no clock reading. In
    particular the job of an order that has failed reports success when
    it is run again. *)
Theorem executeOrderJob_redelivered (clock : nat -> Z) (routerAt : Z -> Router)
    (order : Order) (w : World) :
  let id := orderId order in
  let events := InMemoryActiveOrderStore.listEvents id (activeStore w) in
  InMemoryActiveOrderStore.getActiveOrder id (activeStore w) = Some order ->
  lastStatus events = Some confirmed ∨ lastStatus events = Some failed ->
  executeOrderJob clock routerAt id w = (Resolved tt, w).
Proof.
  intros id events Hget Hlast. unfold executeOrderJob. rewrite Hget.
  unfold runWithRetries, ORDER_MAX_ATTEMPTS. change (Z.to_nat 3) with 3.
  rewrite retryLoop_step by done. by rewrite once_terminal.
Qed.

Lemma executeOrderJob_redelivered_witness :
  executeOrderJob clock0 (λ _, workingRouter) "order-1" worldAfterFailure
  = (Resolved tt, worldAfterFailure).
Proof.
  apply (executeOrderJob_redelivered clock0 (λ _, workingRouter) order1
           worldAfterFailure).
  - vm_compute. reflexivity.
  - right. vm_compute. reflexivity.
Defined.

End WorkerRecordProperties.

(** ** The retry loop *)

Section RetryLoopProperties.

Import OrderWorker StatusModel Runs.

#[local] Arguments retryLoop : simpl never.
#[local] Arguments computeExponentialBackoffMs : simpl never.





(** X24: with [maxAttempts] zero or negative the loop body never runs:
    [runWithRetries] resolves at once, calls [run] not a single time and
    leaves everything as it is. *)
Theorem runWithRetries_no_attempts (b : number) (maxAttempts : Z)
    (run : Z -> World -> Outcome unit * World) (w : World) :
  (maxAttempts <= 0)%Z ->
  runWithRetries maxAttempts b run w = (Resolved tt, w).
Proof.
  intros Hle. unfold runWithRetries.
  destruct (Z.to_nat maxAttempts) as [|fuel]; [done|].
  unfold retryLoop. by rewrite (proj2 (Z.leb_gt _ _)) by lia.
Qed.

Lemma runWithRetries_no_attempts_witness :
  runWithRetries 0 c1000 (λ _ w0, (Rejected (ErrorObj "boom"), w0)) emptyWorld
  = (Resolved tt, emptyWorld).
Proof.
  apply (runWithRetries_no_attempts c1000 0
           (λ _ w0, (Rejected (ErrorObj "boom"), w0)) emptyWorld).
  lia.
Defined.

(** X25: for an attempt number of 2 or less, also 0 or a negative one,
    the wait is the base; for a base that is not negative the wait never
    gets shorter as the attempt number grows, up to attempt 1025; and
    from attempt 1026 on, where the power is [Infinity], the wait of
    base 0 is NaN. *)
Theorem backoff_floor_and_growth :
  (∀ a b, (a <= 2)%Z -> is_number b = true ->
     computeExponentialBackoffMs a b = b)
  ∧ (∀ a a' b, (a <= a' <= 1025)%Z -> is_number b = true ->
       leb zero b = true ->
       leb (computeExponentialBackoffMs a b) (computeExponentialBackoffMs a' b)
       = true)
  ∧ (∀ a, (1026 <= a)%Z -> computeExponentialBackoffMs a zero = S754_nan).
Proof.
  split_and!.
  - intros a b Ha Hb. unfold computeExponentialBackoffMs.
    rewrite Z.max_l by lia. by apply mul_one.
  - intros a a' b Ha Hb Hpos. by apply backoff_grows.
  - intros a Ha. unfold computeExponentialBackoffMs, Math_pow2.
    rewrite Z.max_r by lia. by rewrite (proj2 (Z.leb_gt _ _)) by lia.
Qed.

End RetryLoopProperties.

(** ** From the submission to the confirmed order *)

Section EndToEndProperties.

Import OrdersApi OrderWorker StatusModel.

#[local] Arguments retryLoop : simpl never.
#[local] Arguments processOrderOnce : simpl never.




End EndToEndProperties.

(** ** The active-order store over Redis *)

Section RedisStoreProperties.

Import RedisKeys RedisActiveOrderStore Runs.

Variable stringifyOrder : Order -> string.
Variable parseOrder : string -> Order.
Variable stringifyEvent : OrderEvent -> string.
Variable parseEvent : string -> OrderEvent.

Lemma storesAgree_empty : storesAgree stringifyOrder parseOrder stringifyEvent parseEvent InMemoryActiveOrderStore.empty ∅.
Proof.
  intros id _. rewrite !lookup_empty. split_and!; first [done | constructor].
Qed.

Lemma storesAgree_step op st ks :
  plainOp stringifyOrder parseOrder stringifyEvent parseEvent op -> storesAgree stringifyOrder parseOrder stringifyEvent parseEvent st ks ->
  (stepRedisStore stringifyOrder stringifyEvent op ks).1 = Resolved tt
  ∧ storesAgree stringifyOrder parseOrder stringifyEvent parseEvent (stepStore op st) (stepRedisStore stringifyOrder stringifyEvent op ks).2.
Proof.
  destruct keys_apart as (Hact & Hev & _ & Hes & Hfree).
  intros [Hop Hparses] Hagree. destruct op as [order|id0 ev|id0]; simpl in Hop.
  - split; [done|]. intros id Hid. destruct (Hagree id Hid) as (Ho & Hpo & He & Hpe).
    unfold stepRedisStore, stepStore, putActiveOrder, expire, set.
    unfold InMemoryActiveOrderStore.putActiveOrder, InMemoryActiveOrderStore.listEvents.
    cbn [snd InMemoryActiveOrderStore.orders InMemoryActiveOrderStore.events].
    assert (default [] ((match InMemoryActiveOrderStore.events st !! orderId order with
                         | Some _ => InMemoryActiveOrderStore.events st
                         | None => <[orderId order:=[]]> (InMemoryActiveOrderStore.events st)
                         end) !! id)
            = InMemoryActiveOrderStore.listEvents id st) as ->.
    { unfold InMemoryActiveOrderStore.listEvents.
      destruct (InMemoryActiveOrderStore.events st !! orderId order) eqn:Hl; [done|].
      destruct (decide (id = orderId order)) as [->|Hne].
      - by rewrite lookup_insert_eq, Hl.
      - by rewrite lookup_insert_ne. }
    split_and!; [| | |done].
    + destruct (decide (id = orderId order)) as [->|Hne].
      * by rewrite !lookup_insert_eq.
      * rewrite !lookup_insert_ne; [done|done|]. intros Heq. by apply Hact in Heq.
    + intros o. destruct (decide (id = orderId order)) as [->|Hne].
      * rewrite lookup_insert_eq. by intros [= <-].
      * rewrite lookup_insert_ne by done. apply Hpo.
    + by rewrite lookup_insert_ne
        by (intros Heq; by apply (Hfree _ id) in Hop as [? _]).
  - destruct (Hagree id0 Hop) as (_ & _ & He0 & _).
    unfold stepRedisStore, stepStore, appendEvent, rpush, expire.
    assert (∃ items,
              (match ks !! orderEventsKey id0 with
               | None => (Resolved tt, <[orderEventsKey id0 := VList [stringifyEvent ev]]> ks)
               | Some (VList items) =>
                   (Resolved tt,
                    <[orderEventsKey id0 := VList (items ++ [stringifyEvent ev])]> ks)
               | Some (VString _) => (Rejected wrongType, ks)
               end)
              = (Resolved tt, <[orderEventsKey id0 := VList (items ++ [stringifyEvent ev])]> ks)
              ∧ items = map stringifyEvent (InMemoryActiveOrderStore.listEvents id0 st))
      as (items & -> & Hitems).
    { destruct (ks !! orderEventsKey id0) as [[|items]|]; [done|by exists items|].
      exists []. by rewrite He0. }
    split; [done|]. cbn [snd]. intros id Hid.
    destruct (Hagree id Hid) as (Ho & Hpo & He & Hpe). split_and!.
    + by rewrite lookup_insert_ne
        by (intros Heq; by apply (Hfree _ id0) in Hid as [? _]).
    + done.
    + destruct (decide (id = id0)) as [->|Hne].
      * rewrite lookup_insert_eq, listEvents_appendEvent, map_app. by rewrite Hitems.
      * rewrite lookup_insert_ne by (intros Heq; by apply Hev in Heq).
        by rewrite listEvents_appendEvent_ne.
    + destruct (decide (id = id0)) as [->|Hne].
      * rewrite listEvents_appendEvent. apply Forall_app. split; [done|].
        by apply Forall_singleton.
      * by rewrite listEvents_appendEvent_ne.
  - split; [done|]. intros id Hid. destruct (Hagree id Hid) as (Ho & Hpo & He & Hpe).
    unfold stepRedisStore, stepStore, clear, del.
    unfold InMemoryActiveOrderStore.clear, InMemoryActiveOrderStore.listEvents.
    cbn [snd foldr InMemoryActiveOrderStore.orders InMemoryActiveOrderStore.events].
    destruct (decide (id = id0)) as [->|Hne].
    + rewrite !lookup_delete_eq. split_and!; [done|done| |constructor].
      rewrite lookup_delete_ne by (intros Heq; by apply (Hfree _ id0) in Hid as [? _]).
      by rewrite lookup_delete_eq.
    + rewrite !(lookup_delete_ne (InMemoryActiveOrderStore.orders st)),
              !(lookup_delete_ne (InMemoryActiveOrderStore.events st)) by done.
      split_and!; [|done| |done].
      * rewrite lookup_delete_ne by (intros Heq; by apply Hact in Heq).
        rewrite lookup_delete_ne
          by (intros Heq; by apply (Hfree _ id0) in Hid as [? _]).
        rewrite lookup_delete_ne
          by (intros Heq; by apply (Hfree _ id0) in Hid as [_ ?]).
        done.
      * rewrite lookup_delete_ne
          by (intros Heq; symmetry in Heq; by apply (Hfree _ id) in Hop as [? _]).
        rewrite lookup_delete_ne by (intros Heq; by apply Hev in Heq).
        rewrite lookup_delete_ne by (intros Heq; symmetry in Heq; by apply Hes in Heq).
        done.
Qed.

Lemma storesAgree_run ops : ∀ st ks,
  Forall (plainOp stringifyOrder parseOrder stringifyEvent parseEvent) ops ->
  storesAgree stringifyOrder parseOrder stringifyEvent parseEvent st ks ->
  (runRedisStore stringifyOrder stringifyEvent ops ks).1 = false
  ∧ storesAgree stringifyOrder parseOrder stringifyEvent parseEvent (runStore ops st) (runRedisStore stringifyOrder stringifyEvent ops ks).2.
Proof.
  induction ops as [|op ops IH] using rev_ind; intros st ks Hops Hagree; [done|].
  apply Forall_app in Hops as [Hops Hop]. rewrite Forall_singleton in Hop.
  destruct (IH st ks Hops Hagree) as [Hno Hag].
  unfold runRedisStore, runStore in *. rewrite !foldl_app. simpl.
  destruct (storesAgree_step op _ _ Hop Hag) as [Hres Hag'].
  destruct (stepRedisStore _ _ op _) as [o ks1]. simpl in *. subst o.
  by rewrite Hno.
Qed.

Lemma storesAgree_reads st ks id :
  colonFree id = true -> storesAgree stringifyOrder parseOrder stringifyEvent parseEvent st ks ->
  getActiveOrder parseOrder id ks
  = Resolved (InMemoryActiveOrderStore.getActiveOrder id st)
  ∧ listEvents parseEvent id ks
    = Resolved (InMemoryActiveOrderStore.listEvents id st).
Proof.
  intros Hid Hagree. destruct (Hagree id Hid) as (Ho & Hpo & He & Hpe).
  unfold getActiveOrder, get, listEvents, lrange,
    InMemoryActiveOrderStore.getActiveOrder. split.
  - rewrite Ho. destruct (InMemoryActiveOrderStore.orders st !! id) as [o|]; [|done].
    destruct (Hpo o eq_refl) as [Hparse Hnonempty].
    simpl. rewrite decide_False by done. by rewrite Hparse.
  - assert (map parseEvent (map stringifyEvent (InMemoryActiveOrderStore.listEvents id st))
            = InMemoryActiveOrderStore.listEvents id st) as Hback.
    { revert Hpe. generalize (InMemoryActiveOrderStore.listEvents id st) as l.
      induction 1 as [|ev l Hev _ IH]; [done|]. simpl. by rewrite Hev, IH. }
    destruct (ks !! orderEventsKey id) as [[|items]|]; [done| |by rewrite He].
    by rewrite He, Hback.
Qed.

End RedisStoreProperties.

(** X27: before any key expires, the store over Redis and the store in
    memory cannot be told apart by their answers, as long as the
    identifiers have no colon, as a UUID has none, and the JSON text of
    every order put is not empty and parses back to the order, and that
    of every event appended parses back to the event: after the same
    puts, appends and clears on a new store of either kind, no operation
    of the Redis store was refused, and [getActiveOrder] and [listEvents]
    answer the same for every such identifier. *)
Theorem stores_agree (stringifyOrder : Order -> string)
    (parseOrder : string -> Order) (stringifyEvent : OrderEvent -> string)
    (parseEvent : string -> OrderEvent) (ops : list Runs.StoreOp) (id : string) :
  Forall (Runs.plainOp stringifyOrder parseOrder stringifyEvent parseEvent) ops ->
  RedisKeys.colonFree id = true ->
  let ran := Runs.runRedisStore stringifyOrder stringifyEvent ops ∅ in
  let st := Runs.runStore ops InMemoryActiveOrderStore.empty in
  ran.1 = false
  ∧ RedisActiveOrderStore.getActiveOrder parseOrder id ran.2
    = Resolved (InMemoryActiveOrderStore.getActiveOrder id st)
  ∧ RedisActiveOrderStore.listEvents parseEvent id ran.2
    = Resolved (InMemoryActiveOrderStore.listEvents id st).
Proof.
  intros Hops Hid ran st.
  destruct (storesAgree_run stringifyOrder parseOrder stringifyEvent parseEvent ops
              InMemoryActiveOrderStore.empty ∅ Hops
              (storesAgree_empty stringifyOrder parseOrder stringifyEvent parseEvent))
    as [Hno Hag].
  split; [done|].
  by apply (storesAgree_reads stringifyOrder parseOrder stringifyEvent parseEvent).
Qed.

Lemma stores_agree_witness :
  let ops := [ Runs.StorePutOp order1;
               Runs.StoreAppendOp "order-1" (event "order-1" pending 1);
               Runs.StoreClearOp "order-2" ] in
  let ran := Runs.runRedisStore orderId (λ _, "pending") ops ∅ in
  let st := Runs.runStore ops InMemoryActiveOrderStore.empty in
  ran.1 = false
  ∧ RedisActiveOrderStore.getActiveOrder (λ _, order1) "order-1" ran.2
    = Resolved (InMemoryActiveOrderStore.getActiveOrder "order-1" st)
  ∧ RedisActiveOrderStore.listEvents (λ _, event "order-1" pending 1) "order-1" ran.2
    = Resolved (InMemoryActiveOrderStore.listEvents "order-1" st).
Proof.
  apply (stores_agree orderId (λ _, order1) (λ _, "pending")
           (λ _, event "order-1" pending 1)).
  - repeat constructor; done.
  - reflexivity.
Defined.

(** ** The whole lifecycle on a connection that stays open *)

Section WholeLifecycleProperties.

Import OrderSocket Stated Lifecycle WorkerSteps Whole.

Lemma socketOpen_sendUnsent l c : socketOpen (sendUnsent l c) = socketOpen c.
Proof.
  revert c. induction l as [|e l IH]; intros c; [done|]. simpl.
  destruct (bool_decide (status e ∈ sent c)); [apply IH|].
  by rewrite IH.
Qed.

Lemma socketOpen_onEvent e c : socketOpen (onEvent e c) = socketOpen c.
Proof.
  unfold onEvent. destruct (bool_decide _); [done|]. by destruct (backlogFlushed c).
Qed.

Lemma socketOpen_dispatch h calls c : socketOpen (dispatch h calls c) = socketOpen c.
Proof.
  revert c. induction calls as [|call calls IH]; intros c; [done|]. simpl.
  rewrite IH. destruct (decide (call.1 = h)); [apply socketOpen_onEvent|done].
Qed.

Lemma perform_bus id h a s :
  a ≠ Subscribe -> bus (perform id h a s) = bus s.
Proof. destruct a; try done. intros _. simpl. by destruct (backlog s). Qed.

Lemma perform_socketOpen id h a s :
  socketOpen (conn (perform id h a s)) = socketOpen (conn s).
Proof.
  destruct a; simpl; try done.
  - apply socketOpen_dispatch.
  - destruct (backlog s); [|done]. simpl. unfold deliverBacklog.
    rewrite socketOpen_sendUnsent. simpl. apply socketOpen_sendUnsent.
Qed.

Lemma jobNext_bus id h clock q t s q' t' s' :
  jobNext id h clock q t s = Some (q', t', s') ->
  bus s' = bus s ∧ socketOpen (conn s') = socketOpen (conn s).
Proof.
  destruct q as [|err|id' k|id' k|k|e k]; simpl; intros Hnext; simplify_eq; try done.
  destruct e; try done; simpl. split; [done|]. apply socketOpen_dispatch.
Qed.

Section Job.

Variable order : Order.
Variable h : Handler.
Variable p : OrderEvent.
Variable clock : nat -> Z.

Lemma ends_processOrderOnce router emitted :
  emitted = [] ∨ emitted = [routing] ∨ emitted = [routing; building; submitted] ->
  safe order None (processOrderOnce router order) emitted attemptEnds.
Proof.
  intros Hstart. unfold processOrderOnce. simpl.
  split_and!; [done..|]. intros events Hrec.
  rewrite (records_not_terminal _ _ Hrec).
  2,3: by destruct Hstart as [->|[->| ->]]; not_listed.
  unfold emitUnlessRecorded.
  rewrite !(records_hasStatus _ _ _ Hrec) by done.
  destruct (route router order) as [decision|err];
    [destruct (executeSwap router (dex (chosen decision)) order
                 (price (chosen decision))) as [ex|err]|];
    destruct Hstart as [->|[->| ->]]; decide_listed; simpl; straight.
  all: match goal with
       | H : records _ _ |- safe _ _ (if OrderWorker.hasStatus _ _ then _ else _) _ _ =>
           rewrite (records_hasStatus _ _ _ H) by done
       end;
       decide_listed; simpl; straight.
Qed.

Lemma ends_retryLoop run maxAttempts baseBackoffMs fuel : ∀ attempt emitted,
  (attempt <= maxAttempts)%Z ->
  Z.to_nat (maxAttempts - attempt + 1) <= fuel ->
  (∀ a l,
     l = [] ∨ l = [routing] ∨ l = [routing; building; submitted] ->
     safe order None (run a) l attemptEnds) ->
  emitted = [] ∨ emitted = [routing] ∨ emitted = [routing; building; submitted] ->
  safe order None (retryLoop fuel attempt maxAttempts baseBackoffMs run) emitted
    attemptEnds.
Proof.
  induction fuel as [|fuel IH]; intros attempt emitted Hle Hfuel Hrun Hstart; [lia|].
  simpl. rewrite (proj2 (Z.leb_le _ _)) by done.
  apply safe_catch. eapply safe_mono; [|by apply Hrun].
  intros [[]|err] l Hl; [done|]. simpl in Hl.
  destruct (Z.geb_spec attempt maxAttempts) as [Hge|Hlt]; simpl; [done|].
  split_and!; [done..|]. apply IH; [lia|lia|done|by right].
Qed.

Lemma ends_executeOrderJob routerAt :
  safe order None (executeOrderJob routerAt (orderId order)) [] jobEnds.
Proof.
  unfold executeOrderJob, runWithRetries. cbn [safe]. split_and!; [done..|].
  apply safe_catch. eapply safe_mono.
  2: { apply ends_retryLoop; [done|done| |by left].
       intros a l Hl. by apply ends_processOrderOnce. }
  intros [[]|err] l Hl; [done|]. simpl in Hl. simpl.
  split; [done|]. intros now. split_and!; [done..|]. intros events Hrec.
  rewrite (records_hasStatus _ _ _ Hrec) by done.
  destruct Hl as [->| ->]; decide_listed; simpl; straight.
Qed.

Lemma wholeInvariant_initial routerAt w :
  InMemoryActiveOrderStore.getActiveOrder (orderId order) (activeStore w) = Some order ->
  InMemoryActiveOrderStore.listEvents (orderId order) (activeStore w) = [] ->
  h ∉ default [] (InMemoryEventBus.handlers (eventBus w) !! orderId order) ->
  status p = pending ->
  wholeInvariant order h p (initial routerAt (orderId order) w).
Proof.
  intros Hget Hlog Hfresh Hp. split_and!.
  - exists [], None. simpl.
    split_parts; [by apply invariant_initial| |done|apply ends_executeOrderJob|done].
    simpl. rewrite Hp. exists [pending; routing; failed].
    split; [listed|by eexists].
  - intros _. simpl. apply filter_none. by intros x Hx ->.
  - simpl. lia.
Qed.

Lemma wholeInvariant_step st st' :
  step (orderId order) h clock (submitAndConnect (orderId order) p) st st' ->
  wholeInvariant order h p st -> wholeInvariant order h p st'.
Proof.
  intros Hstep ((evs & awaited & Hinv & Hpre & Hget & Hsafe & Hlast) & Hbefore & Hafter).
  pose proof (lifecyclePrefix_ascending (p :: evs) Hpre) as Hasc.
  pose proof (lifecyclePrefix_pending _ _ Hpre) as Hp.
  split.
  { destruct Hstep as [st a Ha|st q t s Hnext|st].
    - exists evs, awaited. cbn [job shared atClient readings].
      split_parts; [|done| |done..].
      + by apply (invariant_client _ h p evs Hasc (mkConfig _ _ _) a).
      + by rewrite getActiveOrder_perform.
    - destruct (job st) as [|err|id' k|id' k|k|e k] eqn:Hjob;
        simpl in Hnext, Hsafe; simplify_eq.
      + destruct Hsafe as (-> & -> & Hk). exists evs, None.
        cbn [job shared atClient readings].
        split_parts; [done..| |done].
        apply Hk. apply (invariant_records order h p evs (atClient st)); [|done].
        by rewrite Nat.sub_0_r in Hinv.
      + destruct Hsafe as (-> & -> & Hk). exists evs, None.
        cbn [job shared atClient readings]. rewrite Hget. done.
      + destruct Hsafe as (-> & Hk). exists evs, None.
        cbn [job shared atClient readings]. done.
      + destruct e as [o|id' e|id' e| | | | | | |]; try done.
        * destruct Hsafe as (-> & -> & Hmay & Hk).
          assert (lifecyclePrefix (map status (p :: evs ++ [e]))) as Hpre'.
          { simpl. by rewrite map_app, Hp. }
          exists (evs ++ [e]), (Some e). cbn [job shared atClient readings].
          split_parts; [|done|done|by rewrite map_app|by rewrite last_snoc].
          rewrite Nat.sub_0_r in Hinv. apply (invariant_extend _ _ _ _ _ e) in Hinv.
          replace (2 * length (evs ++ [e]) - 1) with (S (2 * length evs))
            by (rewrite length_app; simpl; lia).
          apply (invariant_append _ h p (evs ++ [e]) (mkConfig _ _ _) (length evs) e);
            [done..|].
          by rewrite lookup_app_r, Nat.sub_diag.
        * destruct Hsafe as (-> & -> & Hk).
          apply last_Some in Hlast as [evs0 ->].
          exists (evs0 ++ [e]), None. cbn [job shared atClient readings].
          split_parts; [|done..].
          replace (2 * length (evs0 ++ [e]) - 0) with (S (2 * length evs0 + 1))
            by (rewrite length_app; simpl; lia).
          replace (2 * length (evs0 ++ [e]) - 1) with (2 * length evs0 + 1) in Hinv
            by (rewrite length_app; simpl; lia).
          apply (invariant_publish _ h p (evs0 ++ [e]) Hasc (mkConfig _ _ _)
                   (length evs0) e); [done..|].
          by rewrite lookup_app_r, Nat.sub_diag.
        * destruct Hsafe as (-> & Hk). by exists evs, None.
        * destruct Hsafe as (-> & Hk). by exists evs, None.
        * destruct Hsafe as (-> & Hk). by exists evs, None.
        * destruct Hsafe as (-> & Hk). by exists evs, None.
        * destruct Hsafe as (-> & Hk). by exists evs, None.
        * destruct Hsafe as (-> & Hk). by exists evs, None.
        * destruct Hsafe as (-> & Hk). by exists evs, None.
    - exists evs, awaited. cbn [job shared atClient readings].
      split_parts; [|done..].
      by apply (invariant_close _ h p evs (mkConfig _ _ _)). }
  destruct Hstep as [st a Ha|st q t s Hnext|st]; cbn [job shared atClient readings].
  - rewrite perform_socketOpen.
    destruct (atClient st) as [|[|[|[|[|n]]]]] eqn:Hn; simpl in Ha; simplify_eq.
    + split; [|lia]. intros _. rewrite perform_bus by done. apply Hbefore. lia.
    + split; [|lia]. intros _. rewrite perform_bus by done. apply Hbefore. lia.
    + split; [lia|]. intros _ _. simpl. apply mine_subscribe. apply Hbefore. lia.
    + split; [lia|]. intros _ Hopen. rewrite perform_bus by done. apply Hafter; [lia|done].
    + split; [lia|]. intros _ Hopen. rewrite perform_bus by done. apply Hafter; [lia|done].
  - apply jobNext_bus in Hnext as [-> ->]. done.
  - split.
    + intros Hlt. simpl. destruct (closeListener (shared st)); [|by apply Hbefore].
      apply mine_unsubscribe. left. by apply Hbefore.
    + by intros _ ?.
Qed.

Lemma wholeInvariant_reachable st st' :
  rtc (step (orderId order) h clock (submitAndConnect (orderId order) p)) st st' ->
  wholeInvariant order h p st -> wholeInvariant order h p st'.
Proof. induction 1; eauto using wholeInvariant_step. Qed.

(** What the invariant says when the job has ended, the client has
    delivered the backlog and the socket is open. *)
Lemma wholeInvariant_frames st :
  wholeInvariant order h p st ->
  atClient st = 5 ->
  jobNext (orderId order) h clock (job st) (readings st) (shared st) = None ->
  socketOpen (conn (shared st)) = true ->
  map status (frames (conn (shared st))) ∈ canonicalSequences.
Proof.
  intros ((evs & awaited & Hinv & Hpre & _ & Hsafe & _) & _ & Hafter) Hn Hend Hopen.
  pose proof (lifecyclePrefix_pending _ _ Hpre) as Hp.
  assert (awaited = None ∧ ∃ r, jobEnds r (map status evs)) as [-> [r Hr]].
  { destruct (job st) as [|err|id' k|id' k|k|e k]; simpl in Hend, Hsafe; try done.
    - destruct Hsafe as [? ?]. split; [done|]. by exists (Resolved tt).
    - destruct Hsafe as [? ?]. split; [done|]. by exists (Rejected err). }
  destruct Hinv as (_ & _ & _ & Hphase).
  cbn [clientDone workerDone sys] in Hphase. rewrite Hn, Nat.sub_0_r in Hphase.
  destruct (counts_even (length evs)) as (_ & Hpub & _). rewrite Hpub in Hphase.
  destruct Hphase as (m & _ & _ & Hb & _ & Hframes & Hm).
  rewrite (Hframes Hopen).
  specialize (Hb (Hafter ltac:(lia) Hopen)).
  replace m with (length evs) by lia. rewrite firstn_all. simpl. rewrite Hp.
  unfold canonicalSequences.
  destruct r as [[]|err]; simpl in Hr; [rewrite Hr|destruct Hr as [-> | ->]]; listed.
Qed.

End Job.

(** X28: in the setting of the lifecycle property (an order stored with
    an empty log, its job, a connection opened with the identifier the
    submission path answers with), however the operations interleave:
    once the job has ended and the handler has delivered its backlog, a
    connection whose socket is still open has been sent the whole
    lifecycle, from [pending] to [confirmed] or [failed]: its frames read
    [pending, routing, building, submitted, confirmed], [pending,
    routing, failed] or [pending, routing, building, submitted,
    failed]. *)
Theorem connection_sees_whole_lifecycle (clockApi clock : nat -> Z)
    (routerAt : Z -> Router) (order : Order) (w : World) (h : Handler)
    (st : State) :
  let id := orderId order in
  InMemoryActiveOrderStore.getActiveOrder id (activeStore w) = Some order ->
  InMemoryActiveOrderStore.listEvents id (activeStore w) = [] ->
  h ∉ default [] (InMemoryEventBus.handlers (eventBus w) !! id) ->
  rtc (step id h clock (clientThread clockApi id w)) (initial routerAt id w) st ->
  atClient st = 5 ->
  jobNext id h clock (job st) (readings st) (shared st) = None ->
  socketOpen (conn (shared st)) = true ->
  map status (frames (conn (shared st))) ∈ canonicalSequences.
Proof.
  intros id Hget Hlog Hfresh Hrun Hn Hend Hopen.
  rewrite clientThread_actions in Hrun.
  set (p := mkOrderEvent id pending (clockApi (ticks w)) NoDetail) in *.
  apply (wholeInvariant_frames order h p clock); try done.
  apply (wholeInvariant_reachable order h p clock _ _ Hrun).
  by apply wholeInvariant_initial.
Qed.

Lemma connection_sees_whole_lifecycle_witness :
  map status (frames (conn (shared openRun))) ∈ canonicalSequences.
Proof.
  apply (connection_sees_whole_lifecycle clock0 clock0 (λ _, workingRouter)
           order1 worldEnqueued 7 openRun).
  - by vm_compute.
  - by vm_compute.
  - vm_compute. by intros ?%elem_of_nil.
  - apply runSchedule_reachable.
  - by vm_compute.
  - by vm_compute.
  - by vm_compute.
Defined.

End WholeLifecycleProperties.

(** ** A socket that closes before its close listener is registered *)

Section EarlyCloseProperties.

Import OrderSocket Stated Lifecycle Whole.

Lemma frames_onEvent_closed e c :
  socketOpen c = false -> frames (onEvent e c) = frames c.
Proof.
  intros Hc. unfold onEvent. destruct (bool_decide _); [done|].
  destruct (backlogFlushed c); simpl; [|done]. by rewrite Hc.
Qed.

Lemma frames_dispatch_closed h calls : ∀ c,
  socketOpen c = false -> frames (dispatch h calls c) = frames c.
Proof.
  induction calls as [|call calls IH]; intros c Hc; [done|]. simpl.
  destruct (decide (call.1 = h)); [|by apply IH].
  rewrite IH by (by rewrite socketOpen_onEvent). by apply frames_onEvent_closed.
Qed.

Lemma mine_resubscribe id h b :
  mine id h b = [h] -> mine id h (InMemoryEventBus.subscribe id h b) = [h].
Proof.
  intros Hm. unfold mine, InMemoryEventBus.subscribe in *. simpl.
  rewrite lookup_insert_eq. simpl. unfold set_add.
  rewrite decide_True; [done|].
  assert (h ∈ filter (λ x, x = h) (default [] (InMemoryEventBus.handlers b !! id)))
    as Hin by (rewrite Hm; by left).
  by apply list_elem_of_filter in Hin as [_ ?].
Qed.

Lemma perform_closed id h a s :
  socketOpen (conn s) = false -> mine id h (bus s) = [h] ->
  socketOpen (conn (perform id h a s)) = false
  ∧ mine id h (bus (perform id h a s)) = [h]
  ∧ frames (conn (perform id h a s)) = frames (conn s).
Proof.
  intros Hc Hm. rewrite perform_socketOpen. split; [done|].
  destruct a; simpl; try done.
  - split; [done|]. by apply frames_dispatch_closed.
  - split; [|done]. by apply mine_resubscribe.
  - destruct (backlog s) as [b|]; [|done]. simpl. split; [done|].
    unfold deliverBacklog.
    destruct (sendUnsent_closed (sortByLifecycle b) (conn s) Hc) as [Ho Hf].
    set (c2 := mkConn _ _ _ _ _).
    destruct (sendUnsent_closed (buffer c2) c2 Ho) as [_ ->]. done.
Qed.

Lemma move_closed id h clock client m st :
  m ≠ SocketCloses ->
  socketOpen (conn (shared st)) = false -> mine id h (bus (shared st)) = [h] ->
  socketOpen (conn (shared (move id h clock client m st))) = false
  ∧ mine id h (bus (shared (move id h clock client m st))) = [h]
  ∧ frames (conn (shared (move id h clock client m st))) = frames (conn (shared st)).
Proof.
  intros Hm Hc Hmine. destruct m; [| |done]; simpl.
  - destruct (client !! atClient st) as [a|]; [|done]. simpl.
    by apply perform_closed.
  - destruct (jobNext id h clock (job st) (readings st) (shared st))
      as [[[q t] s]|] eqn:Hnext; [|done]. simpl.
    destruct (job st) as [|err|id' k|id' k|k|e k]; simpl in Hnext; simplify_eq;
      try done.
    destruct e as [o|id' ev|id' ev| | | | | | |]; try done.
    by apply (perform_closed id h (Publish id' ev)).
Qed.

(** X29: a socket that closes after the handler has subscribed and
    before it has registered its ['close'] listener stays subscribed.
    With no later close, whatever the client and the job go on to do, the
    callback is still subscribed to the order at every later moment, and
    no further frame is sent. *)
Theorem early_close_stays_subscribed (id : string) (h : Handler) (clock : nat -> Z)
    (client : list Action) (st : State) (schedule : list Move) :
  closeListener (shared st) = false ->
  mine id h (bus (shared st)) = [h] ->
  Forall (λ m, m ≠ SocketCloses) schedule ->
  let closed := move id h clock client SocketCloses st in
  let st' := runSchedule id h clock client schedule closed in
  mine id h (bus (shared st')) = [h]
  ∧ socketOpen (conn (shared st')) = false
  ∧ frames (conn (shared st')) = frames (conn (shared st)).
Proof.
  intros Hlistener Hmine Hsched closed st'.
  assert (socketOpen (conn (shared closed)) = false
          ∧ mine id h (bus (shared closed)) = [h]
          ∧ frames (conn (shared closed)) = frames (conn (shared st)))
    as (Hc & Hm & Hf).
  { unfold closed. simpl. by rewrite Hlistener. }
  unfold st'. clearbody closed. clear st' Hlistener Hmine. rewrite <- Hf. clear Hf.
  induction schedule as [|m schedule IH] using rev_ind; [done|].
  apply Forall_app in Hsched as [Hsched Hlast]. rewrite Forall_singleton in Hlast.
  destruct (IH Hsched) as (IHm & IHc & IHf).
  unfold runSchedule in *. rewrite foldl_app. simpl.
  destruct (move_closed id h clock client m _ Hlast IHc IHm) as (? & ? & ->).
  done.
Qed.

Lemma early_close_stays_subscribed_witness :
  let closed :=
    move "order-1" 7 clock0 (clientThread clock0 "order-1" worldEnqueued)
      SocketCloses subscribedRun in
  let st' :=
    runSchedule "order-1" 7 clock0 (clientThread clock0 "order-1" worldEnqueued)
      afterEarlyClose closed in
  mine "order-1" 7 (bus (shared st')) = [7]
  ∧ socketOpen (conn (shared st')) = false
  ∧ frames (conn (shared st')) = frames (conn (shared subscribedRun)).
Proof.
  apply (early_close_stays_subscribed "order-1" 7 clock0
           (clientThread clock0 "order-1" worldEnqueued) subscribedRun afterEarlyClose).
  - by vm_compute.
  - by vm_compute.
  - unfold afterEarlyClose. simpl. repeat constructor; done.
Defined.

(** In that run the job ends with the whole lifecycle in the log and no
    frame was sent. *)
Example early_close_run :
  let closed :=
    move "order-1" 7 clock0 (clientThread clock0 "order-1" worldEnqueued)
      SocketCloses subscribedRun in
  let st' :=
    runSchedule "order-1" 7 clock0 (clientThread clock0 "order-1" worldEnqueued)
      afterEarlyClose closed in
  job st' = WorkerSteps.Done
  ∧ frames (conn (shared st')) = []
  ∧ length (InMemoryActiveOrderStore.listEvents "order-1" (store (shared st'))) = 5.
Proof. by vm_compute. Qed.

End EarlyCloseProperties.

(** ** The client's check of a lifecycle *)

Section SimulateProperties.

Import Lifecycle Simulate.

(** X30: the client's check accepts the statuses it received exactly
    when they begin with [pending, routing, building, submitted]. Of the
    three complete lifecycles the gateway sends it therefore accepts the
    two that reach [submitted] and not [pending, routing, failed], the
    lifecycle of an order that fails at routing. *)
Theorem requiredOrder_accepts :
  (∀ statuses,
     requiredOrder statuses = true
     ↔ [pending; routing; building; submitted] `prefix_of` statuses)
  ∧ (∀ statuses, statuses ∈ canonicalSequences ->
       requiredOrder statuses = false ↔ statuses = [pending; routing; failed]).
Proof.
  split.
  - intros statuses. unfold requiredOrder. split.
    + destruct statuses as [|s0 [|s1 [|s2 [|s3 rest]]]]; simpl;
        repeat (case_bool_decide; [|done]); try done.
      intros _. simplify_eq. by exists rest.
    + intros [rest ->]. done.
  - intros statuses Hin. unfold canonicalSequences in Hin.
    repeat (apply elem_of_cons in Hin as [->|Hin]); [..|by apply elem_of_nil in Hin];
      by vm_compute.
Qed.

End SimulateProperties.
